(** * IntelliFill: the intelligent field mapper ([field-mapping-core.py])

    A shallow embedding of [IntelligentFieldMapper] and a verification of the
    properties its specification states about score fusion, candidate
    generation and many-to-one conflict resolution.

    Modelling conventions.
    - A Python [float] is an exact rational of [Q]; rounding is not modelled,
      and equality of scores is [Qeq].
    - A Python [dict] is an association list in insertion order ([Dict]),
      which is the order [items()] and [max] iterate in.
    - A raised exception is the [Raised] branch of [result]; an absent
      dictionary key read with [d[k]] raises [KeyError], one read with
      [d.get(k, v)] yields the default.
    - The third-party libraries (rapidfuzz, transformers, spaCy,
      scikit-learn) are the fields of the record [External]. *)

From Stdlib Require Import List String Ascii Bool Arith ZArith QArith Qminmax Lia.
From Stdlib Require Import Sorted Permutation.
Import ListNotations.
Local Open Scope string_scope.
Local Open Scope list_scope.
Local Open Scope Q_scope.

Set Implicit Arguments.

(** ** Exceptions *)

Inductive PyExn : Type :=
| KeyError (key : string)
| IndexError
| AttributeError
| ValueError (msg : string)
| LibraryError (msg : string).

Inductive result (A : Type) : Type :=
| Ok (a : A)
| Raised (e : PyExn).

Arguments Ok {A} a.
Arguments Raised {A} e.

Definition bind {A B} (c : result A) (k : A -> result B) : result B :=
  match c with
  | Ok a => k a
  | Raised e => Raised e
  end.

Notation "x <- c ;; k" := (bind c (fun x => k))
  (at level 61, c at next level, right associativity).

(** [try c except Exception: h] *)
Definition try_except {A} (c : result A) (h : PyExn -> result A) : result A :=
  match c with
  | Ok a => Ok a
  | Raised e => h e
  end.

Fixpoint mapM {A B} (f : A -> result B) (l : list A) : result (list B) :=
  match l with
  | [] => Ok []
  | x :: l' => y <- f x ;; ys <- mapM f l' ;; Ok (y :: ys)
  end.

(** ** Floats as rationals *)

Definition Qltb (a b : Q) : bool := negb (Qle_bool b a).
Definition Qgeb (a b : Q) : bool := Qle_bool b a.

(** Python's two-argument [max(a, b)] and [min(a, b)]: the first argument is
    kept unless the second is strictly better. *)
Definition py_max (a b : Q) : Q := if Qltb a b then b else a.
Definition py_min (a b : Q) : Q := if Qltb b a then b else a.

(** [max(x :: rest, key=key)]: the first element whose key is maximal. *)
Definition py_max_by {A} (key : A -> Q) (x : A) (rest : list A) : A :=
  fold_left (fun best y => if Qltb (key best) (key y) then y else best) rest x.

(** ** Dictionaries in insertion order *)

Definition Dict (V : Type) : Type := list (string * V).

Fixpoint dict_get {V} (d : Dict V) (k : string) : option V :=
  match d with
  | [] => None
  | (k', v) :: d' => if String.eqb k' k then Some v else dict_get d' k
  end.

Definition dict_mem {V} (d : Dict V) (k : string) : bool :=
  match dict_get d k with Some _ => true | None => false end.

(** [d[k] = v]: overwrite in place, or append a new key at the end. *)
Fixpoint dict_set {V} (d : Dict V) (k : string) (v : V) : Dict V :=
  match d with
  | [] => [(k, v)]
  | (k', v') :: d' =>
      if String.eqb k' k then (k', v) :: d' else (k', v') :: dict_set d' k v
  end.

Definition dict_keys {V} (d : Dict V) : list string := map fst d.

(** ** The enumerations and data classes *)

Inductive FieldType : Type :=
| TEXT | EMAIL | PHONE | DATE | NUMBER | CURRENCY | ADDRESS | NAME
| BOOLEAN | SIGNATURE | UNKNOWN.

Definition FieldType_value (t : FieldType) : string :=
  match t with
  | TEXT => "text" | EMAIL => "email" | PHONE => "phone" | DATE => "date"
  | NUMBER => "number" | CURRENCY => "currency" | ADDRESS => "address"
  | NAME => "name" | BOOLEAN => "boolean" | SIGNATURE => "signature"
  | UNKNOWN => "unknown"
  end.

Definition FieldType_eqb (a b : FieldType) : bool :=
  match a, b with
  | TEXT, TEXT | EMAIL, EMAIL | PHONE, PHONE | DATE, DATE
  | NUMBER, NUMBER | CURRENCY, CURRENCY | ADDRESS, ADDRESS | NAME, NAME
  | BOOLEAN, BOOLEAN | SIGNATURE, SIGNATURE | UNKNOWN, UNKNOWN => true
  | _, _ => false
  end.

Inductive MatchingStrategy : Type :=
| EXACT | FUZZY | SEMANTIC | RULE_BASED | ML_CLASSIFICATION | HYBRID.

(** A numpy 2-D array of floats, row-major. *)
Definition Matrix : Type := list (list Q).

(** [matrix[i, j]] *)
Definition matrix_get (m : Matrix) (i j : nat) : result Q :=
  match nth_error m i with
  | None => Raised IndexError
  | Some row =>
      match nth_error row j with
      | None => Raised IndexError
      | Some v => Ok v
      end
  end.

(** The [metadata] dictionary that [_find_mapping_candidates] attaches. *)
Record MappingMetadata : Type := {
  doc_field_type : string;
  form_field_type : string;
  similarity_breakdown : Dict Q
}.

Record FieldMapping : Type := {
  source_field : string;
  target_field : string;
  confidence_score : Q;
  field_type : FieldType;
  matching_strategy : MatchingStrategy;
  metadata : option MappingMetadata
}.

Record DocumentField : Type := {
  doc_name : string;
  doc_value : string;
  doc_type : FieldType;
  doc_context : string;
  doc_position : Z * Z
}.

Record FormField : Type := {
  form_name : string;
  form_type : FieldType;
  form_required : bool;
  form_options : list string;
  form_validation_pattern : string;
  form_position : Z * Z
}.

(** ** Configuration

    The configuration is a [Dict[str, Any]]; a key may be absent. *)

Record Config : Type := {
  similarity_threshold : option Q;
  confidence_threshold : option Q;
  enable_semantic_matching : option bool;
  enable_fuzzy_matching : option bool;
  enable_rule_based : option bool;
  fuzzy_ratio_weight : option Q;
  semantic_weight : option Q;
  rule_weight : option Q;
  bert_model_name : option string;
  spacy_model : option string;
  max_suggestions : option Z
}.

Definition _get_default_config : Config := {|
  similarity_threshold := Some (7 # 10);
  confidence_threshold := Some (6 # 10);
  enable_semantic_matching := Some true;
  enable_fuzzy_matching := Some true;
  enable_rule_based := Some true;
  fuzzy_ratio_weight := Some (3 # 10);
  semantic_weight := Some (4 # 10);
  rule_weight := Some (3 # 10);
  bert_model_name := Some "distilbert-base-uncased";
  spacy_model := Some "en_core_web_sm";
  max_suggestions := Some 5%Z
|}.

(** [config.get(key)] used as a condition: an absent key is falsy. *)
Definition truthy (b : option bool) : bool :=
  match b with Some true => true | _ => false end.

(** [config.get(key, default)] *)
Definition get_default {A} (o : option A) (d : A) : A :=
  match o with Some v => v | None => d end.

(** [config[key]] *)
Definition get_item {A} (key : string) (o : option A) : result A :=
  match o with Some v => Ok v | None => Raised (KeyError key) end.

(** ** Strings

    Field names are byte strings; [lower] and [split] are the ASCII
    restrictions of [str.lower] and [str.split]: they agree with Python on
    strings of ASCII characters, and leave every other byte alone where
    Python folds or splits on further Unicode characters. *)

Definition lower_ascii (c : ascii) : ascii :=
  let n := nat_of_ascii c in
  if (65 <=? n)%nat && (n <=? 90)%nat then ascii_of_nat (n + 32) else c.

Fixpoint lower (s : string) : string :=
  match s with
  | EmptyString => EmptyString
  | String c s' => String (lower_ascii c) (lower s')
  end.

(** [sub in s] *)
Fixpoint contains (s sub : string) : bool :=
  String.prefix sub s ||
  match s with
  | EmptyString => false
  | String _ s' => contains s' sub
  end.

Definition is_space (c : ascii) : bool :=
  let n := nat_of_ascii c in
  ((9 <=? n)%nat && (n <=? 13)%nat) || ((28 <=? n)%nat && (n <=? 32)%nat).

(** [s.split()]: the maximal runs of non-whitespace characters. [cur] is the
    word being read, reversed. *)
Fixpoint split_aux (s : string) (cur : list ascii) : list string :=
  let flush := match cur with
               | [] => []
               | _ => [string_of_list_ascii (rev cur)]
               end in
  match s with
  | EmptyString => flush
  | String c s' =>
      if is_space c then flush ++ split_aux s' [] else split_aux s' (c :: cur)
  end.

Definition split (s : string) : list string := split_aux s [].

Definition mem_string (x : string) (l : list string) : bool :=
  existsb (String.eqb x) l.

(** [set(l)], as the list of the distinct elements of [l]. *)
Fixpoint to_set (l : list string) : list string :=
  match l with
  | [] => []
  | x :: l' => if mem_string x l' then to_set l' else x :: to_set l'
  end.

Definition set_inter (a b : list string) : list string :=
  filter (fun x => mem_string x b) a.

Definition set_union (a b : list string) : list string :=
  a ++ filter (fun x => negb (mem_string x a)) b.

(** ** The regular expressions of the rule table

    [re.search] succeeds iff some substring belongs to the language of the
    pattern; membership is decided with Brzozowski derivatives. *)

Inductive regex : Type :=
| Rnull
| Reps
| Rchar (c : ascii)
| Rdot
| Ralt (r1 r2 : regex)
| Rcat (r1 r2 : regex)
| Rstar (r : regex).

Fixpoint Rlit (s : string) : regex :=
  match s with
  | EmptyString => Reps
  | String c s' => Rcat (Rchar c) (Rlit s')
  end.

Fixpoint nullable (r : regex) : bool :=
  match r with
  | Rnull => false
  | Reps => true
  | Rchar _ => false
  | Rdot => false
  | Ralt r1 r2 => nullable r1 || nullable r2
  | Rcat r1 r2 => nullable r1 && nullable r2
  | Rstar _ => true
  end.

Fixpoint deriv (a : ascii) (r : regex) : regex :=
  match r with
  | Rnull => Rnull
  | Reps => Rnull
  | Rchar c => if Ascii.eqb a c then Reps else Rnull
  | Rdot => if Ascii.eqb a "010"%char then Rnull else Reps
  | Ralt r1 r2 => Ralt (deriv a r1) (deriv a r2)
  | Rcat r1 r2 =>
      if nullable r1
      then Ralt (Rcat (deriv a r1) r2) (deriv a r2)
      else Rcat (deriv a r1) r2
  | Rstar r1 => Rcat (deriv a r1) (Rstar r1)
  end.

(** Does some prefix of [s] match [r]? *)
Fixpoint prefix_match (r : regex) (s : string) : bool :=
  nullable r ||
  match s with
  | EmptyString => false
  | String c s' => prefix_match (deriv c r) s'
  end.

Fixpoint re_search (r : regex) (s : string) : bool :=
  prefix_match r s ||
  match s with
  | EmptyString => false
  | String _ s' => re_search r s'
  end.

Definition Rthen (r : regex) (s : string) : regex :=
  Rcat r (Rcat (Rstar Rdot) (Rlit s)).

(** The [patterns] list of [_apply_mapping_rules]. *)
Definition patterns : list (regex * regex) :=
  let first_given := Ralt (Rlit "first") (Rlit "given") in
  let last_family_sur := Ralt (Rlit "last") (Ralt (Rlit "family") (Rlit "sur")) in
  let birth_dob := Ralt (Rlit "birth") (Rlit "dob") in
  [ (Rthen first_given "name", Rthen first_given "name");
    (Rthen last_family_sur "name", Rthen last_family_sur "name");
    (Rthen (Rlit "full") "name",
     Rthen (Ralt (Rlit "full") (Rlit "complete")) "name");
    (Rthen (Rlit "email") "address", Rlit "email");
    (Rthen (Rlit "phone") "number", Rlit "phone");
    (Rthen (Rlit "mobile") "number", Ralt (Rlit "mobile") (Rlit "cell"));
    (Rthen (Rlit "street") "address", Ralt (Rlit "street") (Rlit "address"));
    (Rlit "city", Rlit "city");
    (Rlit "state", Rlit "state");
    (Rthen (Rlit "zip") "code", Ralt (Rlit "zip") (Rlit "postal"));
    (Rthen (Rlit "birth") "date", birth_dob);
    (Rthen (Rlit "date") "birth", birth_dob);
    (Rlit "salary", Ralt (Rlit "salary") (Rlit "income"));
    (Rlit "amount", Rlit "amount") ].

Definition _apply_mapping_rules (doc_field form_field : string) : Q :=
  let score := 0 in
  let doc_lower := lower doc_field in
  let form_lower := lower form_field in
  if String.eqb doc_lower form_lower then 1
  else
    let score :=
      fold_left
        (fun score p =>
           if re_search (fst p) doc_lower && re_search (snd p) form_lower
           then py_max score (9 # 10) else score)
        patterns score in
    let score :=
      if contains form_lower doc_lower || contains doc_lower form_lower
      then py_max score (7 # 10) else score in
    let doc_words := to_set (split doc_lower) in
    let form_words := to_set (split form_lower) in
    let overlap := List.length (set_inter doc_words form_words) in
    let total_words := List.length (set_union doc_words form_words) in
    if (0 <? total_words)%nat
    then
      let jaccard_score :=
        inject_Z (Z.of_nat overlap) / inject_Z (Z.of_nat total_words) in
      py_max score (jaccard_score * (8 # 10))
    else score.

(** ** The third-party libraries *)

Definition Handle : Type := string.

Record External : Type := {
  (* rapidfuzz.fuzz: similarities in [0, 100] *)
  fuzz_ratio : string -> string -> Q;
  fuzz_partial_ratio : string -> string -> Q;
  fuzz_token_sort_ratio : string -> string -> Q;
  (* transformers and spaCy loaders *)
  AutoTokenizer_from_pretrained : string -> result Handle;
  AutoModel_from_pretrained : string -> result Handle;
  spacy_load : string -> result Handle;
  (* tokenizer, model and text to the CLS embedding of the text *)
  bert_cls_embedding : Handle -> Handle -> string -> result (list Q);
  (* scikit-learn *)
  tfidf_fit_transform : list string -> result (list (list Q));
  cosine_similarity : list (list Q) -> list (list Q) -> result Matrix
}.

(** ** The mapper object *)

Record Mapper : Type := {
  config : Config;
  tokenizer : option Handle;
  bert_model : option Handle;
  tfidf_vectorizer : option unit;
  spacy_nlp : option Handle
}.

Definition set_enable_semantic_matching (c : Config) (b : bool) : Config := {|
  similarity_threshold := similarity_threshold c;
  confidence_threshold := confidence_threshold c;
  enable_semantic_matching := Some b;
  enable_fuzzy_matching := enable_fuzzy_matching c;
  enable_rule_based := enable_rule_based c;
  fuzzy_ratio_weight := fuzzy_ratio_weight c;
  semantic_weight := semantic_weight c;
  rule_weight := rule_weight c;
  bert_model_name := bert_model_name c;
  spacy_model := spacy_model c;
  max_suggestions := max_suggestions c
|}.

(** The [except] branch of [_initialize_components]. *)
Definition fallback_to_basic (m : Mapper) : Mapper := {|
  config := set_enable_semantic_matching (config m) false;
  tokenizer := tokenizer m;
  bert_model := bert_model m;
  tfidf_vectorizer := tfidf_vectorizer m;
  spacy_nlp := spacy_nlp m
|}.

Definition _initialize_components (E : External) (m : Mapper) : Mapper :=
  if truthy (enable_semantic_matching (config m)) then
    match get_item "bert_model_name" (bert_model_name (config m)) with
    | Raised _ => fallback_to_basic m
    | Ok model_name =>
    match AutoTokenizer_from_pretrained E model_name with
    | Raised _ => fallback_to_basic m
    | Ok tok =>
    let m := {| config := config m; tokenizer := Some tok;
                bert_model := bert_model m;
                tfidf_vectorizer := tfidf_vectorizer m;
                spacy_nlp := spacy_nlp m |} in
    match AutoModel_from_pretrained E model_name with
    | Raised _ => fallback_to_basic m
    | Ok bm =>
    let m := {| config := config m; tokenizer := tokenizer m;
                bert_model := Some bm;
                tfidf_vectorizer := tfidf_vectorizer m;
                spacy_nlp := spacy_nlp m |} in
    match get_item "spacy_model" (spacy_model (config m)) with
    | Raised _ => fallback_to_basic m
    | Ok sm =>
    match spacy_load E sm with
    | Raised _ => fallback_to_basic m
    | Ok nlp =>
        {| config := config m; tokenizer := tokenizer m;
           bert_model := bert_model m;
           tfidf_vectorizer := Some tt;
           spacy_nlp := Some nlp |}
    end end end end end
  else m.

Definition empty_config : Config := {|
  similarity_threshold := None; confidence_threshold := None;
  enable_semantic_matching := None; enable_fuzzy_matching := None;
  enable_rule_based := None; fuzzy_ratio_weight := None;
  semantic_weight := None; rule_weight := None;
  bert_model_name := None; spacy_model := None; max_suggestions := None
|}.

(** [bool(config)]: a dictionary is falsy when it has no key. *)
Definition config_is_empty (c : Config) : bool :=
  match c with
  | {| similarity_threshold := None; confidence_threshold := None;
       enable_semantic_matching := None; enable_fuzzy_matching := None;
       enable_rule_based := None; fuzzy_ratio_weight := None;
       semantic_weight := None; rule_weight := None;
       bert_model_name := None; spacy_model := None;
       max_suggestions := None |} => true
  | _ => false
  end.

(** [IntelligentFieldMapper.__init__]; [None] is the default argument. *)
Definition __init__ (E : External) (cfg : option Config) : Mapper :=
  let chosen :=
    match cfg with
    | Some c => if config_is_empty c then _get_default_config else c
    | None => _get_default_config
    end in
  _initialize_components E
    {| config := chosen; tokenizer := None; bert_model := None;
       tfidf_vectorizer := None; spacy_nlp := None |}.

(** ** Similarity matrices *)

Definition _compute_fuzzy_matrix (E : External) (doc_fields form_fields : list string)
  : Matrix :=
  map (fun doc_field =>
         map (fun form_field =>
                let ratio :=
                  fuzz_ratio E (lower doc_field) (lower form_field) / 100 in
                let partial_ratio :=
                  fuzz_partial_ratio E (lower doc_field) (lower form_field) / 100 in
                let token_sort_ratio :=
                  fuzz_token_sort_ratio E (lower doc_field) (lower form_field) / 100 in
                ratio * (4 # 10) + partial_ratio * (3 # 10)
                + token_sort_ratio * (3 # 10))
             form_fields)
      doc_fields.

Definition _compute_rule_based_matrix (doc_fields form_fields : list string)
  : Matrix :=
  map (fun doc_field =>
         map (fun form_field => _apply_mapping_rules doc_field form_field)
             form_fields)
      doc_fields.

Definition _get_bert_embeddings (E : External) (M : Mapper) (texts : list string)
  : result (list (list Q)) :=
  match tokenizer M, bert_model M with
  | Some tok, Some model => mapM (bert_cls_embedding E tok model) texts
  | _, _ => Raised AttributeError
  end.

Definition _compute_tfidf_similarity (E : External) (M : Mapper)
    (doc_fields form_fields : list string) : result Matrix :=
  let all_fields := doc_fields ++ form_fields in
  match tfidf_vectorizer M with
  | None => Raised AttributeError
  | Some _ =>
      tfidf_matrix <- tfidf_fit_transform E all_fields ;;
      let doc_matrix := firstn (List.length doc_fields) tfidf_matrix in
      let form_matrix := skipn (List.length doc_fields) tfidf_matrix in
      cosine_similarity E doc_matrix form_matrix
  end.

Definition _compute_semantic_matrix (E : External) (M : Mapper)
    (doc_fields form_fields : list string) : result Matrix :=
  try_except
    (doc_embeddings <- _get_bert_embeddings E M doc_fields ;;
     form_embeddings <- _get_bert_embeddings E M form_fields ;;
     cosine_similarity E doc_embeddings form_embeddings)
    (fun _ => _compute_tfidf_similarity E M doc_fields form_fields).

Definition is_some {A} (o : option A) : bool :=
  match o with Some _ => true | None => false end.

Definition _compute_similarity_matrices (E : External) (M : Mapper)
    (doc_fields form_fields : list string) : result (Dict Matrix) :=
  let matrices : Dict Matrix := [] in
  let matrices :=
    if truthy (enable_fuzzy_matching (config M))
    then dict_set matrices "fuzzy" (_compute_fuzzy_matrix E doc_fields form_fields)
    else matrices in
  matrices <-
    (if truthy (enable_semantic_matching (config M)) && is_some (bert_model M)
     then
       semantic <- _compute_semantic_matrix E M doc_fields form_fields ;;
       Ok (dict_set matrices "semantic" semantic)
     else Ok matrices) ;;
  let matrices :=
    if truthy (enable_rule_based (config M))
    then dict_set matrices "rule_based"
           (_compute_rule_based_matrix doc_fields form_fields)
    else matrices in
  Ok matrices.

(** ** Score fusion *)

Definition compatible_types : list ((FieldType * FieldType) * Q) :=
  [ ((TEXT, NAME), 1 # 10);
    ((TEXT, ADDRESS), 1 # 10);
    ((NUMBER, CURRENCY), 15 # 100);
    ((TEXT, EMAIL), 1 # 10);
    ((TEXT, PHONE), 1 # 10) ].

Fixpoint compatible_types_get (tbl : list ((FieldType * FieldType) * Q))
    (p : FieldType * FieldType) (default : Q) : Q :=
  match tbl with
  | [] => default
  | ((a, b), v) :: tbl' =>
      if FieldType_eqb a (fst p) && FieldType_eqb b (snd p) then v
      else compatible_types_get tbl' p default
  end.

Definition _calculate_type_compatibility_bonus (doc_field : DocumentField)
    (form_field : FormField) : Q :=
  if FieldType_eqb (doc_type doc_field) (form_type form_field) then 2 # 10
  else
    let type_pair := (doc_type doc_field, form_type form_field) in
    let reverse_pair := (form_type form_field, doc_type doc_field) in
    compatible_types_get compatible_types type_pair
      (compatible_types_get compatible_types reverse_pair 0).

(** One of the three [if key in similarity_matrices:] blocks; [acc] is
    [(total_score, total_weight)]. *)
Definition add_provider_score (similarity_matrices : Dict Matrix)
    (key : string) (weight : Q) (doc_index form_index : nat) (acc : Q * Q)
  : result (Q * Q) :=
  match dict_get similarity_matrices key with
  | Some matrix =>
      score <- matrix_get matrix doc_index form_index ;;
      Ok (fst acc + score * weight, snd acc + weight)
  | None => Ok acc
  end.

Definition _calculate_confidence_score (cfg : Config)
    (doc_field : DocumentField) (form_field : FormField)
    (similarity_matrices : Dict Matrix) (doc_index form_index : nat)
  : result Q :=
  acc <- add_provider_score similarity_matrices "fuzzy"
           (get_default (fuzzy_ratio_weight cfg) (3 # 10))
           doc_index form_index (0, 0) ;;
  acc <- add_provider_score similarity_matrices "semantic"
           (get_default (semantic_weight cfg) (4 # 10))
           doc_index form_index acc ;;
  acc <- add_provider_score similarity_matrices "rule_based"
           (get_default (rule_weight cfg) (3 # 10))
           doc_index form_index acc ;;
  let type_bonus := _calculate_type_compatibility_bonus doc_field form_field in
  let total_score := fst acc + type_bonus * (1 # 10) in
  let total_weight := snd acc in
  let confidence :=
    if Qltb 0 total_weight then total_score / total_weight else 0 in
  Ok (py_min confidence 1).

(** ** Strategy, breakdown and field type of a candidate *)

Fixpoint foldM {A B} (f : A -> B -> result A) (l : list B) (a : A) : result A :=
  match l with
  | [] => Ok a
  | x :: l' => a' <- f a x ;; foldM f l' a'
  end.

(** [for strategy, matrix in similarity_matrices.items():
       scores[strategy] = matrix[doc_index, form_index]] *)
Definition entries_at (similarity_matrices : Dict Matrix)
    (doc_index form_index : nat) : result (Dict Q) :=
  foldM (fun scores km =>
           v <- matrix_get (snd km) doc_index form_index ;;
           Ok (dict_set scores (fst km) v))
        similarity_matrices [].

Definition strategy_mapping : Dict MatchingStrategy :=
  [ ("fuzzy", FUZZY); ("semantic", SEMANTIC); ("rule_based", RULE_BASED) ].

Definition _determine_matching_strategy (similarity_matrices : Dict Matrix)
    (doc_index form_index : nat) : result MatchingStrategy :=
  scores <- entries_at similarity_matrices doc_index form_index ;;
  match dict_keys scores with
  | [] => Ok EXACT
  | k :: ks =>
      let best_strategy :=
        py_max_by (fun k => get_default (dict_get scores k) 0) k ks in
      Ok (get_default (dict_get strategy_mapping best_strategy) HYBRID)
  end.

Definition _get_similarity_breakdown (similarity_matrices : Dict Matrix)
    (doc_index form_index : nat) : result (Dict Q) :=
  entries_at similarity_matrices doc_index form_index.

Definition any_in (terms : list string) (field_name : string) : bool :=
  existsb (fun term => contains field_name term) terms.

Definition _infer_field_type (doc_field : DocumentField) (form_field : FormField)
  : FieldType :=
  if negb (FieldType_eqb (form_type form_field) UNKNOWN) then form_type form_field
  else if negb (FieldType_eqb (doc_type doc_field) UNKNOWN) then doc_type doc_field
  else
    let field_name := lower (doc_name doc_field) in
    if any_in ["email"; "e-mail"] field_name then EMAIL
    else if any_in ["phone"; "mobile"; "tel"] field_name then PHONE
    else if any_in ["date"; "birth"; "dob"] field_name then DATE
    else if any_in ["name"; "first"; "last"] field_name then NAME
    else if any_in ["address"; "street"; "city"] field_name then ADDRESS
    else if any_in ["amount"; "price"; "salary"] field_name then CURRENCY
    else TEXT.

(** ** Candidate generation *)

(** [candidates.sort(key=lambda x: x.confidence_score, reverse=True)]: a
    stable sort, equal scores keep their order. *)
Fixpoint insert_desc (x : FieldMapping) (l : list FieldMapping)
  : list FieldMapping :=
  match l with
  | [] => [x]
  | y :: l' =>
      if Qltb (confidence_score x) (confidence_score y)
      then y :: insert_desc x l' else x :: l
  end.

Definition sort_desc (l : list FieldMapping) : list FieldMapping :=
  fold_right insert_desc [] l.

(** [l[:k]], for a possibly negative [k]. *)
Definition slice_to {A} (l : list A) (k : Z) : list A :=
  if (0 <=? k)%Z then firstn (Z.to_nat k) l
  else firstn (Z.to_nat (Z.of_nat (List.length l) + k)) l.

(** The body of the loop over [enumerate(form_fields)], from index [j] on. *)
Fixpoint candidates_from (cfg : Config) (doc_field : DocumentField)
    (form_fields : list FormField) (similarity_matrices : Dict Matrix)
    (doc_index j : nat) : result (list FieldMapping) :=
  match form_fields with
  | [] => Ok []
  | form_field :: rest =>
      confidence <- _calculate_confidence_score cfg doc_field form_field
                      similarity_matrices doc_index j ;;
      threshold <- get_item "similarity_threshold" (similarity_threshold cfg) ;;
      here <-
        (if Qgeb confidence threshold then
           strategy <- _determine_matching_strategy similarity_matrices
                         doc_index j ;;
           breakdown <- _get_similarity_breakdown similarity_matrices
                          doc_index j ;;
           Ok [ {| source_field := doc_name doc_field;
                   target_field := form_name form_field;
                   confidence_score := confidence;
                   field_type := _infer_field_type doc_field form_field;
                   matching_strategy := strategy;
                   metadata := Some
                     {| doc_field_type := FieldType_value (doc_type doc_field);
                        form_field_type := FieldType_value (form_type form_field);
                        similarity_breakdown := breakdown |} |} ]
         else Ok []) ;;
      later <- candidates_from cfg doc_field rest similarity_matrices
                 doc_index (S j) ;;
      Ok (here ++ later)
  end.

Definition _find_mapping_candidates (cfg : Config) (doc_field : DocumentField)
    (form_fields : list FormField) (similarity_matrices : Dict Matrix)
    (doc_index : nat) : result (list FieldMapping) :=
  candidates <- candidates_from cfg doc_field form_fields similarity_matrices
                  doc_index 0 ;;
  let candidates := sort_desc candidates in
  let max_suggestions := get_default (max_suggestions cfg) 5%Z in
  Ok (slice_to candidates max_suggestions).

(** ** Conflict resolution *)

(** A group is a non-empty list, kept as its first element and the rest. *)
Definition Group : Type := (FieldMapping * list FieldMapping)%type.

Definition group_add (target_groups : Dict Group) (mapping : FieldMapping)
  : Dict Group :=
  match dict_get target_groups (target_field mapping) with
  | None => dict_set target_groups (target_field mapping) (mapping, [])
  | Some (first, others) =>
      dict_set target_groups (target_field mapping)
        (first, others ++ [mapping])
  end.

Definition resolve_group (group : Group) : FieldMapping :=
  match snd group with
  | [] => fst group
  | _ => py_max_by confidence_score (fst group) (snd group)
  end.

Definition _resolve_mapping_conflicts (mappings : list FieldMapping)
  : list FieldMapping :=
  let target_groups := fold_left group_add mappings [] in
  map (fun tg => resolve_group (snd tg)) target_groups.

(** ** The entry point *)

(** The loop over [enumerate(document_fields)], from index [i] on. *)
Fixpoint mappings_from (cfg : Config) (document_fields : list DocumentField)
    (form_fields : list FormField) (similarity_matrices : Dict Matrix)
    (i : nat) : result (list FieldMapping) :=
  match document_fields with
  | [] => Ok []
  | doc_field :: rest =>
      candidates <- _find_mapping_candidates cfg doc_field form_fields
                      similarity_matrices i ;;
      here <-
        match candidates with
        | [] => Ok []
        | c :: cs =>
            let best_mapping := py_max_by confidence_score c cs in
            threshold <- get_item "confidence_threshold"
                           (confidence_threshold cfg) ;;
            if Qgeb (confidence_score best_mapping) threshold
            then Ok [best_mapping] else Ok []
        end ;;
      later <- mappings_from cfg rest form_fields similarity_matrices (S i) ;;
      Ok (here ++ later)
  end.

Definition map_fields (E : External) (M : Mapper)
    (document_fields : list DocumentField) (form_fields : list FormField)
  : result (list FieldMapping) :=
  let doc_field_names := map doc_name document_fields in
  let form_field_names := map form_name form_fields in
  similarity_matrices <-
    _compute_similarity_matrices E M doc_field_names form_field_names ;;
  mappings <- mappings_from (config M) document_fields form_fields
                similarity_matrices 0 ;;
  Ok (_resolve_mapping_conflicts mappings).

(** ** The type validators

    Values are strings ([str(value)] of a string is the string); digits,
    letters and whitespace are the ASCII ones, so that [\d], [\D] and
    [\s] are those of Python on strings of ASCII characters only (Python's
    also match the other Unicode decimal digits and spaces). *)

(** The characters from [lo] to [hi], both included. *)
Definition ascii_range (lo hi : ascii) : list ascii :=
  map ascii_of_nat
      (seq (nat_of_ascii lo) (S (nat_of_ascii hi) - nat_of_ascii lo)).

Definition digit_chars : list ascii := ascii_range "0" "9".

Definition letter_chars : list ascii :=
  ascii_range "a" "z" ++ ascii_range "A" "Z".

Definition space_chars : list ascii :=
  ascii_range "009" "013" ++ ascii_range "028" "032".

(** A character class [[...]], [r+], [r?], [r{n}] and [r{n,m}]. *)
Definition Rclass (l : list ascii) : regex :=
  fold_right (fun c r => Ralt (Rchar c) r) Rnull l.

Definition Rplus (r : regex) : regex := Rcat r (Rstar r).

Definition Ropt (r : regex) : regex := Ralt Reps r.

Fixpoint Rrepeat (n : nat) (r : regex) : regex :=
  match n with
  | O => Reps
  | S n' => Rcat r (Rrepeat n' r)
  end.

Fixpoint Rupto (n : nat) (r : regex) : regex :=
  match n with
  | O => Reps
  | S n' => Ropt (Rcat r (Rupto n' r))
  end.

Definition Rbetween (n m : nat) (r : regex) : regex :=
  Rcat (Rrepeat n r) (Rupto (m - n) r).

(** A literal matched under [re.IGNORECASE]. *)
Definition upper_ascii (c : ascii) : ascii :=
  let n := nat_of_ascii c in
  if (97 <=? n)%nat && (n <=? 122)%nat then ascii_of_nat (n - 32) else c.

Fixpoint Rlit_ci (s : string) : regex :=
  match s with
  | EmptyString => Reps
  | String c s' =>
      Rcat (Ralt (Rchar (lower_ascii c)) (Rchar (upper_ascii c))) (Rlit_ci s')
  end.

(** Does the whole of [s] match [r]? *)
Fixpoint matches_all (r : regex) (s : string) : bool :=
  match s with
  | EmptyString => nullable r
  | String c s' => matches_all (deriv c r) s'
  end.

(** [s] without its last character, when that is a newline. *)
Fixpoint strip_final_newline (s : string) : option string :=
  match s with
  | EmptyString => None
  | String c EmptyString =>
      if Ascii.eqb c "010"%char then Some EmptyString else None
  | String c s' =>
      match strip_final_newline s' with
      | Some t => Some (String c t)
      | None => None
      end
  end.

(** [bool(re.match("^" + r + "$", s))]: [$] matches at the end of the
    string and also just before a newline that ends the string. *)
Definition re_match_anchored (r : regex) (s : string) : bool :=
  matches_all r s ||
  match strip_final_newline s with
  | Some t => matches_all r t
  | None => false
  end.

Definition email_local_chars : list ascii :=
  letter_chars ++ digit_chars ++ ["."; "_"; "%"; "+"; "-"]%char.

Definition email_domain_chars : list ascii :=
  letter_chars ++ digit_chars ++ ["."; "-"]%char.

Definition email_pattern : regex :=
  Rcat (Rplus (Rclass email_local_chars))
    (Rcat (Rchar "@")
       (Rcat (Rplus (Rclass email_domain_chars))
          (Rcat (Rchar ".")
             (Rcat (Rrepeat 2 (Rclass letter_chars))
                (Rstar (Rclass letter_chars)))))).

Definition _validate_email (value : string) : bool :=
  re_match_anchored email_pattern value.

(** [re.sub(r'\D', '', s)] on a string of ASCII characters: the digits
    kept are [0] to [9]. *)
Fixpoint digits_of (s : string) : string :=
  match s with
  | EmptyString => EmptyString
  | String c s' =>
      if existsb (Ascii.eqb c) digit_chars
      then String c (digits_of s') else digits_of s'
  end.

Definition _validate_phone (value : string) : bool :=
  let digits := digits_of value in
  existsb (Nat.eqb (String.length digits)) [10; 11; 12]%nat.

Definition date_separator : regex := Rclass ["/"; "-"; "."]%char.

Definition date_patterns : list regex :=
  let d := Rclass digit_chars in
  let months :=
    fold_right (fun m r => Ralt (Rlit_ci m) r) Rnull
      ["Jan"; "Feb"; "Mar"; "Apr"; "May"; "Jun";
       "Jul"; "Aug"; "Sep"; "Oct"; "Nov"; "Dec"] in
  [ Rcat (Rbetween 1 2 d)
      (Rcat date_separator
         (Rcat (Rbetween 1 2 d) (Rcat date_separator (Rbetween 2 4 d))));
    Rcat (Rrepeat 4 d)
      (Rcat date_separator
         (Rcat (Rbetween 1 2 d) (Rcat date_separator (Rbetween 1 2 d))));
    Rcat (Rbetween 1 2 d)
      (Rcat (Rplus (Rclass space_chars))
         (Rcat months (Rcat (Rplus (Rclass space_chars)) (Rrepeat 4 d)))) ].

Definition _validate_date (value : string) : bool :=
  existsb (fun pattern => re_match_anchored pattern value) date_patterns.

(** [s.replace(old, '')] for a one-character [old]. *)
Fixpoint remove_char (old : ascii) (s : string) : string :=
  match s with
  | EmptyString => EmptyString
  | String c s' =>
      if Ascii.eqb c old then remove_char old s'
      else String c (remove_char old s')
  end.

(** [^\$?[\d,]+\.?\d{0,2}$] without its anchors, with [\d] read on
    ASCII characters. *)
Definition currency_pattern : regex :=
  Rcat (Ropt (Rchar "$"))
    (Rcat (Rplus (Rclass (digit_chars ++ [","%char])))
       (Rcat (Ropt (Rchar "."))
          (Rbetween 0 2 (Rclass digit_chars)))).

Definition _validate_currency (value : string) : bool :=
  re_match_anchored currency_pattern (remove_char " " value).

(** The ASCII strings that [float] accepts: optional whitespace (the
    characters 9 to 13 and the space) around an optionally signed decimal
    number (digits that may be separated by single underscores, an
    optional fraction, an optional exponent), infinity or nan. *)
Definition float_space_chars : list ascii :=
  ascii_range "009" "013" ++ [" "%char].

Definition float_pattern : regex :=
  let ws := Rstar (Rclass float_space_chars) in
  let sign := Ropt (Rclass ["+"; "-"]%char) in
  let d := Rclass digit_chars in
  let digitpart := Rcat d (Rstar (Rcat (Ropt (Rchar "_")) d)) in
  let number :=
    Ralt (Rcat (Ropt digitpart) (Rcat (Rchar ".") digitpart))
         (Rcat digitpart (Ropt (Rchar "."))) in
  let exponent := Rcat (Rclass ["e"; "E"]%char) (Rcat sign digitpart) in
  let value :=
    Ralt (Rcat number (Ropt exponent))
         (Ralt (Rlit_ci "infinity") (Ralt (Rlit_ci "inf") (Rlit_ci "nan"))) in
  Rcat ws (Rcat sign (Rcat value ws)).

(** [float(s)] returns, rather than raising [ValueError]. *)
Definition float_parses (s : string) : bool := matches_all float_pattern s.

Definition _validate_number (value : string) : bool :=
  float_parses (remove_char "," value).

Definition validate_data_types (mapping : FieldMapping) (value : string)
  : bool :=
  match field_type mapping with
  | EMAIL => _validate_email value
  | PHONE => _validate_phone value
  | DATE => _validate_date value
  | NUMBER => _validate_number value
  | CURRENCY => _validate_currency value
  | _ => true
  end.

(** * Auxiliary notions used in the statements *)

Definition same_target (t : string) (m : FieldMapping) : bool :=
  String.eqb (target_field m) t.

(** What the grouping loop maintains: one key per target seen so far, the
    group under a key being the mappings with that target, in input order. *)
Record groups_inv (ms : list FieldMapping) (gs : Dict Group) : Prop := {
  gi_nodup : NoDup (dict_keys gs);
  gi_group : forall t g, In (t, g) gs ->
                         filter (same_target t) ms = fst g :: snd g;
  gi_cover : forall m, In m ms -> In (target_field m) (dict_keys gs)
}.


(** The three similarity providers and their dictionary keys. *)
Inductive Provider : Type := Lexical | Semantic | RuleBased.

Definition providers : list Provider := [Lexical; Semantic; RuleBased].

Definition provider_key (p : Provider) : string :=
  match p with
  | Lexical => "fuzzy"
  | Semantic => "semantic"
  | RuleBased => "rule_based"
  end.

Definition provider_weight (cfg : Config) (p : Provider) : Q :=
  match p with
  | Lexical => get_default (fuzzy_ratio_weight cfg) (3 # 10)
  | Semantic => get_default (semantic_weight cfg) (4 # 10)
  | RuleBased => get_default (rule_weight cfg) (3 # 10)
  end.

Definition provider_tag (p : Provider) : MatchingStrategy :=
  match p with
  | Lexical => FUZZY
  | Semantic => SEMANTIC
  | RuleBased => RULE_BASED
  end.

(** A provider is active when its matrix is in the dictionary. *)
Definition active (sm : Dict Matrix) (p : Provider) : bool :=
  dict_mem sm (provider_key p).

(** [matrix_p[i][j]] of an active provider, [0] for an inactive one. *)
Definition raw_entry (sm : Dict Matrix) (p : Provider) (i j : nat) : Q :=
  match dict_get sm (provider_key p) with
  | Some m => match matrix_get m i j with Ok v => v | Raised _ => 0 end
  | None => 0
  end.

Definition sumQ (l : list Q) : Q := fold_right Qplus 0 l.

(** [sum of w_p * matrix_p[i][j]] and [sum of w_p] over the active
    providers. *)
Definition weighted_sum (cfg : Config) (sm : Dict Matrix) (i j : nat) : Q :=
  sumQ (map (fun p => if active sm p
                      then provider_weight cfg p * raw_entry sm p i j else 0)
            providers).

Definition weight_sum (cfg : Config) (sm : Dict Matrix) : Q :=
  sumQ (map (fun p => if active sm p then provider_weight cfg p else 0)
            providers).

(** Every active provider has an entry at [(i, j)]. *)
Definition entries_defined (sm : Dict Matrix) (i j : nat) : Prop :=
  forall p m, dict_get sm (provider_key p) = Some m ->
              exists v, matrix_get m i j = Ok v.

Definition clamp01 (x : Q) : Q := Qmax 0 (Qmin x 1).

(** The fused confidence as the specification words it: the weighted mean
    of the active entries plus a tenth of the type bonus, clamped to
    [[0, 1]]; [0] when no provider is active. *)
Definition spec_confidence (cfg : Config) (doc_field : DocumentField)
    (form_field : FormField) (sm : Dict Matrix) (i j : nat) : Q :=
  if existsb (active sm) providers
  then clamp01 (weighted_sum cfg sm i j / weight_sum cfg sm
                + (1 # 10) * _calculate_type_compatibility_bonus doc_field form_field)
  else 0.

(** A mapping that [_find_mapping_candidates] may emit for [doc_field] at
    row [i]: it pairs the document field with some form field, carries the
    fused confidence of the pair, clears the similarity floor, and records
    the strategy computed for the pair. *)
Definition is_candidate (cfg : Config) (doc_field : DocumentField)
    (form_fields : list FormField) (sm : Dict Matrix) (i j0 : nat)
    (c : FieldMapping) : Prop :=
  exists k form_field threshold,
    nth_error form_fields k = Some form_field /\
    source_field c = doc_name doc_field /\
    target_field c = form_name form_field /\
    _calculate_confidence_score cfg doc_field form_field sm i (j0 + k)
      = Ok (confidence_score c) /\
    similarity_threshold cfg = Some threshold /\
    threshold <= confidence_score c /\
    _determine_matching_strategy sm i (j0 + k) = Ok (matching_strategy c).


(** What one document field may contribute to the list that
    [map_fields] hands to the resolver: a candidate of the field that
    clears the confidence floor and that no other candidate of the field
    outscores. *)
Definition is_forwarded (cfg : Config) (form_fields : list FormField)
    (sm : Dict Matrix) (i : nat) (doc_field : DocumentField)
    (m : FieldMapping) : Prop :=
  is_candidate cfg doc_field form_fields sm i 0 m /\
  (exists threshold,
     confidence_threshold cfg = Some threshold /\
     threshold <= confidence_score m) /\
  (exists candidates,
     _find_mapping_candidates cfg doc_field form_fields sm i = Ok candidates /\
     In m candidates /\
     Forall (fun c => confidence_score c <= confidence_score m) candidates).

(** Configuration and mapper updates used to vary one option. *)
Definition set_similarity_threshold (c : Config) (v : Q) : Config := {|
  similarity_threshold := Some v;
  confidence_threshold := confidence_threshold c;
  enable_semantic_matching := enable_semantic_matching c;
  enable_fuzzy_matching := enable_fuzzy_matching c;
  enable_rule_based := enable_rule_based c;
  fuzzy_ratio_weight := fuzzy_ratio_weight c;
  semantic_weight := semantic_weight c;
  rule_weight := rule_weight c;
  bert_model_name := bert_model_name c;
  spacy_model := spacy_model c;
  max_suggestions := max_suggestions c
|}.

Definition set_confidence_threshold (c : Config) (v : Q) : Config := {|
  similarity_threshold := similarity_threshold c;
  confidence_threshold := Some v;
  enable_semantic_matching := enable_semantic_matching c;
  enable_fuzzy_matching := enable_fuzzy_matching c;
  enable_rule_based := enable_rule_based c;
  fuzzy_ratio_weight := fuzzy_ratio_weight c;
  semantic_weight := semantic_weight c;
  rule_weight := rule_weight c;
  bert_model_name := bert_model_name c;
  spacy_model := spacy_model c;
  max_suggestions := max_suggestions c
|}.

Definition with_config (M : Mapper) (c : Config) : Mapper := {|
  config := c;
  tokenizer := tokenizer M;
  bert_model := bert_model M;
  tfidf_vectorizer := tfidf_vectorizer M;
  spacy_nlp := spacy_nlp M
|}.

(** ** Concrete inputs *)

Definition document_field (name : string) (t : FieldType) : DocumentField := {|
  doc_name := name; doc_value := ""; doc_type := t; doc_context := "";
  doc_position := (0, 0)%Z
|}.

Definition form_field (name : string) (t : FieldType) : FormField := {|
  form_name := name; form_type := t; form_required := false;
  form_options := []; form_validation_pattern := "";
  form_position := (0, 0)%Z
|}.

(** The configuration of the test suite's [mapper] fixture. *)
Definition fixture_config : Config := {|
  similarity_threshold := Some (6 # 10);
  confidence_threshold := Some (5 # 10);
  enable_semantic_matching := Some false;
  enable_fuzzy_matching := Some true;
  enable_rule_based := Some true;
  fuzzy_ratio_weight := None; semantic_weight := None; rule_weight := None;
  bert_model_name := None; spacy_model := None; max_suggestions := None
|}.

(** A stand-in for rapidfuzz that is right on equal strings ([100]) and
    answers [0] elsewhere. *)
Definition equal_or_nothing (a b : string) : Q :=
  if String.eqb a b then 100 else 0.

(** An environment without the NLP models: every loader fails. *)
Definition offline : External := {|
  fuzz_ratio := equal_or_nothing;
  fuzz_partial_ratio := equal_or_nothing;
  fuzz_token_sort_ratio := equal_or_nothing;
  AutoTokenizer_from_pretrained := fun _ => Raised (LibraryError "offline");
  AutoModel_from_pretrained := fun _ => Raised (LibraryError "offline");
  spacy_load := fun _ => Raised (LibraryError "offline");
  bert_cls_embedding := fun _ _ _ => Raised (LibraryError "offline");
  tfidf_fit_transform := fun _ => Raised (ValueError "empty vocabulary");
  cosine_similarity := fun _ _ => Raised (ValueError "expected 2D array")
|}.


(** Matrices of a run in which only the lexical provider is active. *)
Definition lexical_only : Dict Matrix := [("fuzzy", [[1 # 2]])].

(** Matrices of a pair of identical names with the lexical and the
    rule-based provider active: both entries are [1]. *)
Definition identical_names : Dict Matrix :=
  [("fuzzy", [[1]]); ("rule_based", [[1]])].


(** The dictionaries that [_compute_similarity_matrices] can build: no key
    twice, every key that of a provider. *)
Definition provider_matrices (sm : Dict Matrix) : Prop :=
  NoDup (dict_keys sm) /\
  forall k, In k (dict_keys sm) -> exists p, k = provider_key p.

(** The dominant provider as the specification words it: the active
    provider with the largest raw entry, ties going to the first in the
    priority order rule-based, semantic, lexical. *)
Definition priority_order : list Provider := [RuleBased; Semantic; Lexical].

Definition spec_dominant_provider (sm : Dict Matrix) (i j : nat)
  : option Provider :=
  match filter (active sm) priority_order with
  | [] => None
  | p :: ps => Some (py_max_by (fun q => raw_entry sm q i j) p ps)
  end.

(** The test suite's other fixture, with both floors at [0.3]. *)
Definition edge_case_config : Config := {|
  similarity_threshold := Some (3 # 10);
  confidence_threshold := Some (3 # 10);
  enable_semantic_matching := Some false;
  enable_fuzzy_matching := Some true;
  enable_rule_based := Some true;
  fuzzy_ratio_weight := None; semantic_weight := None; rule_weight := None;
  bert_model_name := None; spacy_model := None; max_suggestions := None
|}.


(** Matrices of a near match: the lexical stand-in sees nothing, the rule
    table pairs the names. *)
Definition near_match : Dict Matrix :=
  [("fuzzy", [[0]]); ("rule_based", [[9 # 10]])].

(** A valid configuration as the specification words it: no negative
    weight, both thresholds within [[0, 1]]. *)
Definition in_unit_interval (o : option Q) : bool :=
  match o with
  | Some v => Qle_bool 0 v && Qle_bool v 1
  | None => true
  end.

Definition non_negative (o : option Q) : bool :=
  match o with
  | Some v => Qle_bool 0 v
  | None => true
  end.

Definition valid_config (c : Config) : bool :=
  in_unit_interval (similarity_threshold c) &&
  in_unit_interval (confidence_threshold c) &&
  non_negative (fuzzy_ratio_weight c) &&
  non_negative (semantic_weight c) &&
  non_negative (rule_weight c).

(** A configuration with a negative weight and a threshold above [1]. *)
Definition misconfigured : Config := {|
  similarity_threshold := Some 2;
  confidence_threshold := Some (5 # 10);
  enable_semantic_matching := Some false;
  enable_fuzzy_matching := Some true;
  enable_rule_based := Some true;
  fuzzy_ratio_weight := None; semantic_weight := None;
  rule_weight := Some (-1 # 1);
  bert_model_name := None; spacy_model := None; max_suggestions := None
|}.

(** The configuration that [__init__] starts from. *)
Definition chosen_config (cfg : option Config) : Config :=
  match cfg with
  | Some c => if config_is_empty c then _get_default_config else c
  | None => _get_default_config
  end.

(** An environment in which the models load, the embedding call fails, and
    the vectorizer, like scikit-learn's with [stop_words='english'], rejects
    a corpus made of stop words only. *)
Definition is_stop_word (s : string) : bool :=
  mem_string s ["the"; "a"; "an"; "of"].

Definition failing_backend : External := {|
  fuzz_ratio := equal_or_nothing;
  fuzz_partial_ratio := equal_or_nothing;
  fuzz_token_sort_ratio := equal_or_nothing;
  AutoTokenizer_from_pretrained := fun name => Ok name;
  AutoModel_from_pretrained := fun name => Ok name;
  spacy_load := fun name => Ok name;
  bert_cls_embedding := fun _ _ _ => Raised (LibraryError "backend error");
  tfidf_fit_transform := fun names =>
    if forallb is_stop_word names
    then Raised (ValueError "empty vocabulary")
    else Ok (map (fun _ => [1]) names);
  cosine_similarity := fun X Y => Ok (map (fun _ => map (fun _ => 1) Y) X)
|}.

(** ** Notions used by the further properties *)

(** A string of ASCII characters: on such strings [lower], [split] and the
    character classes of the validators are exactly Python's. *)
Definition ascii_only (s : string) : Prop :=
  forallb (fun c => (nat_of_ascii c <? 128)%nat) (list_ascii_of_string s)
  = true.

(** A list of mappings in non-increasing order of confidence. *)
Definition by_confidence (a b : FieldMapping) : Prop :=
  confidence_score b <= confidence_score a.

Definition desc_sorted (l : list FieldMapping) : Prop :=
  StronglySorted by_confidence l.

(** The distinct elements of a list, each at its first occurrence. *)
Definition first_occurrences (l : list string) : list string :=
  fold_left (fun acc x => if mem_string x acc then acc else acc ++ [x]) l [].

(** The condition under which [_compute_similarity_matrices] skips the
    semantic provider. *)
Definition semantic_inactive (M : Mapper) : Prop :=
  truthy (enable_semantic_matching (config M)) && is_some (bert_model M)
  = false.

(** Every matrix of the dictionary has an entry at each position of an
    [n] by [m] grid. *)
Definition shaped (n m : nat) (sm : Dict Matrix) : Prop :=
  forall k mat, In (k, mat) sm ->
  forall i j, (i < n)%nat -> (j < m)%nat -> exists v, matrix_get mat i j = Ok v.

(** The record that [_find_mapping_candidates] builds for the pair of
    [doc_field], at row [i], and [form_field], at column [j]. *)
Definition built_from (cfg : Config) (doc_field : DocumentField)
    (form_field : FormField) (sm : Dict Matrix) (i j : nat)
    (c : FieldMapping) : Prop :=
  source_field c = doc_name doc_field /\
  target_field c = form_name form_field /\
  _calculate_confidence_score cfg doc_field form_field sm i j
    = Ok (confidence_score c) /\
  field_type c = _infer_field_type doc_field form_field /\
  _determine_matching_strategy sm i j = Ok (matching_strategy c) /\
  exists breakdown,
    _get_similarity_breakdown sm i j = Ok breakdown /\
    metadata c = Some
      {| doc_field_type := FieldType_value (doc_type doc_field);
         form_field_type := FieldType_value (form_type form_field);
         similarity_breakdown := breakdown |}.

(** The strings that match a regular expression. *)
Inductive lang : regex -> string -> Prop :=
| lang_eps : lang Reps EmptyString
| lang_char c : lang (Rchar c) (String c EmptyString)
| lang_dot c : c <> "010"%char -> lang Rdot (String c EmptyString)
| lang_alt_l r1 r2 s : lang r1 s -> lang (Ralt r1 r2) s
| lang_alt_r r1 r2 s : lang r2 s -> lang (Ralt r1 r2) s
| lang_cat r1 r2 s1 s2 :
    lang r1 s1 -> lang r2 s2 -> lang (Rcat r1 r2) (s1 ++ s2)%string
| lang_star_nil r : lang (Rstar r) EmptyString
| lang_star_cons r s1 s2 :
    lang r s1 -> lang (Rstar r) s2 -> lang (Rstar r) (s1 ++ s2)%string.

(** Every character of [s] belongs to [l]. *)
Definition all_chars (l : list ascii) (s : string) : Prop :=
  Forall (fun c => In c l) (list_ascii_of_string s).

(** The shape of an accepted e-mail address: [local@domain.tld]. *)
Definition email_shape (s : string) : Prop :=
  exists local domain tld,
    s = (local ++ "@" ++ domain ++ "." ++ tld)%string /\
    local <> EmptyString /\ all_chars email_local_chars local /\
    domain <> EmptyString /\ all_chars email_domain_chars domain /\
    (2 <= String.length tld)%nat /\ all_chars letter_chars tld.

(** The shape of an accepted amount: an optional dollar sign, digits and
    commas, an optional point, at most two digits. *)
Definition currency_shape (s : string) : Prop :=
  exists dollar body point cents,
    s = (dollar ++ body ++ point ++ cents)%string /\
    (dollar = EmptyString \/ dollar = "$") /\
    body <> EmptyString /\ all_chars (digit_chars ++ [","%char]) body /\
    (point = EmptyString \/ point = ".") /\
    (String.length cents <= 2)%nat /\ all_chars digit_chars cents.

(** [s], or [s] followed by one newline. *)
Definition up_to_final_newline (shape : string -> Prop) (s : string) : Prop :=
  shape s \/
  exists t, s = (t ++ String "010"%char EmptyString)%string /\ shape t.

(** * Verification *)

(** ** Comparisons *)

Lemma Qltb_true (a b : Q) : Qltb a b = true <-> a < b.
Proof.
  unfold Qltb. rewrite negb_true_iff. split; intro H.
  - apply Qnot_le_lt. intro Hle. apply Qle_bool_iff in Hle. congruence.
  - destruct (Qle_bool b a) eqn:Hb; [|reflexivity].
    apply Qle_bool_iff in Hb. exfalso. exact (Qlt_not_le _ _ H Hb).
Qed.

Lemma Qltb_false (a b : Q) : Qltb a b = false <-> b <= a.
Proof.
  unfold Qltb. rewrite negb_false_iff. apply Qle_bool_iff.
Qed.

Lemma Qgeb_true (a b : Q) : Qgeb a b = true <-> b <= a.
Proof. unfold Qgeb. apply Qle_bool_iff. Qed.

Lemma py_min_le_r (a b : Q) : py_min a b <= b.
Proof.
  unfold py_min. destruct (Qltb b a) eqn:H.
  - apply Qle_refl.
  - apply Qltb_false in H. exact H.
Qed.

Lemma py_min_ge (a b c : Q) : c <= a -> c <= b -> c <= py_min a b.
Proof. intros Ha Hb. unfold py_min. destruct (Qltb b a); assumption. Qed.

(** ** [max] with a key *)

Section PyMaxBy.
Variable A : Type.
Variable key : A -> Q.

Lemma py_max_by_cons (x y : A) (rest : list A) :
  py_max_by key x (y :: rest) =
  py_max_by key (if Qltb (key x) (key y) then y else x) rest.
Proof. reflexivity. Qed.

Lemma py_max_by_split_gen (rest pre post : list A) (x : A) :
  Forall (fun y => key y < key x) pre ->
  Forall (fun y => key y <= key x) post ->
  exists g1 g2,
    pre ++ x :: post ++ rest = g1 ++ py_max_by key x rest :: g2 /\
    Forall (fun y => key y < key (py_max_by key x rest)) g1 /\
    Forall (fun y => key y <= key (py_max_by key x rest)) g2.
Proof.
  revert pre post x.
  induction rest as [|y rest IH]; intros pre post x Hpre Hpost.
  - exists pre, post. rewrite app_nil_r. auto.
  - rewrite py_max_by_cons.
    destruct (Qltb (key x) (key y)) eqn:Hxy.
    + apply Qltb_true in Hxy.
      destruct (IH (pre ++ x :: post) [] y) as (g1 & g2 & Heq & H1 & H2).
      * apply Forall_app. split.
        -- eapply Forall_impl; [|exact Hpre]. simpl. intros a Ha.
           eapply Qlt_trans; eassumption.
        -- constructor; [exact Hxy|].
           eapply Forall_impl; [|exact Hpost]. simpl. intros a Ha.
           eapply Qle_lt_trans; eassumption.
      * constructor.
      * exists g1, g2. split; [|auto].
        rewrite <- Heq. simpl. rewrite <- app_assoc. reflexivity.
    + apply Qltb_false in Hxy.
      destruct (IH pre (post ++ [y]) x) as (g1 & g2 & Heq & H1 & H2).
      * exact Hpre.
      * apply Forall_app. split; [exact Hpost|]. constructor; auto.
      * exists g1, g2. split; [|auto].
        rewrite <- Heq. rewrite <- app_assoc. reflexivity.
Qed.

(** The element that [max] returns splits the list: strictly smaller keys
    before it, no larger key after it. *)
Lemma py_max_by_split (x : A) (rest : list A) :
  exists g1 g2,
    x :: rest = g1 ++ py_max_by key x rest :: g2 /\
    Forall (fun y => key y < key (py_max_by key x rest)) g1 /\
    Forall (fun y => key y <= key (py_max_by key x rest)) g2.
Proof.
  destruct (@py_max_by_split_gen rest [] [] x) as (g1 & g2 & H & H1 & H2);
    try constructor.
  exists g1, g2. auto.
Qed.

Lemma py_max_by_ge (x : A) (rest : list A) :
  Forall (fun y => key y <= key (py_max_by key x rest)) (x :: rest).
Proof.
  destruct (py_max_by_split x rest) as (g1 & g2 & H & H1 & H2).
  rewrite H. apply Forall_app. split.
  - eapply Forall_impl; [|exact H1]. intros a Ha. apply Qlt_le_weak. exact Ha.
  - constructor; [apply Qle_refl|exact H2].
Qed.

Lemma py_max_by_In (x : A) (rest : list A) :
  In (py_max_by key x rest) (x :: rest).
Proof.
  destruct (py_max_by_split x rest) as (g1 & g2 & H & _).
  rewrite H. apply in_elt.
Qed.
End PyMaxBy.

(** ** Dictionaries *)

Section DictFacts.
Variable V : Type.
Implicit Types (d : Dict V) (k : string) (v : V).

Lemma dict_get_None d k : dict_get d k = None <-> ~ In k (dict_keys d).
Proof.
  induction d as [|[k' v'] d IH]; simpl.
  - tauto.
  - destruct (String.eqb k' k) eqn:Hk.
    + apply String.eqb_eq in Hk. split; [discriminate|tauto].
    + apply String.eqb_neq in Hk. rewrite IH. tauto.
Qed.

Lemma dict_get_In d k v : dict_get d k = Some v -> In (k, v) d.
Proof.
  induction d as [|[k' v'] d IH]; simpl; [discriminate|].
  destruct (String.eqb k' k) eqn:Hk.
  - apply String.eqb_eq in Hk. intros [= ->]. subst. auto.
  - auto.
Qed.

Lemma In_dict_get d k v :
  NoDup (dict_keys d) -> In (k, v) d -> dict_get d k = Some v.
Proof.
  induction d as [|[k' v'] d IH]; simpl; [tauto|].
  intros Hnd [Heq|Hin].
  - inversion Heq; subst. rewrite String.eqb_refl. reflexivity.
  - inversion Hnd as [|? ? Hnotin Hnd']; subst.
    destruct (String.eqb k' k) eqn:Hk.
    + apply String.eqb_eq in Hk. subst. exfalso. apply Hnotin.
      change k with (fst (k, v)). apply in_map. exact Hin.
    + auto.
Qed.

Lemma dict_set_new d k v :
  ~ In k (dict_keys d) -> dict_set d k v = d ++ [(k, v)].
Proof.
  induction d as [|[k' v'] d IH]; simpl; [reflexivity|].
  intros Hn. destruct (String.eqb k' k) eqn:Hk.
  - apply String.eqb_eq in Hk. tauto.
  - rewrite IH; tauto.
Qed.

Lemma dict_set_keys d k v :
  In k (dict_keys d) -> dict_keys (dict_set d k v) = dict_keys d.
Proof.
  induction d as [|[k' v'] d IH]; simpl; [tauto|].
  intros Hin. destruct (String.eqb k' k) eqn:Hk; simpl.
  - reflexivity.
  - apply String.eqb_neq in Hk. f_equal. apply IH. tauto.
Qed.

Lemma dict_set_In d k v k1 v1 :
  NoDup (dict_keys d) ->
  In (k1, v1) (dict_set d k v) ->
  (k1 = k /\ v1 = v) \/ (k1 <> k /\ In (k1, v1) d).
Proof.
  induction d as [|[k' v'] d IH]; simpl.
  - intros _ [[= <- <-]|[]]. auto.
  - intros Hnd. inversion Hnd as [|? ? Hnotin Hnd']; subst.
    destruct (String.eqb k' k) eqn:Hk.
    + apply String.eqb_eq in Hk. subst k'.
      intros [[= <- <-]|Hin]; [auto|].
      right. split; [|auto].
      intros ->. apply Hnotin.
      change k with (fst (k, v1)). apply in_map. exact Hin.
    + apply String.eqb_neq in Hk.
      intros [[= <- <-]|Hin]; [auto|].
      destruct (IH Hnd' Hin) as [?|[? ?]]; auto.
Qed.

Lemma dict_set_In_old d k v k1 v1 :
  k1 <> k -> In (k1, v1) d -> In (k1, v1) (dict_set d k v).
Proof.
  intros Hne. induction d as [|[k' v'] d IH]; simpl; [tauto|].
  destruct (String.eqb k' k) eqn:Hk.
  - apply String.eqb_eq in Hk. subst k'.
    intros [[= <- <-]|Hin]; [congruence|right; exact Hin].
  - intros [Heq|Hin]; [left; exact Heq|right; auto].
Qed.

Lemma dict_set_In_new d k v : In (k, v) (dict_set d k v).
Proof.
  induction d as [|[k' v'] d IH]; simpl; [auto|].
  destruct (String.eqb k' k) eqn:Hk.
  - apply String.eqb_eq in Hk. subst. left. reflexivity.
  - right. exact IH.
Qed.

Lemma dict_set_keys_incl d k v k1 :
  In k1 (dict_keys (dict_set d k v)) <-> k1 = k \/ In k1 (dict_keys d).
Proof.
  induction d as [|[k' v'] d IH]; simpl.
  - intuition.
  - destruct (String.eqb k' k) eqn:Hk; simpl.
    + apply String.eqb_eq in Hk. subst. intuition.
    + rewrite IH. intuition.
Qed.

Lemma dict_set_NoDup d k v :
  NoDup (dict_keys d) -> NoDup (dict_keys (dict_set d k v)).
Proof.
  induction d as [|[k' v'] d IH]; simpl.
  - intros _. constructor; [tauto|constructor].
  - intros Hnd. inversion Hnd as [|? ? Hnotin Hnd']; subst.
    destruct (String.eqb k' k) eqn:Hk; simpl.
    + constructor; assumption.
    + apply String.eqb_neq in Hk. constructor; [|auto].
      intros Hin. apply dict_set_keys_incl in Hin. intuition.
Qed.
End DictFacts.

(** ** The conflict resolver *)

Lemma filter_none {A} (f : A -> bool) (l : list A) :
  (forall x, In x l -> f x = false) -> filter f l = [].
Proof.
  induction l as [|x l IH]; simpl; intros H; [reflexivity|].
  rewrite (H x (or_introl eq_refl)). apply IH. auto.
Qed.

Lemma filter_split {A} (f : A -> bool) (l g1 g2 : list A) (b : A) :
  filter f l = g1 ++ b :: g2 ->
  exists l1 l2, l = l1 ++ b :: l2 /\ filter f l1 = g1 /\ filter f l2 = g2.
Proof.
  revert g1. induction l as [|x l IH]; simpl; intros g1 H.
  - destruct g1; discriminate.
  - destruct (f x) eqn:Hx.
    + destruct g1 as [|y g1]; simpl in H.
      * inversion H; subst. exists [], l. simpl. auto.
      * inversion H; subst.
        destruct (IH _ H2) as (l1 & l2 & -> & H3 & H4).
        exists (y :: l1), l2. simpl. rewrite Hx, H3. auto.
    + destruct (IH _ H) as (l1 & l2 & -> & H3 & H4).
      exists (x :: l1), l2. simpl. rewrite Hx. auto.
Qed.

Lemma NoDup_snoc {A} (l : list A) (x : A) :
  NoDup (l ++ [x]) <-> NoDup l /\ ~ In x l.
Proof.
  induction l as [|y l IH]; simpl.
  - split; [intros _; split; [constructor|tauto]|].
    intros _. constructor; [tauto|constructor].
  - rewrite !NoDup_cons_iff, IH, in_app_iff. simpl. intuition congruence.
Qed.

Lemma groups_inv_step (ms : list FieldMapping) (gs : Dict Group)
    (m : FieldMapping) :
  groups_inv ms gs -> groups_inv (ms ++ [m]) (group_add gs m).
Proof.
  intros [Hnd Hgrp Hcov]. unfold group_add.
  destruct (dict_get gs (target_field m)) as [[first others]|] eqn:Hget.
  - (* the target already has a group *)
    pose proof (dict_get_In _ _ Hget) as Hin.
    assert (Hkey : In (target_field m) (dict_keys gs)).
    { change (target_field m) with (fst (target_field m, (first, others))).
      apply in_map. exact Hin. }
    split.
    + rewrite dict_set_keys by exact Hkey. exact Hnd.
    + intros t g Hg. rewrite filter_app. simpl.
      apply dict_set_In in Hg; [|exact Hnd].
      destruct Hg as [[-> ->]|[Hne Hold]].
      * unfold same_target at 2. rewrite String.eqb_refl.
        rewrite (Hgrp _ _ Hin). reflexivity.
      * unfold same_target at 2.
        destruct (String.eqb (target_field m) t) eqn:Ht.
        -- apply String.eqb_eq in Ht. congruence.
        -- rewrite app_nil_r. apply Hgrp. exact Hold.
    + intros x Hx. rewrite dict_set_keys by exact Hkey.
      apply in_app_or in Hx. destruct Hx as [Hx|[<-|[]]]; auto.
  - (* a new target *)
    pose proof (proj1 (dict_get_None _ _) Hget) as Hnew.
    rewrite dict_set_new by exact Hnew.
    split.
    + unfold dict_keys. rewrite map_app. simpl.
      apply NoDup_snoc. split; assumption.
    + intros t g Hg. rewrite filter_app. simpl.
      apply in_app_or in Hg. destruct Hg as [Hg|[[= <- <-]|[]]].
      * unfold same_target at 2.
        destruct (String.eqb (target_field m) t) eqn:Ht.
        -- apply String.eqb_eq in Ht. subst t. exfalso. apply Hnew.
           change (target_field m) with (fst (target_field m, g)).
           apply in_map. exact Hg.
        -- rewrite app_nil_r. apply Hgrp. exact Hg.
      * unfold same_target at 2. rewrite String.eqb_refl. simpl.
        rewrite filter_none; [reflexivity|].
        intros x Hx. unfold same_target.
        destruct (String.eqb (target_field x) (target_field m)) eqn:Ht;
          [|reflexivity].
        apply String.eqb_eq in Ht. exfalso. apply Hnew.
        rewrite <- Ht. apply Hcov. exact Hx.
    + intros x Hx. unfold dict_keys. rewrite map_app. apply in_or_app.
      apply in_app_or in Hx. destruct Hx as [Hx|[<-|[]]].
      * left. apply Hcov. exact Hx.
      * right. simpl. auto.
Qed.

Lemma target_groups_inv (ms : list FieldMapping) :
  groups_inv ms (fold_left group_add ms []).
Proof.
  induction ms as [|m ms IH] using rev_ind.
  - split; simpl; [constructor|tauto|tauto].
  - rewrite fold_left_app. simpl. apply groups_inv_step. exact IH.
Qed.

Lemma resolve_group_In (g : Group) : In (resolve_group g) (fst g :: snd g).
Proof.
  unfold resolve_group. destruct g as [h [|y tl]]; simpl.
  - auto.
  - apply (py_max_by_In confidence_score h (y :: tl)).
Qed.

Lemma resolve_group_split (g : Group) :
  exists g1 g2,
    fst g :: snd g = g1 ++ resolve_group g :: g2 /\
    Forall (fun y => confidence_score y < confidence_score (resolve_group g)) g1 /\
    Forall (fun y => confidence_score y <= confidence_score (resolve_group g)) g2.
Proof.
  unfold resolve_group. destruct g as [h [|y tl]]; simpl.
  - exists [], []. repeat split; constructor.
  - apply (py_max_by_split confidence_score h (y :: tl)).
Qed.

Lemma same_target_filter_In (t : string) (ms : list FieldMapping) (m : FieldMapping) :
  In m (filter (same_target t) ms) -> In m ms /\ target_field m = t.
Proof.
  intros H. apply filter_In in H. destruct H as [H1 H2].
  split; [exact H1|]. apply String.eqb_eq. exact H2.
Qed.

Lemma resolve_targets (ms : list FieldMapping) :
  map target_field (_resolve_mapping_conflicts ms) =
  dict_keys (fold_left group_add ms []).
Proof.
  unfold _resolve_mapping_conflicts, dict_keys. rewrite map_map.
  apply map_ext_in. intros [t g] Hin. simpl.
  pose proof (gi_group (target_groups_inv ms) _ _ Hin) as Hg.
  pose proof (resolve_group_In g) as Hr. rewrite <- Hg in Hr.
  apply same_target_filter_In in Hr. tauto.
Qed.

Lemma resolve_targets_NoDup (ms : list FieldMapping) :
  NoDup (map target_field (_resolve_mapping_conflicts ms)).
Proof. rewrite resolve_targets. apply (gi_nodup (target_groups_inv ms)). Qed.

Lemma resolve_covers (ms : list FieldMapping) (m : FieldMapping) :
  In m ms ->
  In (target_field m) (map target_field (_resolve_mapping_conflicts ms)).
Proof. rewrite resolve_targets. apply (gi_cover (target_groups_inv ms)). Qed.

Lemma resolve_first_best (ms : list FieldMapping) (b : FieldMapping) :
  In b (_resolve_mapping_conflicts ms) ->
  exists l1 l2,
    ms = l1 ++ b :: l2 /\
    (forall x, In x l1 -> target_field x = target_field b ->
               confidence_score x < confidence_score b) /\
    (forall x, In x l2 -> target_field x = target_field b ->
               confidence_score x <= confidence_score b).
Proof.
  unfold _resolve_mapping_conflicts. intros Hb.
  apply in_map_iff in Hb. destruct Hb as ([t g] & <- & Hin). simpl.
  pose proof (gi_group (target_groups_inv ms) _ _ Hin) as Hg.
  destruct (resolve_group_split g) as (g1 & g2 & Hsplit & H1 & H2).
  assert (Ht : target_field (resolve_group g) = t).
  { pose proof (resolve_group_In g) as Hr. rewrite <- Hg in Hr.
    apply same_target_filter_In in Hr. tauto. }
  rewrite Hsplit in Hg.
  destruct (filter_split _ _ _ _ _ Hg) as (l1 & l2 & Hms & Hf1 & Hf2).
  exists l1, l2. split; [exact Hms|]. rewrite Ht. split; intros x Hx Hxt.
  - rewrite Forall_forall in H1. apply H1. rewrite <- Hf1.
    apply filter_In. split; [exact Hx|]. apply String.eqb_eq. exact Hxt.
  - rewrite Forall_forall in H2. apply H2. rewrite <- Hf2.
    apply filter_In. split; [exact Hx|]. apply String.eqb_eq. exact Hxt.
Qed.

Lemma resolve_incl (ms : list FieldMapping) :
  incl (_resolve_mapping_conflicts ms) ms.
Proof.
  intros b Hb. destruct (resolve_first_best _ _ Hb) as (l1 & l2 & -> & _).
  apply in_elt.
Qed.

Lemma target_groups_distinct (ms : list FieldMapping) :
  NoDup (map target_field ms) ->
  fold_left group_add ms [] = map (fun m => (target_field m, (m, []))) ms.
Proof.
  induction ms as [|m ms IH] using rev_ind; intros Hnd; [reflexivity|].
  rewrite map_app in Hnd. simpl in Hnd. apply NoDup_snoc in Hnd.
  destruct Hnd as [Hnd Hnew].
  rewrite fold_left_app. simpl. rewrite (IH Hnd).
  unfold group_add.
  destruct (dict_get _ (target_field m)) eqn:Hget.
  - exfalso. apply dict_get_In in Hget.
    apply Hnew. apply (in_map fst) in Hget. rewrite map_map in Hget.
    exact Hget.
  - rewrite dict_set_new.
    + rewrite map_app. reflexivity.
    + unfold dict_keys. rewrite map_map. exact Hnew.
Qed.

Lemma resolve_distinct (ms : list FieldMapping) :
  NoDup (map target_field ms) -> _resolve_mapping_conflicts ms = ms.
Proof.
  intros Hnd. unfold _resolve_mapping_conflicts.
  rewrite (target_groups_distinct _ Hnd), map_map. simpl.
  apply map_id.
Qed.

Lemma resolve_length_le (ms : list FieldMapping) :
  (List.length (_resolve_mapping_conflicts ms) <= List.length ms)%nat.
Proof.
  rewrite <- (length_map target_field (_resolve_mapping_conflicts ms)).
  rewrite <- (length_map target_field ms).
  apply NoDup_incl_length; [apply resolve_targets_NoDup|].
  intros t Ht. apply in_map_iff in Ht. destruct Ht as (b & <- & Hb).
  apply in_map. apply resolve_incl. exact Hb.
Qed.

(** ** The error monad *)

Lemma bind_Ok {A B} (c : result A) (k : A -> result B) (b : B) :
  bind c k = Ok b -> exists a, c = Ok a /\ k a = Ok b.
Proof. destruct c as [a|e]; simpl; [eauto|discriminate]. Qed.

Ltac inv_bind H :=
  let a := fresh "a" in
  let Ha := fresh "H" a in
  apply bind_Ok in H; destruct H as (a & Ha & H).

Ltac inv_ok H := injection H as H; try subst.

(** ** Score fusion *)

Lemma confidence_le_1 cfg d f sm i j c :
  _calculate_confidence_score cfg d f sm i j = Ok c -> c <= 1.
Proof.
  unfold _calculate_confidence_score. intros H.
  inv_bind H. inv_bind H. inv_bind H. inv_ok H.
  apply py_min_le_r.
Qed.

(** ** Candidates *)

Lemma insert_desc_In (x y : FieldMapping) (l : list FieldMapping) :
  In y (insert_desc x l) <-> y = x \/ In y l.
Proof.
  induction l as [|z l IH]; simpl.
  - intuition.
  - destruct (Qltb _ _); simpl; [rewrite IH|]; intuition.
Qed.

Lemma sort_desc_In (y : FieldMapping) (l : list FieldMapping) :
  In y (sort_desc l) <-> In y l.
Proof.
  induction l as [|x l IH]; simpl; [tauto|].
  rewrite insert_desc_In, IH. intuition.
Qed.

Lemma insert_desc_length (x : FieldMapping) (l : list FieldMapping) :
  List.length (insert_desc x l) = S (List.length l).
Proof.
  induction l as [|z l IH]; simpl; [reflexivity|].
  destruct (Qltb _ _); simpl; [rewrite IH|]; reflexivity.
Qed.

Lemma sort_desc_length (l : list FieldMapping) :
  List.length (sort_desc l) = List.length l.
Proof.
  induction l as [|x l IH]; simpl; [reflexivity|].
  rewrite insert_desc_length, IH. reflexivity.
Qed.

Lemma slice_to_In {A} (l : list A) (k : Z) (x : A) :
  In x (slice_to l k) -> In x l.
Proof.
  unfold slice_to. destruct (0 <=? k)%Z; intros H;
    match type of H with
    | In _ (firstn ?n _) => rewrite <- (firstn_skipn n l)
    end; apply in_or_app; left; exact H.
Qed.

Lemma is_candidate_shift cfg d f fs sm i j c :
  is_candidate cfg d fs sm i (S j) c -> is_candidate cfg d (f :: fs) sm i j c.
Proof.
  intros (k & ff & thr & H1 & H2 & H3 & H4 & H5 & H6 & H7).
  exists (S k), ff, thr. rewrite <- plus_n_Sm. simpl in *. auto 10.
Qed.

Lemma candidates_from_spec cfg d fs sm i :
  forall j cs,
    candidates_from cfg d fs sm i j = Ok cs ->
    Forall (is_candidate cfg d fs sm i j) cs.
Proof.
  induction fs as [|f fs IH]; simpl; intros j cs H.
  - inv_ok H. constructor.
  - inv_bind H. inv_bind H. inv_bind H. inv_bind H. inv_ok H.
    apply Forall_app. split.
    + destruct (Qgeb a a0) eqn:Hge.
      * inv_bind Ha1. inv_bind Ha1. inv_ok Ha1.
        constructor; [|constructor].
        exists 0%nat, f, a0. rewrite Nat.add_0_r. simpl.
        apply Qgeb_true in Hge.
        destruct (similarity_threshold cfg); [|discriminate].
        inv_ok Ha0. auto 10.
      * inv_ok Ha1. constructor.
    + eapply Forall_impl; [|apply IH; eassumption].
      intros c. apply is_candidate_shift.
Qed.

Lemma find_mapping_candidates_spec cfg d fs sm i cs :
  _find_mapping_candidates cfg d fs sm i = Ok cs ->
  Forall (is_candidate cfg d fs sm i 0) cs.
Proof.
  unfold _find_mapping_candidates. intros H. inv_bind H. inv_ok H.
  apply candidates_from_spec in Ha.
  rewrite Forall_forall in *. intros c Hc.
  apply Ha. apply sort_desc_In. eapply slice_to_In. exact Hc.
Qed.

(** ** The main loop *)

Lemma mappings_from_spec cfg fs sm docs :
  forall i ms,
    mappings_from cfg docs fs sm i = Ok ms ->
    exists per,
      ms = List.concat per /\
      Forall2 (fun _ c => (List.length c <= 1)%nat) docs per /\
      forall k c m,
        nth_error per k = Some c -> In m c ->
        exists d, nth_error docs k = Some d /\
                  is_forwarded cfg fs sm (i + k) d m.
Proof.
  induction docs as [|d docs IH]; simpl; intros i ms H.
  - inv_ok H. exists []. repeat split; [constructor|].
    intros [|k] c m Hk; discriminate.
  - inv_bind H. inv_bind H. inv_bind H. inv_ok H.
    destruct (IH _ _ Ha1) as (per & -> & Hlen & Hper).
    exists (a0 :: per). split; [reflexivity|].
    assert (Hhere : (List.length a0 <= 1)%nat /\
                    forall m, In m a0 -> is_forwarded cfg fs sm i d m).
    { pose proof (find_mapping_candidates_spec _ _ _ _ _ Ha) as Hc.
      destruct a as [|c cs].
      - inv_ok Ha0. simpl. split; [lia|tauto].
      - inv_bind Ha0.
        assert (Hbest : is_candidate cfg d fs sm i 0
                          (py_max_by confidence_score c cs)).
        { rewrite Forall_forall in Hc. apply Hc. apply py_max_by_In. }
        destruct (confidence_threshold cfg) as [ct|] eqn:Hct; [|discriminate].
        simpl in Ha2. injection Ha2 as <-.
        destruct (Qgeb _ ct) eqn:Hge; inv_ok Ha0; simpl; [|split; [lia|tauto]].
        split; [lia|]. intros m [<-|[]]. split; [exact Hbest|]. split.
        { exists ct. split; [exact Hct|]. apply Qgeb_true. exact Hge. }
        exists (c :: cs). split; [exact Ha|].
        split; [apply py_max_by_In|apply py_max_by_ge]. }
    destruct Hhere as [Hl Hf]. split; [constructor; assumption|].
    intros [|k] c m Hk Hm; simpl in Hk.
    + inv_ok Hk. exists d. rewrite Nat.add_0_r. simpl. auto.
    + destruct (Hper _ _ _ Hk Hm) as (d' & Hd' & Hfw).
      exists d'. rewrite <- plus_n_Sm. simpl. auto.
Qed.

Lemma concat_length_le {A B} (l : list A) (per : list (list B)) :
  Forall2 (fun _ c => (List.length c <= 1)%nat) l per ->
  (List.length (List.concat per) <= List.length l)%nat.
Proof.
  induction 1 as [|x c l per Hc _ IH]; simpl; [lia|].
  rewrite length_app. lia.
Qed.

Lemma in_concat_nth {A} (per : list (list A)) (m : A) :
  In m (List.concat per) -> exists k c, nth_error per k = Some c /\ In m c.
Proof.
  intros H. apply List.in_concat in H. destruct H as (c & Hc & Hm).
  apply In_nth_error in Hc. destruct Hc as [k Hk]. eauto.
Qed.

Lemma is_candidate_target cfg d fs sm i j c :
  is_candidate cfg d fs sm i j c -> In (target_field c) (map form_name fs).
Proof.
  intros (k & f & thr & Hk & _ & -> & _). apply in_map.
  eapply nth_error_In. exact Hk.
Qed.

Lemma is_candidate_bounds cfg d fs sm i j c thr :
  similarity_threshold cfg = Some thr ->
  is_candidate cfg d fs sm i j c ->
  thr <= confidence_score c /\ confidence_score c <= 1.
Proof.
  intros Hthr (k & f & thr' & _ & _ & _ & Hc & Hthr' & Hle & _).
  rewrite Hthr in Hthr'. inv_ok Hthr'. split; [exact Hle|].
  eapply confidence_le_1. exact Hc.
Qed.

Lemma map_fields_Ok E M docs fs res :
  map_fields E M docs fs = Ok res ->
  exists sm ms,
    _compute_similarity_matrices E M (map doc_name docs) (map form_name fs)
      = Ok sm /\
    mappings_from (config M) docs fs sm 0 = Ok ms /\
    res = _resolve_mapping_conflicts ms.
Proof.
  unfold map_fields. intros H. inv_bind H. inv_bind H. inv_ok H. eauto.
Qed.

(** * The claims *)

(** ** Conflict resolution *)

(** C2. For every list of mappings, [_resolve_mapping_conflicts] keeps
    exactly one mapping for each target field that occurs in the input: the
    surviving targets are pairwise distinct and every input target
    survives. The survivor of a group is the first mapping of highest
    confidence in input order: it occurs in the input at a position before
    which every mapping with the same target scores strictly less and after
    which none with the same target scores more. A mapping that is alone
    with its target is kept as it is. *)
Theorem resolve_keeps_first_best_per_target (ms : list FieldMapping) :
  NoDup (map target_field (_resolve_mapping_conflicts ms)) /\
  (forall m, In m ms ->
     In (target_field m) (map target_field (_resolve_mapping_conflicts ms))) /\
  (forall b, In b (_resolve_mapping_conflicts ms) ->
     exists l1 l2,
       ms = l1 ++ b :: l2 /\
       (forall x, In x l1 -> target_field x = target_field b ->
                  confidence_score x < confidence_score b) /\
       (forall x, In x l2 -> target_field x = target_field b ->
                  confidence_score x <= confidence_score b)) /\
  (forall l1 m l2,
     ms = l1 ++ m :: l2 ->
     (forall x, In x (l1 ++ l2) -> target_field x <> target_field m) ->
     In m (_resolve_mapping_conflicts ms)).
Proof.
  split; [apply resolve_targets_NoDup|].
  split; [apply resolve_covers|].
  split; [apply resolve_first_best|].
  intros l1 m l2 Hms Halone.
  assert (Hm : In m ms) by (rewrite Hms; apply in_elt).
  pose proof (resolve_covers ms m Hm) as Ht.
  apply in_map_iff in Ht. destruct Ht as (b & Hbt & Hb).
  assert (Hbm : In b ms) by (apply resolve_incl; exact Hb).
  rewrite Hms in Hbm. apply in_app_or in Hbm.
  destruct Hbm as [Hb1|[<-|Hb2]].
  - exfalso. apply (Halone b); [apply in_or_app; auto|exact Hbt].
  - exact Hb.
  - exfalso. apply (Halone b); [apply in_or_app; auto|exact Hbt].
Qed.

(** C6. [_resolve_mapping_conflicts] is idempotent, order of the returned
    list included. *)
Theorem resolve_idempotent (ms : list FieldMapping) :
  _resolve_mapping_conflicts (_resolve_mapping_conflicts ms) =
  _resolve_mapping_conflicts ms.
Proof. apply resolve_distinct. apply resolve_targets_NoDup. Qed.

(** ** Bounds on the result of [map_fields] *)

(** C4. When both thresholds lie in [[0, 1]], every mapping that
    [map_fields] returns has a confidence in [[0, 1]]. *)
Theorem map_fields_confidence_in_unit_interval
    (E : External) (M : Mapper) (docs : list DocumentField)
    (fs : list FormField) (st ct : Q) (res : list FieldMapping) :
  similarity_threshold (config M) = Some st -> 0 <= st /\ st <= 1 ->
  confidence_threshold (config M) = Some ct -> 0 <= ct /\ ct <= 1 ->
  map_fields E M docs fs = Ok res ->
  Forall (fun m => 0 <= confidence_score m /\ confidence_score m <= 1) res.
Proof.
  intros Hst [Hst0 _] _ _ H.
  destruct (map_fields_Ok _ _ _ _ H) as (sm & ms & _ & Hms & ->).
  destruct (mappings_from_spec _ _ _ _ _ Hms) as (per & -> & _ & Hper).
  apply Forall_forall. intros m Hm. apply resolve_incl in Hm.
  destruct (in_concat_nth _ _ Hm) as (k & c & Hk & Hc).
  destruct (Hper _ _ _ Hk Hc) as (d & _ & Hcand & _).
  destruct (@is_candidate_bounds _ _ _ _ _ _ _ _ Hst Hcand) as [Hlo Hhi].
  split; [|exact Hhi]. eapply Qle_trans; eassumption.
Qed.

Lemma map_fields_confidence_in_unit_interval_witness :
  exists res,
    map_fields offline (__init__ offline (Some fixture_config))
      [document_field "firstName" NAME] [form_field "firstName" NAME] = Ok res /\
    res <> [] /\
    Forall (fun m => 0 <= confidence_score m /\ confidence_score m <= 1) res.
Proof.
  eexists. split; [vm_compute; reflexivity|]. split; [discriminate|].
  apply (@map_fields_confidence_in_unit_interval offline
           (__init__ offline (Some fixture_config))
           [document_field "firstName" NAME] [form_field "firstName" NAME]
           (6 # 10) (5 # 10)).
  - reflexivity.
  - split; discriminate.
  - reflexivity.
  - split; discriminate.
  - vm_compute. reflexivity.
Defined.

(** C10. Each document field contributes at most one mapping to the list
    handed to the resolver, namely a candidate of that field which clears
    [confidence_threshold]; the resolver only removes mappings and leaves
    the targets pairwise distinct; hence [map_fields] returns at most as
    many mappings as there are document fields and at most as many as
    there are form fields. *)
Theorem map_fields_at_most_one_mapping_per_field
    (E : External) (M : Mapper) (docs : list DocumentField)
    (fs : list FormField) (res : list FieldMapping) :
  map_fields E M docs fs = Ok res ->
  exists sm per,
    _compute_similarity_matrices E M (map doc_name docs) (map form_name fs)
      = Ok sm /\
    mappings_from (config M) docs fs sm 0 = Ok (List.concat per) /\
    Forall2 (fun _ c => (List.length c <= 1)%nat) docs per /\
    (forall k c m,
       nth_error per k = Some c -> In m c ->
       exists d, nth_error docs k = Some d /\
                 is_forwarded (config M) fs sm k d m) /\
    res = _resolve_mapping_conflicts (List.concat per) /\
    incl res (List.concat per) /\
    NoDup (map target_field res) /\
    (List.length res <= Nat.min (List.length docs) (List.length fs))%nat.
Proof.
  intros H.
  destruct (map_fields_Ok _ _ _ _ H) as (sm & ms & Hsm & Hms & ->).
  destruct (mappings_from_spec _ _ _ _ _ Hms) as (per & -> & Hlen & Hper).
  exists sm, per. repeat split; auto.
  - apply resolve_incl.
  - apply resolve_targets_NoDup.
  - apply Nat.min_glb.
    + etransitivity; [apply resolve_length_le|].
      apply concat_length_le. exact Hlen.
    + rewrite <- (length_map target_field), <- (length_map form_name fs).
      apply NoDup_incl_length; [apply resolve_targets_NoDup|].
      intros t Ht. apply in_map_iff in Ht. destruct Ht as (b & <- & Hb).
      apply resolve_incl in Hb.
      destruct (in_concat_nth _ _ Hb) as (k & c & Hk & Hc).
      destruct (Hper _ _ _ Hk Hc) as (d & _ & Hcand & _).
      eapply is_candidate_target. exact Hcand.
Qed.

Lemma map_fields_at_most_one_mapping_per_field_witness :
  exists res,
    map_fields offline (__init__ offline (Some fixture_config))
      [document_field "firstName" NAME; document_field "first_name" NAME]
      [form_field "firstName" NAME] = Ok res /\
    (List.length res <= Nat.min 2 1)%nat.
Proof.
  eexists. split; [vm_compute; reflexivity|].
  match goal with
  | |- (List.length ?r <= _)%nat =>
      assert (H : map_fields offline (__init__ offline (Some fixture_config))
                    [document_field "firstName" NAME;
                     document_field "first_name" NAME]
                    [form_field "firstName" NAME] = Ok r)
        by (vm_compute; reflexivity)
  end.
  destruct (map_fields_at_most_one_mapping_per_field _ _ _ _ H)
    as (sm & per & _ & _ & _ & _ & _ & _ & _ & Hlen).
  exact Hlen.
Defined.

(** ** Threshold monotonicity *)

Lemma candidates_from_confidence_threshold cfg v d fs sm i :
  forall j,
    candidates_from (set_confidence_threshold cfg v) d fs sm i j =
    candidates_from cfg d fs sm i j.
Proof.
  induction fs as [|f fs IH]; intros j; simpl; [reflexivity|].
  rewrite IH. reflexivity.
Qed.

Lemma find_candidates_confidence_threshold cfg v d fs sm i :
  _find_mapping_candidates (set_confidence_threshold cfg v) d fs sm i =
  _find_mapping_candidates cfg d fs sm i.
Proof.
  unfold _find_mapping_candidates.
  rewrite candidates_from_confidence_threshold. reflexivity.
Qed.

Lemma mappings_from_cons cfg d docs fs sm i :
  mappings_from cfg (d :: docs) fs sm i =
  (candidates <- _find_mapping_candidates cfg d fs sm i ;;
   here <-
     match candidates with
     | [] => Ok []
     | c :: cs =>
         let best_mapping := py_max_by confidence_score c cs in
         threshold <- get_item "confidence_threshold"
                        (confidence_threshold cfg) ;;
         if Qgeb (confidence_score best_mapping) threshold
         then Ok [best_mapping] else Ok []
     end ;;
   later <- mappings_from cfg docs fs sm (S i) ;;
   Ok (here ++ later)).
Proof. reflexivity. Qed.

Lemma compute_matrices_confidence_threshold E M v ds fs :
  _compute_similarity_matrices E
    (with_config M (set_confidence_threshold (config M) v)) ds fs =
  _compute_similarity_matrices E M ds fs.
Proof. reflexivity. Qed.

Lemma mappings_from_threshold_mono cfg lo hi docs fs sm :
  lo <= hi ->
  forall i ms_hi,
    mappings_from (set_confidence_threshold cfg hi) docs fs sm i = Ok ms_hi ->
    exists ms_lo,
      mappings_from (set_confidence_threshold cfg lo) docs fs sm i = Ok ms_lo /\
      incl ms_hi ms_lo.
Proof.
  intros Hle. induction docs as [|d docs IH]; intros i ms_hi H.
  - simpl in *. inv_ok H. exists []. split; [reflexivity|apply incl_refl].
  - rewrite mappings_from_cons in *.
    rewrite find_candidates_confidence_threshold in *.
    inv_bind H. inv_bind H. inv_bind H. inv_ok H.
    destruct (IH _ _ Ha1) as (later_lo & Hlater & Hincl).
    rewrite Ha, Hlater. simpl.
    destruct a as [|c cs]; simpl in *.
    + inv_ok Ha0. simpl. eexists. split; [reflexivity|exact Hincl].
    + destruct (Qgeb _ hi) eqn:Hhi; inv_ok Ha0.
      * apply Qgeb_true in Hhi.
        assert (Hlo : Qgeb (confidence_score (py_max_by confidence_score c cs))
                        lo = true).
        { apply Qgeb_true. eapply Qle_trans; eassumption. }
        rewrite Hlo. simpl. eexists. split; [reflexivity|].
        apply incl_cons; [left; reflexivity|].
        apply incl_tl. exact Hincl.
      * destruct (Qgeb _ lo); simpl; eexists; (split; [reflexivity|]).
        -- apply incl_tl. exact Hincl.
        -- exact Hincl.
Qed.

Lemma slice_to_length_mono {A} (l1 l2 : list A) (k : Z) :
  (List.length l1 <= List.length l2)%nat ->
  (List.length (slice_to l1 k) <= List.length (slice_to l2 k))%nat.
Proof.
  intros H. unfold slice_to. destruct (0 <=? k)%Z; rewrite !length_firstn; lia.
Qed.

Lemma candidates_from_floor_mono cfg lo hi d fs sm i :
  lo <= hi ->
  forall j c_lo,
    candidates_from (set_similarity_threshold cfg lo) d fs sm i j = Ok c_lo ->
    exists c_hi,
      candidates_from (set_similarity_threshold cfg hi) d fs sm i j = Ok c_hi /\
      (List.length c_hi <= List.length c_lo)%nat.
Proof.
  intros Hle. induction fs as [|f fs IH]; simpl; intros j c_lo H.
  - inv_ok H. exists []. split; [reflexivity|simpl; lia].
  - change (_calculate_confidence_score (set_similarity_threshold cfg lo))
      with (_calculate_confidence_score cfg) in H.
    change (_calculate_confidence_score (set_similarity_threshold cfg hi))
      with (_calculate_confidence_score cfg).
    inv_bind H. simpl in H. inv_bind H. inv_bind H. inv_ok H.
    destruct (IH _ _ Ha1) as (later_hi & Hlater & Hlen).
    rewrite Ha, Hlater. simpl.
    destruct (Qgeb a hi) eqn:Hhi.
    + apply Qgeb_true in Hhi.
      assert (Hlo : Qgeb a lo = true).
      { apply Qgeb_true. eapply Qle_trans; eassumption. }
      rewrite Hlo in Ha0. rewrite Ha0. simpl.
      eexists. split; [reflexivity|]. rewrite !length_app. lia.
    + simpl. eexists. split; [reflexivity|]. rewrite length_app. lia.
Qed.

(** C5. With inputs, matrices and the rest of the configuration fixed,
    a run of [map_fields] at a confidence threshold [hi] that returns a
    list is matched, at any lower threshold [lo], by a run that returns a
    list at least as long; and a run of [_find_mapping_candidates] at a
    similarity threshold [lo] that returns a list is matched, at any higher
    threshold [hi], by a run that returns a list at most as long. *)
Theorem threshold_monotonicity (lo hi : Q) :
  lo <= hi ->
  (forall E M docs fs r_hi,
     map_fields E (with_config M (set_confidence_threshold (config M) hi))
       docs fs = Ok r_hi ->
     exists r_lo,
       map_fields E (with_config M (set_confidence_threshold (config M) lo))
         docs fs = Ok r_lo /\
       (List.length r_hi <= List.length r_lo)%nat) /\
  (forall cfg d fs sm i c_lo,
     _find_mapping_candidates (set_similarity_threshold cfg lo) d fs sm i
       = Ok c_lo ->
     exists c_hi,
       _find_mapping_candidates (set_similarity_threshold cfg hi) d fs sm i
         = Ok c_hi /\
       (List.length c_hi <= List.length c_lo)%nat).
Proof.
  intros Hle. split.
  - intros E M docs fs r_hi H. unfold map_fields in *.
    rewrite compute_matrices_confidence_threshold in *.
    inv_bind H. inv_bind H. inv_ok H. simpl in Ha0.
    destruct (mappings_from_threshold_mono _ _ _ _ Hle _ Ha0)
      as (ms_lo & Hlo & Hincl).
    rewrite Ha. simpl. rewrite Hlo. simpl. eexists. split; [reflexivity|].
    rewrite <- (length_map target_field (_resolve_mapping_conflicts a0)).
    rewrite <- (length_map target_field (_resolve_mapping_conflicts ms_lo)).
    apply NoDup_incl_length; [apply resolve_targets_NoDup|].
    intros t Ht. apply in_map_iff in Ht. destruct Ht as (b & <- & Hb).
    apply resolve_covers. apply Hincl. apply resolve_incl. exact Hb.
  - intros cfg d fs sm i c_lo H. unfold _find_mapping_candidates in *.
    inv_bind H. inv_ok H.
    destruct (candidates_from_floor_mono _ _ _ _ _ Hle _ Ha)
      as (c_hi & Hhi & Hlen).
    rewrite Hhi. simpl. eexists. split; [reflexivity|].
    apply slice_to_length_mono. rewrite !sort_desc_length. exact Hlen.
Qed.

(** ** Score fusion, in closed form *)

Lemma py_min_Qmin (a b : Q) : py_min a b == Qmin a b.
Proof.
  unfold py_min. destruct (Qltb b a) eqn:H.
  - apply Qltb_true in H. symmetry. apply Q.min_r. apply Qlt_le_weak. exact H.
  - apply Qltb_false in H. symmetry. apply Q.min_l. exact H.
Qed.

Lemma Qltb_comp (a a' b b' : Q) : a == a' -> b == b' -> Qltb a b = Qltb a' b'.
Proof. intros Ha Hb. unfold Qltb. rewrite Ha, Hb. reflexivity. Qed.

Lemma add_provider_score_spec cfg sm i j p acc :
  entries_defined sm i j ->
  exists acc',
    add_provider_score sm (provider_key p) (provider_weight cfg p) i j acc
      = Ok acc' /\
    fst acc' == fst acc + (if active sm p
                           then provider_weight cfg p * raw_entry sm p i j
                           else 0) /\
    snd acc' == snd acc + (if active sm p then provider_weight cfg p else 0).
Proof.
  intros Hdef. unfold add_provider_score, active, dict_mem, raw_entry.
  destruct (dict_get sm (provider_key p)) as [m|] eqn:Hget.
  - destruct (Hdef _ _ Hget) as [v Hv]. rewrite Hv. simpl.
    eexists. split; [reflexivity|]. simpl. split; ring.
  - exists acc. split; [reflexivity|]. split; ring.
Qed.

Lemma confidence_closed_form cfg d f sm i j :
  entries_defined sm i j ->
  exists S W,
    S == weighted_sum cfg sm i j
         + (1 # 10) * _calculate_type_compatibility_bonus d f /\
    W == weight_sum cfg sm /\
    _calculate_confidence_score cfg d f sm i j
      = Ok (py_min (if Qltb 0 W then S / W else 0) 1).
Proof.
  intros Hdef. unfold _calculate_confidence_score.
  destruct (add_provider_score_spec cfg Lexical (0, 0) Hdef)
    as (acc1 & Hrun1 & Hs1 & Hw1).
  destruct (add_provider_score_spec cfg Semantic acc1 Hdef)
    as (acc2 & Hrun2 & Hs2 & Hw2).
  destruct (add_provider_score_spec cfg RuleBased acc2 Hdef)
    as (acc3 & Hrun3 & Hs3 & Hw3).
  cbn [provider_key provider_weight] in Hrun1, Hrun2, Hrun3.
  rewrite Hrun1. cbn [bind]. rewrite Hrun2. cbn [bind].
  rewrite Hrun3. cbn [bind].
  eexists _, _. split; [|split; [|reflexivity]].
  - unfold weighted_sum, sumQ. simpl. rewrite Hs3, Hs2, Hs1. simpl. ring.
  - unfold weight_sum, sumQ. simpl. rewrite Hw3, Hw2, Hw1. simpl. ring.
Qed.

Lemma weight_sum_inactive cfg sm :
  (forall p, active sm p = false) -> weight_sum cfg sm == 0.
Proof.
  intros H. unfold weight_sum, sumQ. simpl. rewrite !H. ring.
Qed.

Lemma Qplus_nonneg_nonneg (a b : Q) : 0 <= a -> 0 <= b -> 0 <= a + b.
Proof.
  intros Ha Hb. apply Qle_trans with (0 + 0); [apply Qle_refl|].
  apply Qplus_le_compat; assumption.
Qed.

Lemma weighted_sum_nonneg cfg sm i j :
  (forall p, 0 <= provider_weight cfg p) ->
  (forall p, 0 <= raw_entry sm p i j) ->
  0 <= weighted_sum cfg sm i j.
Proof.
  intros Hw He. unfold weighted_sum, sumQ. simpl.
  assert (Hterm : forall p,
            0 <= (if active sm p
                  then provider_weight cfg p * raw_entry sm p i j else 0)).
  { intros p. destruct (active sm p); [|apply Qle_refl].
    apply Qmult_le_0_compat; auto. }
  pose proof (Hterm Lexical). pose proof (Hterm Semantic).
  pose proof (Hterm RuleBased).
  cbn [provider_weight] in *.
  repeat (apply Qplus_nonneg_nonneg; [assumption|]). apply Qle_refl.
Qed.

Lemma type_bonus_cases (d : DocumentField) (f : FormField) :
  (doc_type d = form_type f ->
   _calculate_type_compatibility_bonus d f = 2 # 10) /\
  (doc_type d <> form_type f ->
   forall a b v,
     In ((a, b), v) compatible_types ->
     (doc_type d = a /\ form_type f = b) \/
     (doc_type d = b /\ form_type f = a) ->
     _calculate_type_compatibility_bonus d f = v) /\
  (doc_type d <> form_type f ->
   (forall a b v,
      In ((a, b), v) compatible_types ->
      ~ ((doc_type d = a /\ form_type f = b) \/
         (doc_type d = b /\ form_type f = a))) ->
   _calculate_type_compatibility_bonus d f = 0).
Proof.
  unfold _calculate_type_compatibility_bonus.
  destruct (doc_type d) eqn:Hd, (form_type f) eqn:Hf; simpl;
    (split; [intros; (reflexivity || congruence)|]);
    (split;
     [ intros Hne a b v Hin Hab; try congruence;
       simpl in Hin;
       repeat (destruct Hin as [Hin|Hin];
               [injection Hin as <- <- <-;
                destruct Hab as [[? ?]|[? ?]]; (reflexivity || discriminate)|]);
       destruct Hin
     | intros Hne Hnone; try congruence; try reflexivity;
       exfalso;
       first
         [ apply (Hnone TEXT NAME (1 # 10)); simpl; tauto
         | apply (Hnone TEXT ADDRESS (1 # 10)); simpl; tauto
         | apply (Hnone NUMBER CURRENCY (15 # 100)); simpl; tauto
         | apply (Hnone TEXT EMAIL (1 # 10)); simpl; tauto
         | apply (Hnone TEXT PHONE (1 # 10)); simpl; tauto ] ]).
Qed.

Lemma type_bonus_nonneg (d : DocumentField) (f : FormField) :
  0 <= _calculate_type_compatibility_bonus d f.
Proof.
  unfold _calculate_type_compatibility_bonus.
  destruct (doc_type d), (form_type f); simpl; discriminate.
Qed.

(** C1, as the code has it. When every active provider has an entry at the
    pair, the fused confidence is [(sum of w_p * matrix_p[i][j] + 0.1 *
    typeBonus) / (sum of w_p)] capped at [1] when the total active weight is
    positive, and [0] otherwise, in particular when no provider is active.
    It never exceeds [1], and it is non-negative when the weights and the
    entries are. The type bonus is [0.2] for identical declared types, the
    value of the compatibility table, looked up in both orders, for a
    loosely compatible pair, and [0] otherwise. *)
Theorem fused_confidence_formula
    (cfg : Config) (d : DocumentField) (f : FormField)
    (sm : Dict Matrix) (i j : nat) :
  entries_defined sm i j ->
  (exists c,
     _calculate_confidence_score cfg d f sm i j = Ok c /\
     (0 < weight_sum cfg sm ->
      c == Qmin ((weighted_sum cfg sm i j
                  + (1 # 10) * _calculate_type_compatibility_bonus d f)
                 / weight_sum cfg sm) 1) /\
     (weight_sum cfg sm <= 0 -> c == 0) /\
     ((forall p, active sm p = false) -> c == 0) /\
     c <= 1 /\
     ((forall p, 0 <= provider_weight cfg p) ->
      (forall p, 0 <= raw_entry sm p i j) -> 0 <= c)) /\
  (doc_type d = form_type f ->
   _calculate_type_compatibility_bonus d f = 2 # 10) /\
  (doc_type d <> form_type f ->
   forall a b v,
     In ((a, b), v) compatible_types ->
     (doc_type d = a /\ form_type f = b) \/
     (doc_type d = b /\ form_type f = a) ->
     _calculate_type_compatibility_bonus d f = v) /\
  (doc_type d <> form_type f ->
   (forall a b v,
      In ((a, b), v) compatible_types ->
      ~ ((doc_type d = a /\ form_type f = b) \/
         (doc_type d = b /\ form_type f = a))) ->
   _calculate_type_compatibility_bonus d f = 0).
Proof.
  intros Hdef. split; [|apply type_bonus_cases].
  destruct (confidence_closed_form cfg d f Hdef) as (S & W & HS & HW & Hrun).
  eexists. split; [exact Hrun|].
  assert (Hzero : weight_sum cfg sm <= 0 ->
                  py_min (if Qltb 0 W then S / W else 0) 1 == 0).
  { intros Hle. rewrite <- HW in Hle. apply Qltb_false in Hle.
    rewrite Hle. reflexivity. }
  split; [|split; [exact Hzero|split; [|split]]].
  - intros Hpos. rewrite <- HW in Hpos. apply Qltb_true in Hpos.
    rewrite Hpos, py_min_Qmin, HS, HW. reflexivity.
  - intros Hnone. apply Hzero. rewrite (weight_sum_inactive cfg sm Hnone).
    apply Qle_refl.
  - apply py_min_le_r.
  - intros Hw He. apply py_min_ge; [|discriminate].
    destruct (Qltb 0 W) eqn:Hpos; [|apply Qle_refl].
    apply Qltb_true in Hpos. apply Qle_shift_div_l; [exact Hpos|].
    rewrite Qmult_0_l, HS. apply Qplus_nonneg_nonneg.
    + apply weighted_sum_nonneg; assumption.
    + apply Qmult_le_0_compat; [discriminate|apply type_bonus_nonneg].
Qed.

Lemma fused_confidence_formula_witness :
  entries_defined lexical_only 0 0 /\
  exists c,
    _calculate_confidence_score _get_default_config
      (document_field "a" TEXT) (form_field "b" TEXT) lexical_only 0 0 = Ok c /\
    c == 17 # 30.
Proof.
  assert (Hdef : entries_defined lexical_only 0 0).
  { intros p m Hget. destruct p; simpl in Hget; try discriminate.
    injection Hget as <-. eexists. reflexivity. }
  split; [exact Hdef|].
  destruct (@fused_confidence_formula _get_default_config
              (document_field "a" TEXT) (form_field "b" TEXT)
              lexical_only 0 0 Hdef)
    as [(c & Hrun & Hpos & _) _].
  exists c. split; [exact Hrun|].
  rewrite Hpos; [|reflexivity]. reflexivity.
Defined.

(** C1 as stated fails: with only the lexical provider active (weight
    [0.3], entry [0.5]) and identical declared types, the code divides the
    bonus by the total weight and returns [17/30], not [0.52]. *)
Lemma fused_confidence_counterexample :
  exists c,
    _calculate_confidence_score _get_default_config
      (document_field "a" TEXT) (form_field "b" TEXT) lexical_only 0 0 = Ok c /\
    spec_confidence _get_default_config
      (document_field "a" TEXT) (form_field "b" TEXT) lexical_only 0 0
    == 52 # 100 /\
    ~ c == spec_confidence _get_default_config
             (document_field "a" TEXT) (form_field "b" TEXT) lexical_only 0 0.
Proof.
  eexists. split; [vm_compute; reflexivity|].
  split; [vm_compute; reflexivity|].
  vm_compute. discriminate.
Qed.

(** ** Type-bonus ordering *)

Lemma capped_mean_order (S1 S2 W1 W2 W : Q) :
  W1 == W -> W2 == W -> S2 < S1 ->
  let c_e := py_min (if Qltb 0 W1 then S1 / W1 else 0) 1 in
  let c_t := py_min (if Qltb 0 W2 then S2 / W2 else 0) 1 in
  c_t <= c_e /\ (0 < W -> c_t < 1 -> c_t < c_e).
Proof.
  intros H1 H2 HS. cbv zeta.
  rewrite (Qltb_comp (Qeq_refl 0) H1), (Qltb_comp (Qeq_refl 0) H2).
  rewrite !py_min_Qmin.
  destruct (Qltb 0 W) eqn:Hpos.
  - apply Qltb_true in Hpos.
    assert (Hlt : S2 / W2 < S1 / W1).
    { rewrite H1, H2. unfold Qdiv. apply Qmult_lt_compat_r; [|exact HS].
      apply Qinv_lt_0_compat. exact Hpos. }
    split.
    + apply Q.min_le_compat_r. apply Qlt_le_weak. exact Hlt.
    + intros _ Hcap. apply Q.min_lt_iff in Hcap.
      destruct Hcap as [Hcap|Hcap]; [|discriminate Hcap].
      apply Q.min_glb_lt_iff. split.
      * eapply Qle_lt_trans; [apply Q.le_min_l|exact Hlt].
      * eapply Qle_lt_trans; [apply Q.le_min_l|exact Hcap].
  - split; [apply Qle_refl|].
    intros HW. apply Qltb_false in Hpos. exfalso.
    exact (Qlt_not_le _ _ HW Hpos).
Qed.

(** C7, as the code has it. With the matrices and the configuration fixed,
    the pair whose two declared types are EMAIL scores at least as high as
    the pair that declares TEXT on one side and EMAIL on the other, and
    strictly higher when the total active weight is positive and the score
    of the TEXT/EMAIL pair is below the cap [1]. *)
Theorem type_bonus_ordering
    (cfg : Config) (sm : Dict Matrix) (i j : nat)
    (d_e d_t : DocumentField) (f_e f_t : FormField) :
  entries_defined sm i j ->
  doc_type d_e = EMAIL -> form_type f_e = EMAIL ->
  (doc_type d_t = TEXT /\ form_type f_t = EMAIL) \/
  (doc_type d_t = EMAIL /\ form_type f_t = TEXT) ->
  exists c_e c_t,
    _calculate_confidence_score cfg d_e f_e sm i j = Ok c_e /\
    _calculate_confidence_score cfg d_t f_t sm i j = Ok c_t /\
    c_t <= c_e /\
    (0 < weight_sum cfg sm -> c_t < 1 -> c_t < c_e).
Proof.
  intros Hdef He1 He2 Ht.
  destruct (confidence_closed_form cfg d_e f_e Hdef)
    as (S1 & W1 & HS1 & HW1 & Hrun1).
  destruct (confidence_closed_form cfg d_t f_t Hdef)
    as (S2 & W2 & HS2 & HW2 & Hrun2).
  eexists _, _. split; [exact Hrun1|]. split; [exact Hrun2|].
  apply capped_mean_order; [exact HW1|exact HW2|].
  rewrite HS1, HS2. apply Qplus_lt_r.
  assert (Hbe : _calculate_type_compatibility_bonus d_e f_e = 2 # 10).
  { unfold _calculate_type_compatibility_bonus. rewrite He1, He2. reflexivity. }
  assert (Hbt : _calculate_type_compatibility_bonus d_t f_t = 1 # 10).
  { unfold _calculate_type_compatibility_bonus.
    destruct Ht as [[-> ->]|[-> ->]]; reflexivity. }
  rewrite Hbe, Hbt. reflexivity.
Qed.

Lemma type_bonus_ordering_witness :
  entries_defined lexical_only 0 0 /\
  exists c_e c_t,
    _calculate_confidence_score _get_default_config
      (document_field "email" EMAIL) (form_field "email" EMAIL)
      lexical_only 0 0 = Ok c_e /\
    _calculate_confidence_score _get_default_config
      (document_field "email" TEXT) (form_field "email" EMAIL)
      lexical_only 0 0 = Ok c_t /\
    c_t < c_e.
Proof.
  assert (Hdef : entries_defined lexical_only 0 0).
  { intros p m Hget. destruct p; simpl in Hget; try discriminate.
    injection Hget as <-. eexists. reflexivity. }
  split; [exact Hdef|].
  destruct (@type_bonus_ordering _get_default_config lexical_only 0 0
              (document_field "email" EMAIL) (document_field "email" TEXT)
              (form_field "email" EMAIL) (form_field "email" EMAIL)
              Hdef eq_refl eq_refl (or_introl (conj eq_refl eq_refl)))
    as (c_e & c_t & Hrun1 & Hrun2 & _ & Hstrict).
  exists c_e, c_t. split; [exact Hrun1|]. split; [exact Hrun2|].
  apply Hstrict; [reflexivity|].
  vm_compute in Hrun2. injection Hrun2 as <-. reflexivity.
Defined.

(** C7 as stated fails for the very pairs it names: for identical names the
    lexical and rule-based entries are both [1], the fused score reaches the
    cap with either bonus, and the two confidences are equal. *)
Lemma type_bonus_ordering_counterexample :
  exists c_e c_t,
    _calculate_confidence_score _get_default_config
      (document_field "email" EMAIL) (form_field "email" EMAIL)
      identical_names 0 0 = Ok c_e /\
    _calculate_confidence_score _get_default_config
      (document_field "email" TEXT) (form_field "email" EMAIL)
      identical_names 0 0 = Ok c_t /\
    ~ c_t < c_e.
Proof.
  eexists _, _. split; [vm_compute; reflexivity|].
  split; [vm_compute; reflexivity|].
  vm_compute. discriminate.
Qed.

(** ** The recorded strategy *)

Lemma entries_fold (i j : nat) (l : Dict Matrix) :
  forall (acc scores : Dict Q),
    NoDup (dict_keys acc ++ dict_keys l) ->
    foldM (fun scores km =>
             v <- matrix_get (snd km) i j ;;
             Ok (dict_set scores (fst km) v)) l acc = Ok scores ->
    exists vs,
      scores = acc ++ vs /\
      Forall2 (fun km kv => fst kv = fst km /\
                            matrix_get (snd km) i j = Ok (snd kv)) l vs.
Proof.
  induction l as [|[k m] l IH]; simpl; intros acc scores Hnd H.
  - inv_ok H. exists []. rewrite app_nil_r. split; [reflexivity|constructor].
  - inv_bind H. inv_bind Ha. inv_ok Ha. simpl in *.
    assert (Hk : ~ In k (dict_keys acc)).
    { apply NoDup_remove_2 in Hnd. intros Hin. apply Hnd.
      apply in_or_app. left. exact Hin. }
    rewrite dict_set_new in H by exact Hk.
    destruct (IH (acc ++ [(k, a0)]) scores) as (vs & -> & Hvs).
    + unfold dict_keys in *. rewrite map_app. simpl.
      rewrite <- app_assoc. simpl. exact Hnd.
    + exact H.
    + exists ((k, a0) :: vs). rewrite <- app_assoc. simpl.
      split; [reflexivity|]. constructor; [simpl; auto|exact Hvs].
Qed.

Lemma entries_at_spec (sm : Dict Matrix) (i j : nat) (scores : Dict Q) :
  NoDup (dict_keys sm) ->
  entries_at sm i j = Ok scores ->
  Forall2 (fun km kv => fst kv = fst km /\
                        matrix_get (snd km) i j = Ok (snd kv)) sm scores.
Proof.
  intros Hnd H. unfold entries_at in H.
  destruct (entries_fold i j sm [] Hnd H) as (vs & -> & Hvs). exact Hvs.
Qed.

Lemma entries_keys (i j : nat) (sm : Dict Matrix) (scores : Dict Q) :
  Forall2 (fun km kv => fst kv = fst km /\
                        matrix_get (snd km) i j = Ok (snd kv)) sm scores ->
  dict_keys scores = dict_keys sm.
Proof.
  induction 1 as [|[k m] [k' v] sm scores [Hk _] _ IH]; simpl in *;
    [reflexivity|]. subst. f_equal. exact IH.
Qed.

Lemma entries_lookup (i j : nat) (sm : Dict Matrix) (scores : Dict Q) :
  Forall2 (fun km kv => fst kv = fst km /\
                        matrix_get (snd km) i j = Ok (snd kv)) sm scores ->
  forall k m,
    dict_get sm k = Some m ->
    exists v, matrix_get m i j = Ok v /\ dict_get scores k = Some v.
Proof.
  induction 1 as [|[k0 m0] [k' v] sm scores [Hk Hv] _ IH]; simpl in *;
    intros k m Hget; [discriminate|]. subst k'.
  destruct (String.eqb k0 k).
  - inv_ok Hget. eauto.
  - apply IH. exact Hget.
Qed.

Lemma active_iff (sm : Dict Matrix) (p : Provider) :
  active sm p = true <-> In (provider_key p) (dict_keys sm).
Proof.
  unfold active, dict_mem.
  destruct (dict_get sm (provider_key p)) eqn:Hget.
  - split; [intros _|reflexivity].
    apply dict_get_In in Hget. apply (in_map fst) in Hget. exact Hget.
  - apply dict_get_None in Hget. split; [discriminate|tauto].
Qed.

Lemma strategy_mapping_tag (p : Provider) :
  get_default (dict_get strategy_mapping (provider_key p)) HYBRID
  = provider_tag p.
Proof. destruct p; reflexivity. Qed.

(** What [_determine_matching_strategy] returns on the dictionaries the
    mapper builds. *)
Lemma determine_matching_strategy_spec (sm : Dict Matrix) (i j : nat)
    (s : MatchingStrategy) :
  provider_matrices sm ->
  _determine_matching_strategy sm i j = Ok s ->
  (sm = [] /\ s = EXACT) \/
  (exists p,
     active sm p = true /\ s = provider_tag p /\
     forall q, active sm q = true -> raw_entry sm q i j <= raw_entry sm p i j).
Proof.
  intros [Hnd Hkeys] H. unfold _determine_matching_strategy in H.
  inv_bind H. pose proof (@entries_at_spec sm i j a Hnd Ha) as Hrel.
  pose proof (@entries_keys i j sm a Hrel) as Hk.
  pose proof (@entries_lookup i j sm a Hrel) as Hlook.
  destruct (dict_keys a) as [|k ks] eqn:Hka.
  - inv_ok H. left. split; [|reflexivity].
    destruct sm; [reflexivity|discriminate].
  - inv_ok H. right.
    set (g := fun k => get_default (dict_get a k) 0).
    destruct (py_max_by_split g k ks) as (g1 & g2 & Hsplit & H1 & H2).
    fold g. set (best := py_max_by g k ks) in *.
    assert (Hbest : In best (dict_keys sm)).
    { rewrite <- Hk, Hsplit. apply in_elt. }
    destruct (Hkeys _ Hbest) as [p Hp].
    assert (Hraw : forall q, active sm q = true ->
                             g (provider_key q) = raw_entry sm q i j).
    { intros q Hq. unfold g, raw_entry, active, dict_mem in *.
      destruct (dict_get sm (provider_key q)) as [m|] eqn:Hm; [|discriminate].
      destruct (Hlook _ _ Hm) as (v & Hv & Hs). rewrite Hs, Hv. reflexivity. }
    exists p. rewrite Hp in Hbest. apply active_iff in Hbest.
    split; [exact Hbest|]. split; [rewrite Hp; apply strategy_mapping_tag|].
    intros q Hq. rewrite <- (Hraw q Hq), <- (Hraw p Hbest), <- Hp.
    apply active_iff in Hq. rewrite <- Hk, Hsplit in Hq.
    apply in_app_or in Hq. rewrite Forall_forall in H1, H2.
    destruct Hq as [Hq|[Hq|Hq]].
    + apply Qlt_le_weak. apply H1. exact Hq.
    + rewrite <- Hq. apply Qle_refl.
    + apply H2. exact Hq.
Qed.

Lemma compute_matrices_wf E M ds fs sm :
  _compute_similarity_matrices E M ds fs = Ok sm -> provider_matrices sm.
Proof.
  unfold _compute_similarity_matrices. intros H.
  destruct (truthy (enable_fuzzy_matching (config M)));
    destruct (truthy (enable_semantic_matching (config M)) &&
              is_some (bert_model M));
    destruct (truthy (enable_rule_based (config M)));
    simpl in H;
    repeat match goal with
           | H0 : bind _ _ = Ok _ |- _ => inv_bind H0
           end;
    repeat match goal with
           | H0 : Ok _ = Ok _ |- _ => inv_ok H0
           end;
    simpl;
    (split;
     [ repeat constructor; simpl; intuition discriminate
     | intros k Hk; simpl in Hk;
       repeat (destruct Hk as [<-|Hk];
               [first [ exists Lexical; reflexivity
                      | exists Semantic; reflexivity
                      | exists RuleBased; reflexivity ]|]);
       destruct Hk ]).
Qed.

Lemma fuzzy_matrix_first_name (E : External) :
  fuzz_ratio E "firstname" "firstname" = 100 ->
  fuzz_partial_ratio E "firstname" "firstname" = 100 ->
  fuzz_token_sort_ratio E "firstname" "firstname" = 100 ->
  _compute_fuzzy_matrix E ["firstName"] ["firstName"] =
  _compute_fuzzy_matrix offline ["firstName"] ["firstName"].
Proof.
  intros H1 H2 H3. unfold _compute_fuzzy_matrix.
  cbn [map]. change (lower "firstName") with "firstname".
  rewrite H1, H2, H3. reflexivity.
Qed.

Lemma exact_match_scenario (E : External) (dt ft : FieldType) :
  fuzz_ratio E "firstname" "firstname" = 100 ->
  fuzz_partial_ratio E "firstname" "firstname" = 100 ->
  fuzz_token_sort_ratio E "firstname" "firstname" = 100 ->
  exists m,
    map_fields E (__init__ E (Some fixture_config))
      [document_field "firstName" dt] [form_field "firstName" ft] = Ok [m] /\
    source_field m = "firstName" /\
    target_field m = "firstName" /\
    9 # 10 < confidence_score m /\
    (matching_strategy m = FUZZY \/ matching_strategy m = RULE_BASED).
Proof.
  intros H1 H2 H3.
  pose proof (fuzzy_matrix_first_name E H1 H2 H3) as Hfz.
  unfold map_fields, _compute_similarity_matrices.
  change (config (__init__ E (Some fixture_config))) with fixture_config.
  cbn [map doc_name form_name document_field form_field
       truthy enable_fuzzy_matching enable_semantic_matching
       enable_rule_based fixture_config andb].
  rewrite Hfz.
  destruct dt, ft;
    (eexists; split; [vm_compute; reflexivity|];
     repeat split; try reflexivity; left; reflexivity).
Qed.

(** The strategy of a kept candidate. For every candidate that
    [_find_mapping_candidates] keeps, over a dictionary of provider
    matrices, the recorded strategy is EXACT when no provider contributed
    and otherwise the tag (lexical to FUZZY, semantic to SEMANTIC,
    rule-based to RULE_BASED) of an active provider whose raw entry at the
    pair is the largest among the active providers; HYBRID is never
    recorded. The dictionaries that the mapper computes are of this kind.
    With the test suite's configuration and a lexical provider that rates
    equal strings at 100, mapping ["firstName"] against the single target
    ["firstName"] yields exactly one mapping, with confidence above [0.9]
    and the tag of one of the two active providers. *)
Theorem recorded_strategy_is_a_dominant_provider :
  (forall cfg d fs sm i cs,
     provider_matrices sm ->
     _find_mapping_candidates cfg d fs sm i = Ok cs ->
     Forall
       (fun c =>
          exists j f,
            nth_error fs j = Some f /\
            target_field c = form_name f /\
            ((sm = [] /\ matching_strategy c = EXACT) \/
             (exists p,
                active sm p = true /\
                matching_strategy c = provider_tag p /\
                forall q, active sm q = true ->
                          raw_entry sm q i j <= raw_entry sm p i j)) /\
            matching_strategy c <> HYBRID)
       cs) /\
  (forall E M ds fs sm,
     _compute_similarity_matrices E M ds fs = Ok sm -> provider_matrices sm) /\
  (forall E dt ft,
     fuzz_ratio E "firstname" "firstname" = 100 ->
     fuzz_partial_ratio E "firstname" "firstname" = 100 ->
     fuzz_token_sort_ratio E "firstname" "firstname" = 100 ->
     exists m,
       map_fields E (__init__ E (Some fixture_config))
         [document_field "firstName" dt] [form_field "firstName" ft]
         = Ok [m] /\
       source_field m = "firstName" /\
       target_field m = "firstName" /\
       9 # 10 < confidence_score m /\
       (matching_strategy m = FUZZY \/ matching_strategy m = RULE_BASED)).
Proof.
  split; [|split; [apply compute_matrices_wf|apply exact_match_scenario]].
  intros cfg d fs sm i cs Hwf H.
  apply find_mapping_candidates_spec in H.
  eapply Forall_impl; [|exact H]. clear H cs.
  intros c (k & f & thr & Hk & _ & Ht & _ & _ & _ & Hs). simpl in Hs.
  exists k, f. split; [exact Hk|]. split; [exact Ht|].
  destruct (@determine_matching_strategy_spec sm i k _ Hwf Hs)
    as [[Hnil Hex]|(p & Hp & Htag & Hmax)].
  - split; [left; auto|]. rewrite Hex. discriminate.
  - split; [right; exists p; auto|]. rewrite Htag. destruct p; discriminate.
Qed.

Lemma recorded_strategy_is_a_dominant_provider_witness :
  provider_matrices identical_names /\
  (exists cs,
     _find_mapping_candidates fixture_config
       (document_field "firstName" NAME) [form_field "firstName" NAME]
       identical_names 0 = Ok cs /\
     cs <> [] /\
     Forall (fun c => matching_strategy c <> HYBRID) cs) /\
  (exists m,
     map_fields offline (__init__ offline (Some fixture_config))
       [document_field "firstName" NAME] [form_field "firstName" NAME]
       = Ok [m] /\
     9 # 10 < confidence_score m).
Proof.
  destruct recorded_strategy_is_a_dominant_provider as (Hgen & _ & Hscen).
  assert (Hwf : provider_matrices identical_names).
  { split.
    - repeat constructor; simpl; intuition discriminate.
    - intros k [<-|[<-|[]]]; [exists Lexical|exists RuleBased]; reflexivity. }
  split; [exact Hwf|]. split.
  - eexists. split; [vm_compute; reflexivity|]. split; [discriminate|].
    match goal with
    | |- Forall _ ?cs =>
        assert (Hrun : _find_mapping_candidates fixture_config
                         (document_field "firstName" NAME)
                         [form_field "firstName" NAME] identical_names 0
                       = Ok cs) by (vm_compute; reflexivity)
    end.
    eapply Forall_impl; [|exact (Hgen _ _ _ _ _ _ Hwf Hrun)].
    intros c (j & f & _ & _ & _ & Hne). exact Hne.
  - destruct (Hscen offline NAME NAME eq_refl eq_refl eq_refl)
      as (m & Hrun & _ & _ & Hconf & _).
    exists m. split; assumption.
Defined.

(** C3 fails on the code. With the lexical and the rule-based provider
    active, the names ["firstName"] and ["firstName"] give both providers
    the entry [1]; the stated priority order (rule-based before semantic
    before lexical) selects the rule-based provider, as the test suite's
    [test_exact_match_mapping] expects, but [_determine_matching_strategy]
    takes [max] over the dictionary in insertion order and records FUZZY:
    [map_fields] returns exactly one mapping, of confidence above [0.9],
    whose strategy is neither RULE_BASED nor EXACT. *)
Theorem exact_match_tie_records_fuzzy :
  _determine_matching_strategy identical_names 0 0 = Ok FUZZY /\
  spec_dominant_provider identical_names 0 0 = Some RuleBased /\
  exists m,
    map_fields offline (__init__ offline (Some fixture_config))
      [document_field "firstName" NAME] [form_field "firstName" NAME]
      = Ok [m] /\
    9 # 10 < confidence_score m /\
    matching_strategy m = FUZZY /\
    ~ (matching_strategy m = RULE_BASED \/ matching_strategy m = EXACT).
Proof.
  split; [vm_compute; reflexivity|]. split; [vm_compute; reflexivity|].
  eexists. split; [vm_compute; reflexivity|].
  split; [reflexivity|]. split; [reflexivity|].
  simpl. intros [H|H]; discriminate.
Qed.

Lemma threshold_monotonicity_witness :
  4 # 10 <= 9 # 10 /\
  (exists r_hi r_lo,
     map_fields offline
       (with_config (__init__ offline (Some edge_case_config))
          (set_confidence_threshold edge_case_config (9 # 10)))
       [document_field "first_name" NAME] [form_field "firstName" NAME]
       = Ok r_hi /\
     map_fields offline
       (with_config (__init__ offline (Some edge_case_config))
          (set_confidence_threshold edge_case_config (4 # 10)))
       [document_field "first_name" NAME] [form_field "firstName" NAME]
       = Ok r_lo /\
     (List.length r_hi <= List.length r_lo)%nat) /\
  (exists c_lo c_hi,
     _find_mapping_candidates
       (set_similarity_threshold edge_case_config (4 # 10))
       (document_field "first_name" NAME) [form_field "firstName" NAME]
       near_match 0 = Ok c_lo /\
     _find_mapping_candidates
       (set_similarity_threshold edge_case_config (9 # 10))
       (document_field "first_name" NAME) [form_field "firstName" NAME]
       near_match 0 = Ok c_hi /\
     (List.length c_hi <= List.length c_lo)%nat).
Proof.
  assert (Hle : 4 # 10 <= 9 # 10) by discriminate.
  split; [exact Hle|].
  destruct (threshold_monotonicity Hle) as [Hmap Hcand]. split.
  - assert (Hhi : map_fields offline
                    (with_config (__init__ offline (Some edge_case_config))
                       (set_confidence_threshold
                          (config (__init__ offline (Some edge_case_config)))
                          (9 # 10)))
                    [document_field "first_name" NAME]
                    [form_field "firstName" NAME] = Ok [])
      by (vm_compute; reflexivity).
    destruct (Hmap _ _ _ _ _ Hhi) as (r_lo & Hlo & Hlen).
    exists [], r_lo. split; [exact Hhi|]. split; [exact Hlo|exact Hlen].
  - destruct (_find_mapping_candidates
                (set_similarity_threshold edge_case_config (4 # 10))
                (document_field "first_name" NAME)
                [form_field "firstName" NAME] near_match 0)
      as [c_lo|e] eqn:Hlo; [|vm_compute in Hlo; discriminate].
    destruct (Hcand _ _ _ _ _ _ Hlo) as (c_hi & Hhi & Hlen).
    exists c_lo, c_hi. split; [reflexivity|]. split; [exact Hhi|exact Hlen].
Defined.

(** ** Construction *)

(** C8, as the code has it. The constructor validates nothing: whatever the
    configuration, it returns a mapper whose configuration is the one it
    was given (the defaults for a missing or empty one), thresholds and
    weights untouched; the only option it may rewrite is
    [enable_semantic_matching], reset to [False] when the NLP components
    fail to load. *)
Theorem init_performs_no_validation (E : External) (cfg : option Config) :
  (config (__init__ E cfg) = chosen_config cfg \/
   config (__init__ E cfg)
   = set_enable_semantic_matching (chosen_config cfg) false) /\
  similarity_threshold (config (__init__ E cfg))
  = similarity_threshold (chosen_config cfg) /\
  confidence_threshold (config (__init__ E cfg))
  = confidence_threshold (chosen_config cfg) /\
  fuzzy_ratio_weight (config (__init__ E cfg))
  = fuzzy_ratio_weight (chosen_config cfg) /\
  semantic_weight (config (__init__ E cfg))
  = semantic_weight (chosen_config cfg) /\
  rule_weight (config (__init__ E cfg)) = rule_weight (chosen_config cfg).
Proof.
  unfold __init__. fold (chosen_config cfg).
  generalize (chosen_config cfg). intros c.
  unfold _initialize_components. cbn [config].
  destruct (truthy (enable_semantic_matching c)); [|simpl; tauto].
  destruct (get_item "bert_model_name" (bert_model_name c));
    [|simpl; tauto].
  destruct (AutoTokenizer_from_pretrained E a); [|simpl; tauto].
  destruct (AutoModel_from_pretrained E a); [|simpl; tauto].
  cbn [config].
  destruct (get_item "spacy_model" (spacy_model c)); [|simpl; tauto].
  destruct (spacy_load E a2); simpl; tauto.
Qed.

(** C8 as stated fails: a configuration with a negative weight and a
    threshold of [2] is accepted and stored as it is. *)
Lemma init_accepts_invalid_configuration :
  valid_config misconfigured = false /\
  config (__init__ offline (Some misconfigured)) = misconfigured /\
  exists res,
    map_fields offline (__init__ offline (Some misconfigured))
      [document_field "firstName" NAME] [form_field "firstName" NAME]
    = Ok res.
Proof.
  split; [reflexivity|]. split; [reflexivity|].
  eexists. vm_compute. reflexivity.
Qed.

(** ** The statistical fallback *)

(** C9 fails on the code. When the semantic provider is active, the
    embedding path raises and the vectorizer raises too,
    [_compute_tfidf_similarity] lets the exception through, and so do
    [_compute_semantic_matrix] and [map_fields]: no matrix of zeros is
    returned. *)
Theorem tfidf_fallback_propagates
    (E : External) (M : Mapper) (docs : list DocumentField)
    (fs : list FormField) (e0 e : PyExn) :
  truthy (enable_semantic_matching (config M)) = true ->
  is_some (bert_model M) = true ->
  tfidf_vectorizer M = Some tt ->
  (doc_embeddings <- _get_bert_embeddings E M (map doc_name docs) ;;
   form_embeddings <- _get_bert_embeddings E M (map form_name fs) ;;
   cosine_similarity E doc_embeddings form_embeddings) = Raised e0 ->
  tfidf_fit_transform E (map doc_name docs ++ map form_name fs) = Raised e ->
  _compute_tfidf_similarity E M (map doc_name docs) (map form_name fs)
  = Raised e /\
  _compute_semantic_matrix E M (map doc_name docs) (map form_name fs)
  = Raised e /\
  map_fields E M docs fs = Raised e.
Proof.
  intros Hen Hbert Hvec Hemb Hfit.
  assert (Htf : _compute_tfidf_similarity E M (map doc_name docs)
                  (map form_name fs) = Raised e).
  { unfold _compute_tfidf_similarity. rewrite Hvec, Hfit. reflexivity. }
  assert (Hsem : _compute_semantic_matrix E M (map doc_name docs)
                   (map form_name fs) = Raised e).
  { unfold _compute_semantic_matrix. rewrite Hemb. simpl. exact Htf. }
  split; [exact Htf|]. split; [exact Hsem|].
  unfold map_fields, _compute_similarity_matrices.
  rewrite Hen, Hbert, Hsem. reflexivity.
Qed.

Lemma tfidf_fallback_propagates_witness :
  map_fields failing_backend (__init__ failing_backend None)
    [document_field "the" TEXT] [form_field "a" TEXT]
  = Raised (ValueError "empty vocabulary").
Proof.
  apply (@tfidf_fallback_propagates failing_backend
           (__init__ failing_backend None)
           [document_field "the" TEXT] [form_field "a" TEXT]
           (LibraryError "backend error") (ValueError "empty vocabulary"));
    reflexivity.
Defined.

(** * Further properties of the code *)

(** ** The rule table *)

Lemma py_max_ge_l (a b : Q) : a <= py_max a b.
Proof.
  unfold py_max. destruct (Qltb a b) eqn:H; [|apply Qle_refl].
  apply Qltb_true in H. apply Qlt_le_weak. exact H.
Qed.

Lemma py_max_ge_r (a b : Q) : b <= py_max a b.
Proof.
  unfold py_max. destruct (Qltb a b) eqn:H; [apply Qle_refl|].
  apply Qltb_false in H. exact H.
Qed.

Lemma py_max_lub (a b c : Q) : a <= c -> b <= c -> py_max a b <= c.
Proof. intros Ha Hb. unfold py_max. destruct (Qltb a b); assumption. Qed.

Lemma lower_ascii_idem (c : ascii) : lower_ascii (lower_ascii c) = lower_ascii c.
Proof.
  destruct c as [[] [] [] [] [] [] [] []]; vm_compute; reflexivity.
Qed.

Lemma lower_idem (s : string) : lower (lower s) = lower s.
Proof.
  induction s as [|c s IH]; simpl; [reflexivity|].
  rewrite lower_ascii_idem, IH. reflexivity.
Qed.

Lemma set_inter_le_union (a b : list string) :
  (List.length (set_inter a b) <= List.length (set_union a b))%nat.
Proof.
  unfold set_inter, set_union. rewrite length_app.
  pose proof (filter_length_le (fun x => mem_string x b) a). lia.
Qed.

Lemma jaccard_range (o t : nat) :
  (o <= t)%nat -> (0 < t)%nat ->
  0 <= inject_Z (Z.of_nat o) / inject_Z (Z.of_nat t) * (8 # 10) /\
  inject_Z (Z.of_nat o) / inject_Z (Z.of_nat t) * (8 # 10) <= 8 # 10.
Proof.
  intros Hot Ht.
  assert (Htq : 0 < inject_Z (Z.of_nat t)).
  { change 0 with (inject_Z 0). rewrite <- Zlt_Qlt. lia. }
  assert (Hoq : 0 <= inject_Z (Z.of_nat o)).
  { change 0 with (inject_Z 0). rewrite <- Zle_Qle. lia. }
  assert (Hle : inject_Z (Z.of_nat o) <= inject_Z (Z.of_nat t)).
  { rewrite <- Zle_Qle. lia. }
  split.
  - apply Qmult_le_0_compat; [|discriminate].
    apply Qle_shift_div_l; [exact Htq|]. rewrite Qmult_0_l. exact Hoq.
  - apply Qle_trans with (1 * (8 # 10)); [|apply Qle_refl].
    apply Qmult_le_compat_r; [|discriminate].
    apply Qle_shift_div_r; [exact Htq|]. rewrite Qmult_1_l. exact Hle.
Qed.

(** The loop over [patterns]: the score stays between its start and
    [0.9], and reaches [0.9] as soon as one pair of patterns matches. *)
Lemma pattern_loop_range (dl fl : string) (l : list (regex * regex)) :
  forall s, 0 <= s -> s <= 9 # 10 ->
    let r := fold_left
               (fun score p =>
                  if re_search (fst p) dl && re_search (snd p) fl
                  then py_max score (9 # 10) else score) l s in
    s <= r /\ r <= 9 # 10.
Proof.
  induction l as [|p l IH]; simpl; intros s H0 H9.
  - split; [apply Qle_refl|exact H9].
  - destruct (re_search (fst p) dl && re_search (snd p) fl).
    + destruct (IH (py_max s (9 # 10))) as [H1 H2].
      * eapply Qle_trans; [exact H0|apply py_max_ge_l].
      * apply py_max_lub; [exact H9|apply Qle_refl].
      * split; [|exact H2].
        eapply Qle_trans; [apply py_max_ge_l|exact H1].
    + apply IH; assumption.
Qed.

Lemma pattern_loop_hit (dl fl : string) (l : list (regex * regex))
    (p : regex * regex) :
  In p l -> re_search (fst p) dl = true -> re_search (snd p) fl = true ->
  forall s, 0 <= s -> s <= 9 # 10 ->
    9 # 10 <= fold_left
                (fun score p =>
                   if re_search (fst p) dl && re_search (snd p) fl
                   then py_max score (9 # 10) else score) l s.
Proof.
  induction l as [|q l IH]; simpl; intros Hin Hd Hf s H0 H9; [tauto|].
  destruct Hin as [->|Hin].
  - rewrite Hd, Hf. simpl.
    destruct (@pattern_loop_range dl fl l (py_max s (9 # 10))) as [H1 _].
    + eapply Qle_trans; [exact H0|apply py_max_ge_l].
    + apply py_max_lub; [exact H9|apply Qle_refl].
    + eapply Qle_trans; [apply py_max_ge_r|exact H1].
  - destruct (re_search (fst q) dl && re_search (snd q) fl).
    + apply IH; auto.
      * eapply Qle_trans; [exact H0|apply py_max_ge_l].
      * apply py_max_lub; [exact H9|apply Qle_refl].
    + apply IH; auto.
Qed.

(** The value of [_apply_mapping_rules] on names that differ after
    lowercasing, as the chain of its three [max] updates. *)
Lemma apply_mapping_rules_unequal (a b : string) :
  String.eqb (lower a) (lower b) = false ->
  exists s1 s2,
    0 <= s1 /\ s1 <= 9 # 10 /\
    (forall p, In p patterns ->
               re_search (fst p) (lower a) = true ->
               re_search (snd p) (lower b) = true -> 9 # 10 <= s1) /\
    s1 <= s2 /\ s2 <= 9 # 10 /\
    (contains (lower b) (lower a) || contains (lower a) (lower b) = true ->
     7 # 10 <= s2) /\
    s2 <= _apply_mapping_rules a b /\ _apply_mapping_rules a b <= 9 # 10.
Proof.
  intros Hne. unfold _apply_mapping_rules. rewrite Hne.
  set (s1 := fold_left _ patterns 0).
  destruct (@pattern_loop_range (lower a) (lower b) patterns 0) as [H10 H19];
    [apply Qle_refl|discriminate|]. fold s1 in H10, H19.
  set (s2 := if contains (lower b) (lower a) || contains (lower a) (lower b)
             then py_max s1 (7 # 10) else s1).
  assert (H12 : s1 <= s2).
  { unfold s2. destruct (_ || _); [apply py_max_ge_l|apply Qle_refl]. }
  assert (H29 : s2 <= 9 # 10).
  { unfold s2. destruct (_ || _); [|exact H19].
    apply py_max_lub; [exact H19|discriminate]. }
  exists s1, s2. split; [exact H10|]. split; [exact H19|]. split.
  { intros p Hp Hd Hf.
    apply (@pattern_loop_hit (lower a) (lower b) patterns p Hp Hd Hf);
      [apply Qle_refl|discriminate]. }
  split; [exact H12|]. split; [exact H29|]. split.
  { intros Hc. unfold s2. rewrite Hc. apply py_max_ge_r. }
  destruct (0 <? _)%nat eqn:Ht.
  - apply Nat.ltb_lt in Ht.
    destruct (jaccard_range (set_inter_le_union _ _) Ht) as [_ Hj].
    split; [apply py_max_ge_l|].
    apply py_max_lub; [exact H29|].
    eapply Qle_trans; [exact Hj|discriminate].
  - split; [apply Qle_refl|exact H29].
Qed.

Lemma prefix_match_alt (s : string) :
  forall r1 r2,
    prefix_match (Ralt r1 r2) s = prefix_match r1 s || prefix_match r2 s.
Proof.
  induction s as [|c s IH]; intros r1 r2; simpl.
  - destruct (nullable r1), (nullable r2); reflexivity.
  - rewrite IH.
    destruct (nullable r1), (nullable r2),
      (prefix_match (deriv c r1) s), (prefix_match (deriv c r2) s);
      reflexivity.
Qed.

Lemma prefix_match_null_cat (s : string) (r : regex) :
  prefix_match (Rcat Rnull r) s = false.
Proof. induction s as [|c s IH]; simpl; [reflexivity|exact IH]. Qed.

Lemma prefix_match_eps_cat (s : string) (r : regex) :
  prefix_match (Rcat Reps r) s = prefix_match r s.
Proof.
  destruct s as [|c s]; simpl.
  - destruct (nullable r); reflexivity.
  - rewrite prefix_match_alt, prefix_match_null_cat. reflexivity.
Qed.

(** Searching for a literal is the substring test. *)
Lemma prefix_match_literal (w : string) :
  forall s, prefix_match (Rlit w) s = String.prefix w s.
Proof.
  induction w as [|c w IH]; intros s.
  - destruct s; reflexivity.
  - destruct s as [|a s]; [reflexivity|].
    cbn [Rlit prefix_match nullable deriv andb orb String.prefix].
    destruct (Ascii.ascii_dec c a) as [->|Hne].
    + rewrite Ascii.eqb_refl, prefix_match_eps_cat. apply IH.
    + destruct (Ascii.eqb a c) eqn:Heq.
      * apply Ascii.eqb_eq in Heq. congruence.
      * apply prefix_match_null_cat.
Qed.

Lemma re_search_literal (w s : string) :
  re_search (Rlit w) s = contains s w.
Proof.
  induction s as [|a s IH]; cbn [re_search contains].
  - rewrite prefix_match_literal. reflexivity.
  - rewrite prefix_match_literal, IH. reflexivity.
Qed.

Lemma Qeq_one_not_le_nine_tenths (x : Q) : x <= 9 # 10 -> ~ x == 1.
Proof.
  intros Hle Heq. rewrite Heq in Hle.
  apply (Qle_not_lt _ _ Hle). reflexivity.
Qed.

(** X1. For names of ASCII characters, the rule-based score lies in
    [[0, 1]]; it is [1] exactly when the two names are equal after
    lowercasing, and at most [0.9] otherwise. *)
Theorem rule_score_range_and_exact_match (a b : string) :
  ascii_only a -> ascii_only b ->
  0 <= _apply_mapping_rules a b /\
  _apply_mapping_rules a b <= 1 /\
  (_apply_mapping_rules a b == 1 <-> lower a = lower b) /\
  (lower a <> lower b -> _apply_mapping_rules a b <= 9 # 10).
Proof.
  intros _ _.
  destruct (String.eqb (lower a) (lower b)) eqn:Heq.
  - assert (H1 : _apply_mapping_rules a b = 1).
    { unfold _apply_mapping_rules. rewrite Heq. reflexivity. }
    apply String.eqb_eq in Heq. rewrite H1.
    repeat split; try discriminate; try tauto.
  - destruct (apply_mapping_rules_unequal a b Heq)
      as (s1 & s2 & H0 & _ & _ & H12 & _ & _ & H2 & H9).
    apply String.eqb_neq in Heq.
    split; [eapply Qle_trans; [exact H0|];
            eapply Qle_trans; [exact H12|exact H2]|].
    split; [eapply Qle_trans; [exact H9|discriminate]|].
    split; [|intros _; exact H9].
    split; [|tauto].
    intros H1. exfalso. exact (Qeq_one_not_le_nine_tenths H9 H1).
Qed.

Lemma rule_score_range_and_exact_match_witness :
  _apply_mapping_rules "FirstName" "FIRSTNAME" == 1 /\
  _apply_mapping_rules "first_name" "firstName" <= 9 # 10.
Proof.
  split.
  - destruct (@rule_score_range_and_exact_match "FirstName" "FIRSTNAME"
                eq_refl eq_refl) as (_ & _ & H & _).
    apply H. reflexivity.
  - destruct (@rule_score_range_and_exact_match "first_name" "firstName"
                eq_refl eq_refl) as (_ & _ & _ & H).
    apply H. discriminate.
Defined.

(** X2. For names of ASCII characters, when one lowercased name occurs
    inside the other, the rule-based score is at least [0.7]. *)
Theorem rule_score_substring (a b : string) :
  ascii_only a -> ascii_only b ->
  contains (lower b) (lower a) = true \/ contains (lower a) (lower b) = true ->
  7 # 10 <= _apply_mapping_rules a b.
Proof.
  intros _ _ Hc.
  destruct (String.eqb (lower a) (lower b)) eqn:Heq.
  - unfold _apply_mapping_rules. rewrite Heq. discriminate.
  - destruct (apply_mapping_rules_unequal a b Heq)
      as (s1 & s2 & _ & _ & _ & _ & _ & H7 & H2 & _).
    eapply Qle_trans; [apply H7|exact H2].
    apply orb_true_iff. exact Hc.
Qed.

Lemma rule_score_substring_witness :
  contains (lower "Home_Address") (lower "address") = true /\
  7 # 10 <= _apply_mapping_rules "address" "Home_Address".
Proof.
  assert (H : contains (lower "Home_Address") (lower "address") = true)
    by reflexivity.
  split; [exact H|].
  apply (@rule_score_substring "address" "Home_Address" eq_refl eq_refl).
  left. exact H.
Defined.

Lemma rule_score_pattern_pair (a b : string) (p : regex * regex) :
  In p patterns ->
  re_search (fst p) (lower a) = true ->
  re_search (snd p) (lower b) = true ->
  9 # 10 <= _apply_mapping_rules a b.
Proof.
  intros Hp Hd Hf.
  destruct (String.eqb (lower a) (lower b)) eqn:Heq.
  - unfold _apply_mapping_rules. rewrite Heq. discriminate.
  - destruct (apply_mapping_rules_unequal a b Heq)
      as (s1 & s2 & _ & _ & Hhit & H12 & _ & _ & H2 & _).
    eapply Qle_trans; [exact (Hhit p Hp Hd Hf)|].
    eapply Qle_trans; [exact H12|exact H2].
Qed.

(** X3. For an entry of the rule table whose two patterns are one literal
    keyword (such as "city", "state" and "amount"), two names that both
    contain the keyword after lowercasing score at least [0.9]. *)
Theorem rule_score_shared_keyword (a b k : string) :
  In (Rlit k, Rlit k) patterns ->
  contains (lower a) k = true ->
  contains (lower b) k = true ->
  9 # 10 <= _apply_mapping_rules a b.
Proof.
  intros Hp Ha Hb.
  apply (@rule_score_pattern_pair a b (Rlit k, Rlit k) Hp); simpl;
    rewrite re_search_literal; assumption.
Qed.

Lemma rule_score_shared_keyword_witness :
  9 # 10 <= _apply_mapping_rules "Birth City" "city_of_residence".
Proof.
  apply (@rule_score_shared_keyword "Birth City" "city_of_residence" "city").
  - simpl. tauto.
  - reflexivity.
  - reflexivity.
Defined.

(** ** The computed matrices *)

Lemma matrix_get_grid {A B} (g : A -> B -> Q) (ds : list A) (fs : list B)
    (i j : nat) :
  matrix_get (map (fun d => map (fun f => g d f) fs) ds) i j =
  match nth_error ds i, nth_error fs j with
  | Some d, Some f => Ok (g d f)
  | _, _ => Raised IndexError
  end.
Proof.
  unfold matrix_get. rewrite nth_error_map.
  destruct (nth_error ds i) as [d|]; simpl; [|reflexivity].
  rewrite nth_error_map. destruct (nth_error fs j); reflexivity.
Qed.

(** X4. Reading the rule-based and the lexical matrix back: at a position
    inside the grid the entry is the score of the two names at that
    position; at any other position the read raises [IndexError]. *)
Theorem computed_matrix_lookup (E : External) (ds fs : list string)
    (i j : nat) :
  matrix_get (_compute_rule_based_matrix ds fs) i j =
  match nth_error ds i, nth_error fs j with
  | Some d, Some f => Ok (_apply_mapping_rules d f)
  | _, _ => Raised IndexError
  end /\
  matrix_get (_compute_fuzzy_matrix E ds fs) i j =
  match nth_error ds i, nth_error fs j with
  | Some d, Some f =>
      Ok (fuzz_ratio E (lower d) (lower f) / 100 * (4 # 10)
          + fuzz_partial_ratio E (lower d) (lower f) / 100 * (3 # 10)
          + fuzz_token_sort_ratio E (lower d) (lower f) / 100 * (3 # 10))
  | _, _ => Raised IndexError
  end.
Proof.
  unfold _compute_rule_based_matrix, _compute_fuzzy_matrix.
  rewrite (matrix_get_grid _apply_mapping_rules).
  rewrite (matrix_get_grid
             (fun d f =>
                fuzz_ratio E (lower d) (lower f) / 100 * (4 # 10)
                + fuzz_partial_ratio E (lower d) (lower f) / 100 * (3 # 10)
                + fuzz_token_sort_ratio E (lower d) (lower f) / 100 * (3 # 10))).
  split; reflexivity.
Qed.

Lemma rule_score_lower (a b : string) :
  _apply_mapping_rules (lower a) (lower b) = _apply_mapping_rules a b.
Proof. unfold _apply_mapping_rules. rewrite !lower_idem. reflexivity. Qed.

Lemma compute_matrices_inactive E M ds fs :
  semantic_inactive M ->
  _compute_similarity_matrices E M ds fs =
  Ok ((if truthy (enable_fuzzy_matching (config M))
       then [("fuzzy", _compute_fuzzy_matrix E ds fs)] else []) ++
      (if truthy (enable_rule_based (config M))
       then [("rule_based", _compute_rule_based_matrix ds fs)] else [])).
Proof.
  unfold semantic_inactive, _compute_similarity_matrices. intros ->.
  destruct (truthy (enable_fuzzy_matching (config M))),
    (truthy (enable_rule_based (config M))); reflexivity.
Qed.

(** X5. Without the semantic provider the similarity matrices depend on
    the names only up to ASCII case: lowercasing every name leaves every
    matrix unchanged. *)
Theorem matrices_case_insensitive (E : External) (M : Mapper)
    (ds fs : list string) :
  semantic_inactive M ->
  _compute_similarity_matrices E M (map lower ds) (map lower fs) =
  _compute_similarity_matrices E M ds fs.
Proof.
  intros Hin. rewrite !(compute_matrices_inactive E _ _ Hin).
  assert (Hf : _compute_fuzzy_matrix E (map lower ds) (map lower fs)
               = _compute_fuzzy_matrix E ds fs).
  { unfold _compute_fuzzy_matrix. rewrite map_map. apply map_ext.
    intros d. rewrite map_map. apply map_ext. intros f.
    rewrite !lower_idem. reflexivity. }
  assert (Hr : _compute_rule_based_matrix (map lower ds) (map lower fs)
               = _compute_rule_based_matrix ds fs).
  { unfold _compute_rule_based_matrix. rewrite map_map. apply map_ext.
    intros d. rewrite map_map. apply map_ext. intros f.
    apply rule_score_lower. }
  rewrite Hf, Hr. reflexivity.
Qed.

Lemma matrices_case_insensitive_witness :
  _compute_similarity_matrices offline (__init__ offline (Some fixture_config))
    (map lower ["FirstName"]) (map lower ["FIRSTNAME"]) =
  _compute_similarity_matrices offline (__init__ offline (Some fixture_config))
    ["FirstName"] ["FIRSTNAME"].
Proof.
  apply (@matrices_case_insensitive offline
           (__init__ offline (Some fixture_config))
           ["FirstName"] ["FIRSTNAME"]).
  reflexivity.
Defined.

(** ** When [map_fields] returns and when it raises *)

Lemma shaped_computed E M ds fs sm :
  semantic_inactive M ->
  _compute_similarity_matrices E M ds fs = Ok sm ->
  shaped (List.length ds) (List.length fs) sm.
Proof.
  intros Hin H. rewrite (compute_matrices_inactive E _ _ Hin) in H.
  inv_ok H. intros k mat Hk i j Hi Hj.
  apply nth_error_Some in Hi. apply nth_error_Some in Hj.
  destruct (nth_error ds i) as [d|] eqn:Hd; [|congruence].
  destruct (nth_error fs j) as [f|] eqn:Hf; [|congruence].
  destruct (computed_matrix_lookup E ds fs i j) as [Hr Hz].
  rewrite Hd, Hf in Hr, Hz.
  apply in_app_or in Hk. destruct Hk as [Hk|Hk].
  - destruct (truthy (enable_fuzzy_matching (config M))); [|destruct Hk].
    destruct Hk as [[= <- <-]|[]]. eauto.
  - destruct (truthy (enable_rule_based (config M))); [|destruct Hk].
    destruct Hk as [[= <- <-]|[]]. eauto.
Qed.

Lemma entries_defined_shaped n m sm i j :
  shaped n m sm -> (i < n)%nat -> (j < m)%nat -> entries_defined sm i j.
Proof.
  intros Hs Hi Hj p mat Hget. apply dict_get_In in Hget.
  exact (Hs _ _ Hget i j Hi Hj).
Qed.

Lemma entries_fold_total (i j : nat) (l : Dict Matrix) :
  (forall k mat, In (k, mat) l -> exists v, matrix_get mat i j = Ok v) ->
  forall acc : Dict Q,
  exists b,
    foldM (fun scores km =>
             v <- matrix_get (snd km) i j ;;
             Ok (dict_set scores (fst km) v)) l acc = Ok b.
Proof.
  induction l as [|[k mat] l IH]; intros Hall acc; simpl.
  - eauto.
  - destruct (Hall k mat (or_introl eq_refl)) as [v Hv]. rewrite Hv. simpl.
    apply IH. intros k' mat' Hin. apply (Hall k' mat'). right. exact Hin.
Qed.

Lemma entries_at_shaped n m sm i j :
  shaped n m sm -> (i < n)%nat -> (j < m)%nat ->
  exists b, entries_at sm i j = Ok b.
Proof.
  intros Hs Hi Hj. unfold entries_at. apply entries_fold_total.
  intros k mat Hin. exact (Hs _ _ Hin i j Hi Hj).
Qed.

Lemma confidence_total cfg d f n m sm i j :
  shaped n m sm -> (i < n)%nat -> (j < m)%nat ->
  exists c, _calculate_confidence_score cfg d f sm i j = Ok c.
Proof.
  intros Hs Hi Hj.
  destruct (@confidence_closed_form cfg d f sm i j
              (entries_defined_shaped Hs Hi Hj)) as (S & W & _ & _ & H).
  eauto.
Qed.

Lemma candidates_from_cons cfg d f fs sm i j :
  candidates_from cfg d (f :: fs) sm i j =
  (confidence <- _calculate_confidence_score cfg d f sm i j ;;
   threshold <- get_item "similarity_threshold" (similarity_threshold cfg) ;;
   here <-
     (if Qgeb confidence threshold then
        strategy <- _determine_matching_strategy sm i j ;;
        breakdown <- _get_similarity_breakdown sm i j ;;
        Ok [ {| source_field := doc_name d;
                target_field := form_name f;
                confidence_score := confidence;
                field_type := _infer_field_type d f;
                matching_strategy := strategy;
                metadata := Some
                  {| doc_field_type := FieldType_value (doc_type d);
                     form_field_type := FieldType_value (form_type f);
                     similarity_breakdown := breakdown |} |} ]
      else Ok []) ;;
   later <- candidates_from cfg d fs sm i (S j) ;;
   Ok (here ++ later)).
Proof. reflexivity. Qed.

Lemma candidates_from_total cfg d n m sm i st :
  shaped n m sm -> (i < n)%nat ->
  similarity_threshold cfg = Some st ->
  forall fs j, (j + List.length fs <= m)%nat ->
    exists cs, candidates_from cfg d fs sm i j = Ok cs.
Proof.
  intros Hs Hi Hst. induction fs as [|f fs IH]; intros j Hj.
  - simpl. eauto.
  - simpl in Hj. rewrite candidates_from_cons.
    destruct (@confidence_total cfg d f n m sm i j Hs Hi) as [c Hc]; [lia|].
    rewrite Hc, Hst. cbn [bind get_item].
    destruct (IH (S j)) as [later Hlater]; [lia|]. rewrite Hlater.
    destruct (Qgeb c st); [|simpl; eauto].
    destruct (@entries_at_shaped n m sm i j Hs Hi) as [b Hb]; [lia|].
    unfold _determine_matching_strategy, _get_similarity_breakdown.
    rewrite Hb. cbn [bind]. destruct (dict_keys b); cbn [bind]; eauto.
Qed.

Lemma mappings_from_total cfg fs n sm st ct :
  shaped n (List.length fs) sm ->
  similarity_threshold cfg = Some st ->
  confidence_threshold cfg = Some ct ->
  forall docs i, (i + List.length docs <= n)%nat ->
    exists ms, mappings_from cfg docs fs sm i = Ok ms.
Proof.
  intros Hs Hst Hct. induction docs as [|d docs IH]; intros i Hi.
  - simpl. eauto.
  - simpl in Hi. rewrite mappings_from_cons.
    unfold _find_mapping_candidates.
    destruct (@candidates_from_total cfg d n (List.length fs) sm i st Hs)
      with (fs := fs) (j := 0%nat) as [cs Hcs]; [lia|exact Hst|lia|].
    rewrite Hcs. cbn [bind].
    destruct (IH (S i)) as [later Hlater]; [lia|]. rewrite Hlater.
    destruct (slice_to _ _) as [|c cs']; [simpl; eauto|].
    rewrite Hct. cbn [bind get_item].
    destruct (Qgeb _ ct); simpl; eauto.
Qed.

(** X6. With the semantic provider out of play and both threshold keys in
    the configuration, [map_fields] returns a list: no call inside it
    raises. *)
Theorem map_fields_returns (E : External) (M : Mapper)
    (docs : list DocumentField) (fs : list FormField) (st ct : Q) :
  semantic_inactive M ->
  similarity_threshold (config M) = Some st ->
  confidence_threshold (config M) = Some ct ->
  exists res, map_fields E M docs fs = Ok res.
Proof.
  intros Hin Hst Hct. unfold map_fields.
  destruct (_compute_similarity_matrices E M (map doc_name docs)
              (map form_name fs)) as [sm|e] eqn:Hsm.
  - pose proof (shaped_computed E _ _ Hin Hsm) as Hs.
    rewrite !length_map in Hs.
    destruct (@mappings_from_total (config M) fs (List.length docs) sm st ct
                Hs Hst Hct docs 0%nat) as [ms Hms]; [lia|].
    cbn [bind]. rewrite Hms. cbn [bind]. eauto.
  - rewrite (compute_matrices_inactive E _ _ Hin) in Hsm. discriminate.
Qed.

Lemma map_fields_returns_witness :
  exists res,
    map_fields offline (__init__ offline None)
      [document_field "first_name" NAME; document_field "email" EMAIL]
      [form_field "firstName" NAME] = Ok res.
Proof.
  apply (@map_fields_returns offline (__init__ offline None)
           [document_field "first_name" NAME; document_field "email" EMAIL]
           [form_field "firstName" NAME] (7 # 10) (6 # 10));
    reflexivity.
Defined.

(** X7. A configuration without the key [similarity_threshold] makes
    [map_fields] raise [KeyError] as soon as there is one document field
    and one form field to compare (semantic provider out of play). *)
Theorem map_fields_missing_similarity_threshold (E : External) (M : Mapper)
    (d : DocumentField) (docs : list DocumentField)
    (f : FormField) (fs : list FormField) :
  semantic_inactive M ->
  similarity_threshold (config M) = None ->
  map_fields E M (d :: docs) (f :: fs)
  = Raised (KeyError "similarity_threshold").
Proof.
  intros Hin Hst. unfold map_fields.
  destruct (_compute_similarity_matrices E M (map doc_name (d :: docs))
              (map form_name (f :: fs))) as [sm|e] eqn:Hsm.
  - pose proof (shaped_computed E _ _ Hin Hsm) as Hs. cbn [bind].
    rewrite mappings_from_cons. unfold _find_mapping_candidates.
    rewrite candidates_from_cons.
    destruct (@confidence_total (config M) d f _ _ sm 0%nat 0%nat Hs)
      as [c Hc]; [simpl; lia|simpl; lia|].
    rewrite Hc, Hst. reflexivity.
  - rewrite (compute_matrices_inactive E _ _ Hin) in Hsm. discriminate.
Qed.

Lemma map_fields_missing_similarity_threshold_witness :
  map_fields offline
    (__init__ offline
       (Some {| similarity_threshold := None;
                confidence_threshold := Some (9 # 10);
                enable_semantic_matching := None;
                enable_fuzzy_matching := None;
                enable_rule_based := None;
                fuzzy_ratio_weight := None; semantic_weight := None;
                rule_weight := None; bert_model_name := None;
                spacy_model := None; max_suggestions := None |}))
    [document_field "first_name" NAME] [form_field "firstName" NAME]
  = Raised (KeyError "similarity_threshold").
Proof.
  apply map_fields_missing_similarity_threshold; reflexivity.
Defined.

Lemma mappings_from_without_confidence_threshold cfg fs sm docs :
  confidence_threshold cfg = None ->
  forall i ms, mappings_from cfg docs fs sm i = Ok ms -> ms = [].
Proof.
  intros Hct. induction docs as [|d docs IH]; intros i ms H.
  - simpl in H. inv_ok H. reflexivity.
  - rewrite mappings_from_cons in H.
    inv_bind H. inv_bind H. inv_bind H. inv_ok H.
    rewrite (IH _ _ Ha1). rewrite app_nil_r.
    destruct a as [|c cs].
    + inv_ok Ha0. reflexivity.
    + rewrite Hct in Ha0. discriminate.
Qed.

(** X8. The key [confidence_threshold] is read only when some document
    field has a candidate: with the key absent, a run of [map_fields] that
    returns cannot return any mapping. *)
Theorem map_fields_missing_confidence_threshold (E : External) (M : Mapper)
    (docs : list DocumentField) (fs : list FormField)
    (res : list FieldMapping) :
  confidence_threshold (config M) = None ->
  map_fields E M docs fs = Ok res ->
  res = [].
Proof.
  intros Hct H.
  destruct (map_fields_Ok _ _ _ _ H) as (sm & ms & _ & Hms & ->).
  rewrite (mappings_from_without_confidence_threshold _ _ _ _ Hct _ Hms).
  reflexivity.
Qed.

Lemma map_fields_missing_confidence_threshold_witness :
  map_fields offline
    (__init__ offline
       (Some {| similarity_threshold := Some (7 # 10);
                confidence_threshold := None;
                enable_semantic_matching := None;
                enable_fuzzy_matching := Some true;
                enable_rule_based := Some true;
                fuzzy_ratio_weight := None; semantic_weight := None;
                rule_weight := None; bert_model_name := None;
                spacy_model := None; max_suggestions := None |}))
    [document_field "xyz123" TEXT] [form_field "abc456" TEXT]
  = Ok [].
Proof.
  match goal with
  | |- map_fields ?E ?M ?ds ?fs = _ =>
      destruct (map_fields E M ds fs) as [res|e] eqn:Hrun;
        [|vm_compute in Hrun; discriminate];
      rewrite (@map_fields_missing_confidence_threshold E M ds fs res
                 eq_refl Hrun)
  end.
  reflexivity.
Defined.

Lemma mappings_from_no_form_fields cfg sm docs :
  forall i, mappings_from cfg docs [] sm i = Ok [].
Proof.
  induction docs as [|d docs IH]; intros i; [reflexivity|].
  rewrite mappings_from_cons. unfold _find_mapping_candidates. simpl.
  unfold slice_to. destruct (0 <=? _)%Z; rewrite firstn_nil; simpl;
    rewrite IH; reflexivity.
Qed.

(** X9. Empty input is not an error: without the semantic provider,
    [map_fields] returns the empty list when there is no document field or
    no form field, whatever the configuration holds. *)
Theorem map_fields_empty_input (E : External) (M : Mapper)
    (docs : list DocumentField) (fs : list FormField) :
  semantic_inactive M ->
  docs = [] \/ fs = [] ->
  map_fields E M docs fs = Ok [].
Proof.
  intros Hin Hempty. unfold map_fields.
  rewrite (compute_matrices_inactive E _ _ Hin). cbn [bind].
  destruct Hempty as [-> | ->].
  - reflexivity.
  - rewrite mappings_from_no_form_fields. reflexivity.
Qed.

Lemma map_fields_empty_input_witness :
  map_fields offline (__init__ offline (Some fixture_config))
    [document_field "test" TEXT] [] = Ok [].
Proof.
  apply map_fields_empty_input; [reflexivity|right; reflexivity].
Defined.

(** ** The candidate list *)

Lemma insert_desc_sorted (x : FieldMapping) (l : list FieldMapping) :
  desc_sorted l -> desc_sorted (insert_desc x l).
Proof.
  unfold desc_sorted. induction 1 as [|y l Hl IH Hy]; simpl.
  - constructor; constructor.
  - destruct (Qltb (confidence_score x) (confidence_score y)) eqn:Hxy.
    + apply Qltb_true in Hxy. constructor; [exact IH|].
      apply Forall_forall. intros z Hz. apply insert_desc_In in Hz.
      destruct Hz as [->|Hz].
      * unfold by_confidence. apply Qlt_le_weak. exact Hxy.
      * rewrite Forall_forall in Hy. apply Hy. exact Hz.
    + apply Qltb_false in Hxy. constructor.
      * constructor; assumption.
      * constructor; [exact Hxy|].
        eapply Forall_impl; [|exact Hy]. unfold by_confidence.
        intros z Hz. eapply Qle_trans; eassumption.
Qed.

Lemma sort_desc_sorted (l : list FieldMapping) : desc_sorted (sort_desc l).
Proof.
  induction l as [|x l IH]; simpl; [constructor|].
  apply insert_desc_sorted. exact IH.
Qed.

Lemma insert_desc_perm (x : FieldMapping) (l : list FieldMapping) :
  Permutation (insert_desc x l) (x :: l).
Proof.
  induction l as [|y l IH]; simpl; [apply Permutation_refl|].
  destruct (Qltb _ _); [|apply Permutation_refl].
  eapply perm_trans; [apply perm_skip; exact IH|apply perm_swap].
Qed.

Lemma insert_desc_head (x : FieldMapping) (l : list FieldMapping) :
  Forall (by_confidence x) l -> insert_desc x l = x :: l.
Proof.
  destruct l as [|y l]; simpl; [reflexivity|]. intros H.
  inversion H as [|? ? Hy _]; subst. unfold by_confidence in Hy.
  apply Qltb_false in Hy. rewrite Hy. reflexivity.
Qed.

Lemma firstn_sorted (n : nat) (l : list FieldMapping) :
  desc_sorted l -> desc_sorted (firstn n l).
Proof.
  unfold desc_sorted. intros H. revert n.
  induction H as [|y l Hl IH Hy]; intros [|n]; simpl; try constructor.
  - apply IH.
  - apply Forall_forall. intros z Hz. rewrite Forall_forall in Hy. apply Hy.
    rewrite <- (firstn_skipn n l). apply in_or_app. left. exact Hz.
Qed.

Lemma slice_to_sorted (k : Z) (l : list FieldMapping) :
  desc_sorted l -> desc_sorted (slice_to l k).
Proof. unfold slice_to. destruct (0 <=? k)%Z; apply firstn_sorted. Qed.

Lemma slice_to_length_cap {A} (l : list A) (k : Z) :
  (0 <= k)%Z -> (List.length (slice_to l k) <= Z.to_nat k)%nat.
Proof.
  intros Hk. unfold slice_to. apply Z.leb_le in Hk. rewrite Hk.
  apply firstn_le_length.
Qed.

Lemma slice_to_length_le {A} (l : list A) (k : Z) :
  (List.length (slice_to l k) <= List.length l)%nat.
Proof.
  unfold slice_to. destruct (0 <=? k)%Z; rewrite length_firstn; lia.
Qed.

Lemma candidates_from_length cfg d sm i :
  forall fs j cs,
    candidates_from cfg d fs sm i j = Ok cs ->
    (List.length cs <= List.length fs)%nat.
Proof.
  induction fs as [|f fs IH]; intros j cs H.
  - simpl in H. inv_ok H. simpl. lia.
  - rewrite candidates_from_cons in H.
    inv_bind H. inv_bind H. inv_bind H. inv_bind H. inv_ok H.
    apply IH in Ha2. rewrite length_app. simpl.
    destruct (Qgeb a a0).
    + inv_bind Ha1. inv_bind Ha1. inv_ok Ha1. simpl. lia.
    + inv_ok Ha1. simpl. lia.
Qed.

Lemma py_max_by_head {A} (key : A -> Q) (x : A) (rest : list A) :
  Forall (fun y => key y <= key x) rest -> py_max_by key x rest = x.
Proof.
  induction 1 as [|y rest Hy _ IH]; [reflexivity|].
  rewrite py_max_by_cons. apply Qltb_false in Hy. rewrite Hy. exact IH.
Qed.

Lemma sort_desc_perm (l : list FieldMapping) : Permutation (sort_desc l) l.
Proof.
  induction l as [|x l IH]; simpl; [constructor|].
  eapply perm_trans; [apply insert_desc_perm|]. apply perm_skip. exact IH.
Qed.

Lemma Forall2_map_S {A} (P : A -> nat -> Prop) (l : list A) (ks : list nat) :
  Forall2 (fun x k => P x (S k)) l ks -> Forall2 P l (map S ks).
Proof. induction 1; simpl; constructor; assumption. Qed.

Lemma NoDup_map_S (ks : list nat) : NoDup ks -> NoDup (map S ks).
Proof.
  induction 1 as [|k ks Hk _ IH]; simpl; constructor; [|exact IH].
  intros Hin. apply in_map_iff in Hin. destruct Hin as (k' & Heq & Hin).
  injection Heq as ->. exact (Hk Hin).
Qed.

Lemma Forall2_firstn {A B} (P : A -> B -> Prop) (n : nat) :
  forall l1 l2, Forall2 P l1 l2 -> Forall2 P (firstn n l1) (firstn n l2).
Proof.
  induction n as [|n IH]; intros l1 l2 H; [constructor|].
  destruct H; simpl; constructor; [assumption|apply IH; assumption].
Qed.

Lemma NoDup_firstn {A} (n : nat) (l : list A) : NoDup l -> NoDup (firstn n l).
Proof.
  intros H. rewrite <- (firstn_skipn n l) in H.
  apply NoDup_app_remove_r in H. exact H.
Qed.

(** The candidates that the loop of [_find_mapping_candidates] collects are
    built for pairwise distinct positions of [form_fields]. *)
Lemma candidates_from_positions cfg d sm i :
  forall fs j cs,
    candidates_from cfg d fs sm i j = Ok cs ->
    exists ks,
      NoDup ks /\
      Forall2 (fun c k => exists f,
                 nth_error fs k = Some f /\
                 built_from cfg d f sm i (j + k) c) cs ks.
Proof.
  induction fs as [|f fs IH]; intros j cs H.
  - simpl in H. inv_ok H. exists []. split; constructor.
  - rewrite candidates_from_cons in H.
    inv_bind H. inv_bind H. inv_bind H. inv_bind H. inv_ok H.
    destruct (IH _ _ Ha2) as (ks & Hnd & Hall).
    assert (Hlater :
              Forall2 (fun c k => exists f',
                         nth_error (f :: fs) k = Some f' /\
                         built_from cfg d f' sm i (j + k) c)
                      a2 (map S ks)).
    { apply Forall2_map_S. eapply Forall2_impl; [|exact Hall].
      intros c k (f' & Hk & Hb). exists f'.
      rewrite <- plus_n_Sm. split; assumption. }
    destruct (Qgeb a a0).
    + inv_bind Ha1. inv_bind Ha1. inv_ok Ha1.
      exists (0%nat :: map S ks). split.
      * constructor; [|apply NoDup_map_S; exact Hnd].
        intros Hin. apply in_map_iff in Hin.
        destruct Hin as (k & Heq & _). discriminate.
      * simpl. constructor; [|exact Hlater].
        exists f. rewrite Nat.add_0_r. split; [reflexivity|].
        unfold built_from. simpl. repeat split; try assumption.
        exists a4. split; [assumption|reflexivity].
    + inv_ok Ha1. exists (map S ks). split; [apply NoDup_map_S; exact Hnd|].
      exact Hlater.
Qed.

(** X10. The list that [_find_mapping_candidates] returns is in
    non-increasing order of confidence; it has at most one entry per form
    field: its entries are the records built for pairwise distinct
    positions of [form_fields], so that it is no longer than
    [form_fields]; for a non-negative [max_suggestions] it has at most
    that many entries; every entry carries the name of the document field;
    and the [max] that [map_fields] then takes over the list is its first
    element. *)
Theorem candidates_sorted_and_capped
    (cfg : Config) (d : DocumentField) (fs : list FormField)
    (sm : Dict Matrix) (i : nat) (cs : list FieldMapping) :
  _find_mapping_candidates cfg d fs sm i = Ok cs ->
  desc_sorted cs /\
  (exists positions,
     NoDup positions /\
     Forall2 (fun c j => exists f,
                nth_error fs j = Some f /\
                built_from cfg d f sm i j c) cs positions) /\
  (List.length cs <= List.length fs)%nat /\
  ((0 <= get_default (max_suggestions cfg) 5%Z)%Z ->
   (List.length cs <= Z.to_nat (get_default (max_suggestions cfg) 5%Z))%nat) /\
  Forall (fun c => source_field c = doc_name d) cs /\
  (forall c rest, cs = c :: rest -> py_max_by confidence_score c rest = c).
Proof.
  intros H. pose proof (find_mapping_candidates_spec _ _ _ _ _ H) as Hspec.
  unfold _find_mapping_candidates in H. inv_bind H. inv_ok H.
  assert (Hsorted : desc_sorted
                      (slice_to (sort_desc a)
                         (get_default (max_suggestions cfg) 5%Z))).
  { apply slice_to_sorted. apply sort_desc_sorted. }
  split; [exact Hsorted|]. split.
  { destruct (candidates_from_positions _ _ _ _ _ _ Ha) as (ks & Hnd & Hall).
    destruct (Permutation_Forall2 (Permutation_sym (sort_desc_perm a)) Hall)
      as (ks' & Hperm & Hall').
    pose proof (Permutation_NoDup Hperm Hnd) as Hnd'.
    unfold slice_to.
    destruct (0 <=? get_default (max_suggestions cfg) 5%Z)%Z;
      (eexists; split;
       [apply NoDup_firstn; exact Hnd'|apply Forall2_firstn; exact Hall']). }
  split.
  { eapply Nat.le_trans; [apply slice_to_length_le|].
    rewrite sort_desc_length. eapply candidates_from_length. exact Ha. }
  split; [apply slice_to_length_cap|]. split.
  { eapply Forall_impl; [|exact Hspec].
    intros c (k & f & thr & _ & Hsrc & _). exact Hsrc. }
  intros c rest Heq. apply py_max_by_head.
  rewrite Heq in Hsorted. apply StronglySorted_inv in Hsorted.
  exact (proj2 Hsorted).
Qed.

Lemma candidates_sorted_and_capped_witness :
  exists cs,
    _find_mapping_candidates edge_case_config
      (document_field "name" NAME)
      [form_field "firstName" NAME; form_field "name" NAME;
       form_field "fullName" NAME]
      [("rule_based",
        _compute_rule_based_matrix ["name"] ["firstName"; "name"; "fullName"])]
      0 = Ok cs /\
    List.length cs = 3%nat /\
    desc_sorted cs.
Proof.
  eexists. split; [vm_compute; reflexivity|]. split; [reflexivity|].
  match goal with
  | |- desc_sorted ?cs =>
      assert (Hrun : _find_mapping_candidates edge_case_config
                       (document_field "name" NAME)
                       [form_field "firstName" NAME; form_field "name" NAME;
                        form_field "fullName" NAME]
                       [("rule_based",
                         _compute_rule_based_matrix ["name"]
                           ["firstName"; "name"; "fullName"])]
                       0 = Ok cs) by (vm_compute; reflexivity)
  end.
  exact (proj1 (candidates_sorted_and_capped _ _ _ _ _ Hrun)).
Defined.

(** The descending sort returns a permutation of its input in
    non-increasing order of confidence, and leaves unchanged a list that
    already is in that order, equal scores included. *)
Lemma sort_desc_stable (l : list FieldMapping) :
  Permutation (sort_desc l) l /\
  desc_sorted (sort_desc l) /\
  (desc_sorted l -> sort_desc l = l).
Proof.
  split; [|split; [apply sort_desc_sorted|]].
  - apply sort_desc_perm.
  - unfold desc_sorted. induction 1 as [|x l Hl IH Hx]; simpl; [reflexivity|].
    rewrite IH. apply insert_desc_head. exact Hx.
Qed.

(** ** Field types *)

(** X12. The inferred field type is the form field's declared type unless
    that is UNKNOWN, then the document field's unless that is UNKNOWN too;
    whatever the names, the result is never UNKNOWN. *)
Theorem infer_field_type_never_unknown (d : DocumentField) (f : FormField) :
  (form_type f <> UNKNOWN -> _infer_field_type d f = form_type f) /\
  (form_type f = UNKNOWN -> doc_type d <> UNKNOWN ->
   _infer_field_type d f = doc_type d) /\
  _infer_field_type d f <> UNKNOWN.
Proof.
  unfold _infer_field_type.
  destruct (form_type f); cbn [FieldType_eqb negb];
    (split; [intros; (reflexivity || congruence)|]);
    (split; [intros; try discriminate|try discriminate]).
  - destruct (doc_type d); cbn [FieldType_eqb negb];
      (reflexivity || congruence).
  - destruct (doc_type d); cbn [FieldType_eqb negb]; try discriminate.
    repeat match goal with
           | |- context [if ?b then _ else _] => destruct b
           end; discriminate.
Qed.

(** X13. The type bonus depends on the unordered pair of declared types
    only, and takes one of the four values [0], [0.1], [0.15], [0.2]. *)
Theorem type_bonus_symmetric (d d' : DocumentField) (f f' : FormField) :
  doc_type d' = form_type f -> form_type f' = doc_type d ->
  _calculate_type_compatibility_bonus d' f'
  = _calculate_type_compatibility_bonus d f /\
  In (_calculate_type_compatibility_bonus d f)
     [0; 1 # 10; 15 # 100; 2 # 10].
Proof.
  intros H1 H2. unfold _calculate_type_compatibility_bonus.
  rewrite H1, H2.
  destruct (doc_type d), (form_type f); simpl; split; tauto.
Qed.

Lemma type_bonus_symmetric_witness :
  _calculate_type_compatibility_bonus
    (document_field "salary" CURRENCY) (form_field "income" NUMBER)
  = _calculate_type_compatibility_bonus
      (document_field "income" NUMBER) (form_field "salary" CURRENCY).
Proof.
  exact (proj1 (@type_bonus_symmetric
                  (document_field "income" NUMBER)
                  (document_field "salary" CURRENCY)
                  (form_field "salary" CURRENCY)
                  (form_field "income" NUMBER) eq_refl eq_refl)).
Defined.

(** ** Construction *)

(** X14. After construction, a configuration that still enables semantic
    matching comes with all four components loaded: tokenizer, model,
    spaCy pipeline and vectorizer. *)
Theorem init_semantic_components_loaded (E : External) (cfg : option Config) :
  truthy (enable_semantic_matching (config (__init__ E cfg))) = true ->
  is_some (tokenizer (__init__ E cfg)) = true /\
  is_some (bert_model (__init__ E cfg)) = true /\
  is_some (spacy_nlp (__init__ E cfg)) = true /\
  tfidf_vectorizer (__init__ E cfg) = Some tt.
Proof.
  unfold __init__. generalize (chosen_config cfg). fold (chosen_config cfg).
  intros _. generalize (chosen_config cfg). intros c.
  unfold _initialize_components. cbn [config].
  destruct (truthy (enable_semantic_matching c)) eqn:Hen;
    [|cbn [config]; congruence].
  destruct (get_item "bert_model_name" (bert_model_name c));
    [|simpl; discriminate].
  destruct (AutoTokenizer_from_pretrained E a); [|simpl; discriminate].
  destruct (AutoModel_from_pretrained E a); [|simpl; discriminate].
  cbn [config].
  destruct (get_item "spacy_model" (spacy_model c)); [|simpl; discriminate].
  destruct (spacy_load E a2); [|simpl; discriminate].
  simpl. auto.
Qed.

Lemma init_semantic_components_loaded_witness :
  tfidf_vectorizer (__init__ failing_backend None) = Some tt.
Proof.
  exact (proj2 (proj2 (proj2
           (@init_semantic_components_loaded failing_backend None eq_refl)))).
Defined.

(** ** Order of the resolved list *)

Lemma mem_string_In (x : string) (l : list string) :
  mem_string x l = true <-> In x l.
Proof.
  unfold mem_string. rewrite existsb_exists. split.
  - intros (y & Hy & Heq). apply String.eqb_eq in Heq. subst. exact Hy.
  - intros H. exists x. split; [exact H|apply String.eqb_refl].
Qed.

Lemma group_add_keys (gs : Dict Group) (m : FieldMapping) :
  dict_keys (group_add gs m) =
  if mem_string (target_field m) (dict_keys gs)
  then dict_keys gs else dict_keys gs ++ [target_field m].
Proof.
  unfold group_add.
  destruct (dict_get gs (target_field m)) as [[first others]|] eqn:Hget.
  - assert (Hin : In (target_field m) (dict_keys gs)).
    { apply dict_get_In in Hget. apply (in_map fst) in Hget. exact Hget. }
    rewrite dict_set_keys by exact Hin.
    apply mem_string_In in Hin. rewrite Hin. reflexivity.
  - apply dict_get_None in Hget.
    rewrite dict_set_new by exact Hget.
    destruct (mem_string (target_field m) (dict_keys gs)) eqn:Hmem.
    + apply mem_string_In in Hmem. tauto.
    + unfold dict_keys. rewrite map_app. reflexivity.
Qed.

(** X15. The resolved list is ordered by the first occurrence of each
    target in the input: its targets are the distinct targets of the input,
    each at the place of its first occurrence. *)
Theorem resolve_order (ms : list FieldMapping) :
  map target_field (_resolve_mapping_conflicts ms) =
  first_occurrences (map target_field ms).
Proof.
  rewrite resolve_targets. unfold first_occurrences.
  induction ms as [|m ms IH] using rev_ind; [reflexivity|].
  rewrite map_app, !fold_left_app. simpl.
  rewrite group_add_keys, IH. reflexivity.
Qed.

(** ** The similarity breakdown *)

(** X16. Over a dictionary of provider matrices, the breakdown attached to
    a candidate lists the providers in the order of the dictionary, each
    with its raw entry at the pair; it raises only [IndexError], and only
    when some matrix has no entry at the pair. *)
Theorem similarity_breakdown_entries (sm : Dict Matrix) (i j : nat) :
  provider_matrices sm ->
  (forall b,
     _get_similarity_breakdown sm i j = Ok b ->
     dict_keys b = dict_keys sm /\
     forall p, active sm p = true ->
               dict_get b (provider_key p) = Some (raw_entry sm p i j)) /\
  (forall e,
     _get_similarity_breakdown sm i j = Raised e ->
     e = IndexError /\
     exists k mat, In (k, mat) sm /\ matrix_get mat i j = Raised IndexError).
Proof.
  intros [Hnd _]. unfold _get_similarity_breakdown. split.
  - intros b Hb. pose proof (@entries_at_spec sm i j b Hnd Hb) as Hrel.
    split; [exact (@entries_keys i j sm b Hrel)|].
    intros p Hp. unfold active, dict_mem, raw_entry in *.
    destruct (dict_get sm (provider_key p)) as [mat|] eqn:Hget;
      [|discriminate].
    destruct (@entries_lookup i j sm b Hrel _ _ Hget) as (v & Hv & Hs).
    rewrite Hv. exact Hs.
  - intros e He. unfold entries_at in He.
    generalize dependent (@nil (string * Q)).
    clear Hnd. induction sm as [|[k mat] sm IH]; intros acc He.
    + discriminate.
    + simpl in He. unfold matrix_get in He at 1.
      destruct (nth_error mat i) as [row|] eqn:Hrow.
      * destruct (nth_error row j) as [v|] eqn:Hv.
        -- simpl in He. destruct (IH _ He) as (-> & k' & mat' & Hin & Hget).
           split; [reflexivity|]. exists k', mat'. split; [right|]; assumption.
        -- simpl in He. injection He as <-. split; [reflexivity|].
           exists k, mat. split; [left; reflexivity|].
           unfold matrix_get. rewrite Hrow, Hv. reflexivity.
      * simpl in He. injection He as <-. split; [reflexivity|].
        exists k, mat. split; [left; reflexivity|].
        unfold matrix_get. rewrite Hrow. reflexivity.
Qed.

Lemma similarity_breakdown_entries_witness :
  provider_matrices identical_names /\
  _get_similarity_breakdown identical_names 0 0
  = Ok [("fuzzy", 1); ("rule_based", 1)] /\
  dict_keys [("fuzzy", 1); ("rule_based", 1)] = dict_keys identical_names.
Proof.
  assert (Hwf : provider_matrices identical_names).
  { split.
    - repeat constructor; simpl; intuition discriminate.
    - intros k [<-|[<-|[]]]; [exists Lexical|exists RuleBased]; reflexivity. }
  split; [exact Hwf|]. split; [reflexivity|].
  exact (proj1 (proj1 (@similarity_breakdown_entries identical_names 0 0 Hwf)
                  [("fuzzy", 1); ("rule_based", 1)] eq_refl)).
Defined.

(** ** Provenance of the returned mappings *)

Lemma candidates_from_built cfg d sm i :
  forall fs j cs,
    candidates_from cfg d fs sm i j = Ok cs ->
    Forall (fun c => exists k f,
                nth_error fs k = Some f /\
                built_from cfg d f sm i (j + k) c) cs.
Proof.
  induction fs as [|f fs IH]; intros j cs H.
  - simpl in H. inv_ok H. constructor.
  - rewrite candidates_from_cons in H.
    inv_bind H. inv_bind H. inv_bind H. inv_bind H. inv_ok H.
    apply Forall_app. split.
    + destruct (Qgeb a a0).
      * inv_bind Ha1. inv_bind Ha1. inv_ok Ha1.
        constructor; [|constructor].
        exists 0%nat, f. rewrite Nat.add_0_r. split; [reflexivity|].
        unfold built_from. simpl. repeat split; try assumption.
        exists a4. split; [assumption|reflexivity].
      * inv_ok Ha1. constructor.
    + eapply Forall_impl; [|apply (IH _ _ Ha2)].
      intros c (k & f' & Hk & Hb). exists (S k), f'.
      rewrite <- plus_n_Sm. split; assumption.
Qed.

(** X17. Every mapping that [map_fields] returns is the record built for
    one document field and one form field of the input, at their
    positions: it carries their two names, the fused confidence of the
    pair, the strategy and breakdown computed for the pair and the inferred
    field type, which is never UNKNOWN; and its confidence clears both the
    similarity floor and the confidence floor of the configuration. *)
Theorem map_fields_result_provenance
    (E : External) (M : Mapper) (docs : list DocumentField)
    (fs : list FormField) (res : list FieldMapping) :
  map_fields E M docs fs = Ok res ->
  exists sm,
    _compute_similarity_matrices E M (map doc_name docs) (map form_name fs)
      = Ok sm /\
    Forall
      (fun m =>
         (exists i d j f,
            nth_error docs i = Some d /\
            nth_error fs j = Some f /\
            built_from (config M) d f sm i j m) /\
         (exists st, similarity_threshold (config M) = Some st /\
                     st <= confidence_score m) /\
         (exists ct, confidence_threshold (config M) = Some ct /\
                     ct <= confidence_score m) /\
         field_type m <> UNKNOWN)
      res.
Proof.
  intros H.
  destruct (map_fields_Ok _ _ _ _ H) as (sm & ms & Hsm & Hms & ->).
  exists sm. split; [exact Hsm|].
  destruct (mappings_from_spec _ _ _ _ _ Hms) as (per & -> & _ & Hper).
  apply Forall_forall. intros m Hm. apply resolve_incl in Hm.
  destruct (in_concat_nth _ _ Hm) as (i & c & Hi & Hc).
  destruct (Hper _ _ _ Hi Hc) as (d & Hd & Hcand & Hct & cands & Hrun & Hin & _).
  simpl in Hcand, Hrun.
  assert (Hbuilt : exists j f, nth_error fs j = Some f /\
                               built_from (config M) d f sm i j m).
  { unfold _find_mapping_candidates in Hrun. inv_bind Hrun. inv_ok Hrun.
    apply slice_to_In in Hin. apply (proj1 (sort_desc_In _ _)) in Hin.
    pose proof (candidates_from_built _ _ _ _ _ _ Ha) as Hall.
    rewrite Forall_forall in Hall. exact (Hall _ Hin). }
  destruct Hbuilt as (j & f & Hf & Hb).
  split; [exists i, d, j, f; auto|].
  destruct Hcand as (k & f' & thr & _ & _ & _ & _ & Hthr & Hle & _).
  split; [exists thr; auto|]. split; [exact Hct|].
  destruct Hb as (_ & _ & _ & Hty & _). rewrite Hty.
  apply infer_field_type_never_unknown.
Qed.

Lemma map_fields_result_provenance_witness :
  exists res,
    map_fields offline (__init__ offline (Some fixture_config))
      [document_field "firstName" UNKNOWN] [form_field "firstName" UNKNOWN]
    = Ok res /\
    res <> [] /\
    Forall (fun m => field_type m <> UNKNOWN) res.
Proof.
  eexists. split; [vm_compute; reflexivity|]. split; [discriminate|].
  match goal with
  | |- Forall _ ?r =>
      assert (Hrun : map_fields offline
                       (__init__ offline (Some fixture_config))
                       [document_field "firstName" UNKNOWN]
                       [form_field "firstName" UNKNOWN] = Ok r)
        by (vm_compute; reflexivity)
  end.
  destruct (map_fields_result_provenance _ _ _ _ Hrun) as (sm & _ & Hall).
  eapply Forall_impl; [|exact Hall].
  intros m (_ & _ & _ & Hne). exact Hne.
Defined.

(** ** Regular expressions: the matcher against the language *)

Lemma append_nil_r (s : string) : (s ++ "")%string = s.
Proof. induction s as [|c s IH]; simpl; [reflexivity|rewrite IH; reflexivity]. Qed.

Lemma append_assoc (a b c : string) :
  ((a ++ b) ++ c)%string = (a ++ (b ++ c))%string.
Proof. induction a as [|x a IH]; simpl; [reflexivity|rewrite IH; reflexivity]. Qed.

Lemma append_eq_nil (a b : string) :
  (a ++ b)%string = EmptyString -> a = EmptyString /\ b = EmptyString.
Proof. destruct a; simpl; [auto|discriminate]. Qed.

Lemma lang_nil_nullable (r : regex) (s : string) :
  lang r s -> s = EmptyString -> nullable r = true.
Proof.
  induction 1; intros Hs; simpl; try discriminate; try reflexivity.
  - rewrite (IHlang Hs). reflexivity.
  - rewrite (IHlang Hs). apply orb_true_r.
  - apply append_eq_nil in Hs. destruct Hs as [H1 H2].
    rewrite (IHlang1 H1), (IHlang2 H2). reflexivity.
Qed.

Lemma nullable_lang (r : regex) : nullable r = true <-> lang r EmptyString.
Proof.
  split; [|intros H; exact (lang_nil_nullable H eq_refl)].
  induction r; simpl; intros H; try discriminate.
  - constructor.
  - apply orb_true_iff in H. destruct H as [H|H];
      [apply lang_alt_l|apply lang_alt_r]; auto.
  - apply andb_true_iff in H. destruct H as [H1 H2].
    change EmptyString with (EmptyString ++ EmptyString)%string.
    constructor; auto.
  - constructor.
Qed.

Lemma lang_cat_inv (r1 r2 : regex) (s : string) :
  lang (Rcat r1 r2) s ->
  exists s1 s2, s = (s1 ++ s2)%string /\ lang r1 s1 /\ lang r2 s2.
Proof. intros H. inversion H; subst. eauto. Qed.

(** A non-empty word of a star starts with a non-empty word of its body. *)
Lemma lang_star_cons_inv (r : regex) (s : string) (c : ascii) (t : string) :
  lang (Rstar r) s -> s = String c t ->
  exists t1 t2,
    t = (t1 ++ t2)%string /\ lang r (String c t1) /\ lang (Rstar r) t2.
Proof.
  intros H. remember (Rstar r) as r' eqn:Hr. revert Hr c t.
  induction H; intros Hr c0 t Hs; try discriminate.
  injection Hr as ->.
  destruct s1 as [|a s1].
  - simpl in Hs. apply (IHlang2 eq_refl _ _ Hs).
  - simpl in Hs. injection Hs as -> <-. exists s1, s2. auto.
Qed.

Lemma deriv_sound (c : ascii) (r : regex) :
  forall s, lang (deriv c r) s -> lang r (String c s).
Proof.
  induction r; simpl; intros s H.
  - inversion H.
  - inversion H.
  - destruct (Ascii.eqb c c0) eqn:Hc; [|inversion H].
    apply Ascii.eqb_eq in Hc. subst. inversion H; subst. constructor.
  - destruct (Ascii.eqb c "010"%char) eqn:Hc; [inversion H|].
    apply Ascii.eqb_neq in Hc. inversion H; subst. constructor. exact Hc.
  - inversion H; subst; [apply lang_alt_l|apply lang_alt_r]; auto.
  - destruct (nullable r1) eqn:Hn.
    + inversion H; subst.
      * match goal with
        | H1 : lang (Rcat _ _) _ |- _ => inversion H1; subst
        end.
        change (String c (s1 ++ s2)%string)
          with ((String c s1) ++ s2)%string.
        constructor; auto.
      * change (String c s) with (EmptyString ++ String c s)%string.
        constructor; [apply nullable_lang; exact Hn|auto].
    + inversion H; subst.
      change (String c (s1 ++ s2)%string) with ((String c s1) ++ s2)%string.
      constructor; auto.
  - inversion H; subst.
    change (String c (s1 ++ s2)%string) with ((String c s1) ++ s2)%string.
    constructor; auto.
Qed.

Lemma deriv_complete (c : ascii) (r : regex) :
  forall s, lang r (String c s) -> lang (deriv c r) s.
Proof.
  induction r; simpl; intros s H.
  - inversion H.
  - inversion H.
  - inversion H; subst. rewrite Ascii.eqb_refl. constructor.
  - inversion H; subst.
    match goal with
    | Hne : c <> _ |- _ => apply Ascii.eqb_neq in Hne; rewrite Hne
    end. constructor.
  - inversion H; subst; [apply lang_alt_l|apply lang_alt_r]; auto.
  - destruct (lang_cat_inv H) as (s1 & s2 & Heq & H1 & H2).
    destruct s1 as [|a s1].
    + simpl in Heq. subst s2.
      rewrite (lang_nil_nullable H1 eq_refl).
      apply lang_alt_r. auto.
    + simpl in Heq. injection Heq as <- ->.
      destruct (nullable r1); [apply lang_alt_l|]; constructor; auto.
  - destruct (lang_star_cons_inv H eq_refl) as (t1 & t2 & -> & H1 & H2).
    constructor; auto.
Qed.

Lemma matches_all_lang (s : string) :
  forall r, matches_all r s = true <-> lang r s.
Proof.
  induction s as [|c s IH]; intros r; simpl.
  - apply nullable_lang.
  - rewrite IH. split; [apply deriv_sound|apply deriv_complete].
Qed.

Lemma lang_cat_iff (r1 r2 : regex) (s : string) :
  lang (Rcat r1 r2) s <->
  exists s1 s2, s = (s1 ++ s2)%string /\ lang r1 s1 /\ lang r2 s2.
Proof.
  split; [apply lang_cat_inv|].
  intros (s1 & s2 & -> & H1 & H2). constructor; assumption.
Qed.

Lemma lang_char_iff (c : ascii) (s : string) :
  lang (Rchar c) s <-> s = String c EmptyString.
Proof.
  split; [intros H; inversion H; reflexivity|intros ->; constructor].
Qed.

Lemma lang_eps_iff (s : string) : lang Reps s <-> s = EmptyString.
Proof.
  split; [intros H; inversion H; reflexivity|intros ->; constructor].
Qed.

Lemma lang_alt_iff (r1 r2 : regex) (s : string) :
  lang (Ralt r1 r2) s <-> lang r1 s \/ lang r2 s.
Proof.
  split.
  - intros H. inversion H; subst; auto.
  - intros [H|H]; [apply lang_alt_l|apply lang_alt_r]; exact H.
Qed.

Lemma lang_opt_iff (r : regex) (s : string) :
  lang (Ropt r) s <-> s = EmptyString \/ lang r s.
Proof. unfold Ropt. rewrite lang_alt_iff, lang_eps_iff. tauto. Qed.

Lemma lang_class_iff (l : list ascii) (s : string) :
  lang (Rclass l) s <-> exists c, In c l /\ s = String c EmptyString.
Proof.
  induction l as [|a l IH]; simpl.
  - split; [intros H; inversion H|intros (c & [] & _)].
  - rewrite lang_alt_iff, lang_char_iff, IH. split.
    + intros [->|(c & Hc & ->)]; eauto.
    + intros (c & [<-|Hc] & ->); eauto.
Qed.

Lemma all_chars_nil (l : list ascii) : all_chars l EmptyString.
Proof. constructor. Qed.

Lemma all_chars_cons (l : list ascii) (c : ascii) (s : string) :
  all_chars l (String c s) <-> In c l /\ all_chars l s.
Proof.
  unfold all_chars. simpl. split.
  - intros H. inversion H; subst. auto.
  - intros [H1 H2]. constructor; assumption.
Qed.

Lemma all_chars_app (l : list ascii) (s1 s2 : string) :
  all_chars l (s1 ++ s2)%string <-> all_chars l s1 /\ all_chars l s2.
Proof.
  induction s1 as [|c s1 IH]; simpl.
  - split; [intros H; split; [apply all_chars_nil|exact H]|tauto].
  - rewrite !all_chars_cons, IH. tauto.
Qed.

Lemma lang_star_class (l : list ascii) (s : string) :
  lang (Rstar (Rclass l)) s <-> all_chars l s.
Proof.
  split.
  - intros H. remember (Rstar (Rclass l)) as r eqn:Hr.
    induction H; try discriminate.
    + apply all_chars_nil.
    + injection Hr as ->. apply all_chars_app. split; [|auto].
      apply lang_class_iff in H. destruct H as (c & Hc & ->).
      apply all_chars_cons. split; [exact Hc|apply all_chars_nil].
  - induction s as [|c s IH]; intros H; [constructor|].
    apply all_chars_cons in H. destruct H as [Hc Hs].
    change (String c s) with (String c EmptyString ++ s)%string.
    constructor; [|auto]. apply lang_class_iff. eauto.
Qed.

Lemma lang_plus_class (l : list ascii) (s : string) :
  lang (Rplus (Rclass l)) s <-> s <> EmptyString /\ all_chars l s.
Proof.
  unfold Rplus. rewrite lang_cat_iff. split.
  - intros (s1 & s2 & -> & H1 & H2).
    apply lang_class_iff in H1. destruct H1 as (c & Hc & ->).
    apply lang_star_class in H2. simpl. split; [discriminate|].
    apply all_chars_cons. auto.
  - intros [Hne H]. destruct s as [|c s]; [congruence|].
    apply all_chars_cons in H. destruct H as [Hc Hs].
    exists (String c EmptyString), s. split; [reflexivity|].
    split; [apply lang_class_iff; eauto|apply lang_star_class; exact Hs].
Qed.

Lemma length_append (a b : string) :
  String.length (a ++ b)%string = (String.length a + String.length b)%nat.
Proof. induction a as [|c a IH]; simpl; [reflexivity|rewrite IH; reflexivity]. Qed.

Lemma lang_repeat_class (l : list ascii) (n : nat) :
  forall s, lang (Rrepeat n (Rclass l)) s <->
            String.length s = n /\ all_chars l s.
Proof.
  induction n as [|n IH]; intros s; simpl.
  - rewrite lang_eps_iff. split.
    + intros ->. split; [reflexivity|apply all_chars_nil].
    + intros [H _]. destruct s; [reflexivity|discriminate].
  - rewrite lang_cat_iff. split.
    + intros (s1 & s2 & -> & H1 & H2).
      apply lang_class_iff in H1. destruct H1 as (c & Hc & ->).
      apply IH in H2. destruct H2 as [Hlen Hall]. simpl.
      split; [congruence|]. apply all_chars_cons. auto.
    + intros [Hlen Hall]. destruct s as [|c s]; [discriminate|].
      apply all_chars_cons in Hall. destruct Hall as [Hc Hs].
      exists (String c EmptyString), s. split; [reflexivity|].
      split; [apply lang_class_iff; eauto|].
      apply IH. simpl in Hlen. split; [congruence|exact Hs].
Qed.

Lemma lang_upto_class (l : list ascii) (n : nat) :
  forall s, lang (Rupto n (Rclass l)) s <->
            (String.length s <= n)%nat /\ all_chars l s.
Proof.
  induction n as [|n IH]; intros s; simpl.
  - rewrite lang_eps_iff. split.
    + intros ->. split; [simpl; lia|apply all_chars_nil].
    + intros [H _]. destruct s; [reflexivity|simpl in H; lia].
  - rewrite lang_opt_iff, lang_cat_iff. split.
    + intros [->|(s1 & s2 & -> & H1 & H2)].
      * split; [simpl; lia|apply all_chars_nil].
      * apply lang_class_iff in H1. destruct H1 as (c & Hc & ->).
        apply IH in H2. destruct H2 as [Hlen Hall]. simpl.
        split; [lia|]. apply all_chars_cons. auto.
    + intros [Hlen Hall]. destruct s as [|c s]; [auto|]. right.
      apply all_chars_cons in Hall. destruct Hall as [Hc Hs].
      exists (String c EmptyString), s. split; [reflexivity|].
      split; [apply lang_class_iff; eauto|].
      apply IH. simpl in Hlen. split; [lia|exact Hs].
Qed.

Lemma split_at (n : nat) :
  forall s, (n <= String.length s)%nat ->
            exists s1 s2, s = (s1 ++ s2)%string /\ String.length s1 = n.
Proof.
  induction n as [|n IH]; intros s H.
  - exists EmptyString, s. auto.
  - destruct s as [|c s]; [simpl in H; lia|]. simpl in H.
    destruct (IH s) as (s1 & s2 & -> & Hlen); [lia|].
    exists (String c s1), s2. simpl. auto.
Qed.

Lemma lang_between_class (l : list ascii) (n m : nat) (s : string) :
  (n <= m)%nat ->
  (lang (Rbetween n m (Rclass l)) s <->
   (n <= String.length s <= m)%nat /\ all_chars l s).
Proof.
  intros Hnm. unfold Rbetween. rewrite lang_cat_iff. split.
  - intros (s1 & s2 & -> & H1 & H2).
    apply lang_repeat_class in H1. apply lang_upto_class in H2.
    rewrite length_append. split; [lia|]. apply all_chars_app. tauto.
  - intros [Hlen Hall].
    destruct (@split_at n s) as (s1 & s2 & -> & Hl); [lia|].
    rewrite length_append in Hlen. apply all_chars_app in Hall.
    exists s1, s2. split; [reflexivity|].
    split; [apply lang_repeat_class|apply lang_upto_class]; split;
      try tauto; lia.
Qed.

Lemma lang_at_least_class (l : list ascii) (n : nat) (s : string) :
  lang (Rcat (Rrepeat n (Rclass l)) (Rstar (Rclass l))) s <->
  (n <= String.length s)%nat /\ all_chars l s.
Proof.
  rewrite lang_cat_iff. split.
  - intros (s1 & s2 & -> & H1 & H2).
    apply lang_repeat_class in H1. apply lang_star_class in H2.
    rewrite length_append. split; [lia|]. apply all_chars_app. tauto.
  - intros [Hlen Hall].
    destruct (@split_at n s Hlen) as (s1 & s2 & -> & Hl).
    apply all_chars_app in Hall.
    exists s1, s2. split; [reflexivity|].
    split; [apply lang_repeat_class|apply lang_star_class]; tauto.
Qed.

Lemma strip_final_newline_cons (c c' : ascii) (s : string) :
  strip_final_newline (String c (String c' s)) =
  match strip_final_newline (String c' s) with
  | Some u => Some (String c u)
  | None => None
  end.
Proof. reflexivity. Qed.

Lemma strip_final_newline_sound (s : string) :
  forall t, strip_final_newline s = Some t ->
            s = (t ++ String "010"%char EmptyString)%string.
Proof.
  induction s as [|c s IH]; intros t H; [discriminate|].
  destruct s as [|c' s'].
  - simpl in H. destruct (Ascii.eqb c "010"%char) eqn:Hc; [|discriminate].
    apply Ascii.eqb_eq in Hc. injection H as <-. subst. reflexivity.
  - rewrite strip_final_newline_cons in H.
    destruct (strip_final_newline (String c' s')) as [u|]; [|discriminate].
    injection H as <-. simpl. rewrite <- (IH u eq_refl). reflexivity.
Qed.

Lemma strip_final_newline_complete (t : string) :
  strip_final_newline (t ++ String "010"%char EmptyString)%string = Some t.
Proof.
  induction t as [|a t IH]; [reflexivity|].
  change (String a t ++ String "010"%char EmptyString)%string
    with (String a (t ++ String "010"%char EmptyString)%string).
  destruct (t ++ String "010"%char EmptyString)%string as [|x y] eqn:Ht.
  - destruct t; discriminate.
  - rewrite strip_final_newline_cons, IH. reflexivity.
Qed.

Lemma strip_final_newline_spec (s t : string) :
  strip_final_newline s = Some t <->
  s = (t ++ String "010"%char EmptyString)%string.
Proof.
  split; [apply strip_final_newline_sound|].
  intros ->. apply strip_final_newline_complete.
Qed.

Lemma re_match_anchored_spec (r : regex) (s : string) :
  re_match_anchored r s = true <->
  lang r s \/
  exists t, s = (t ++ String "010"%char EmptyString)%string /\ lang r t.
Proof.
  unfold re_match_anchored. rewrite orb_true_iff, matches_all_lang.
  destruct (strip_final_newline s) as [t|] eqn:Ht.
  - rewrite matches_all_lang. apply strip_final_newline_spec in Ht.
    split; intros [H|H]; auto.
    + right. eauto.
    + destruct H as (t' & Hs & Hl). right.
      assert (strip_final_newline s = Some t') as Ht'
          by (apply strip_final_newline_spec; exact Hs).
      assert (strip_final_newline s = Some t) as Ht''
          by (apply strip_final_newline_spec; exact Ht).
      congruence.
  - split; intros [H|H]; auto; [discriminate|].
    destruct H as (t' & Hs & _).
    apply strip_final_newline_spec in Hs. congruence.
Qed.

(** ** The validators *)

Lemma lang_email (s : string) : lang email_pattern s <-> email_shape s.
Proof.
  unfold email_pattern, email_shape. split.
  - intros H.
    apply lang_cat_inv in H. destruct H as (local & r1 & -> & Hl & H).
    apply lang_cat_inv in H. destruct H as (at_ & r2 & -> & Ha & H).
    apply lang_cat_inv in H. destruct H as (dom & r3 & -> & Hd & H).
    apply lang_cat_inv in H. destruct H as (pt & tld & -> & Hp & Ht).
    apply lang_char_iff in Ha. apply lang_char_iff in Hp. subst.
    apply lang_plus_class in Hl. apply lang_plus_class in Hd.
    apply lang_at_least_class in Ht.
    exists local, dom, tld. tauto.
  - intros (local & dom & tld & -> & Hl1 & Hl2 & Hd1 & Hd2 & Ht1 & Ht2).
    constructor; [apply lang_plus_class; auto|].
    constructor; [constructor|].
    constructor; [apply lang_plus_class; auto|].
    constructor; [constructor|].
    apply lang_at_least_class. auto.
Qed.

(** X18. [_validate_email] accepts exactly the strings of the form
    [local@domain.tld], alone or followed by one newline, where [local] is
    a non-empty word over letters, digits and [._%+-], [domain] a non-empty
    word over letters, digits, [.] and [-], and [tld] has at least two
    letters. *)
Theorem validate_email_shape (value : string) :
  _validate_email value = true <-> up_to_final_newline email_shape value.
Proof.
  unfold _validate_email, up_to_final_newline.
  rewrite re_match_anchored_spec, lang_email.
  split; (intros [H|(t & Ht & H)]; [left; exact H|right]);
    exists t; (split; [exact Ht|]); apply lang_email; exact H.
Qed.

Lemma lang_currency (s : string) :
  lang currency_pattern s <-> currency_shape s.
Proof.
  unfold currency_pattern, currency_shape. split.
  - intros H.
    apply lang_cat_inv in H. destruct H as (dollar & r1 & -> & Hd & H).
    apply lang_cat_inv in H. destruct H as (body & r2 & -> & Hb & H).
    apply lang_cat_inv in H. destruct H as (pt & cents & -> & Hp & Hc).
    apply lang_opt_iff in Hd. apply lang_opt_iff in Hp.
    rewrite lang_char_iff in Hd, Hp.
    apply lang_plus_class in Hb.
    apply lang_between_class in Hc; [|lia].
    exists dollar, body, pt, cents.
    repeat split; try tauto; lia.
  - intros (dollar & body & pt & cents & -> & Hd & Hb1 & Hb2 & Hp & Hc1 & Hc2).
    constructor; [apply lang_opt_iff; rewrite lang_char_iff; exact Hd|].
    constructor; [apply lang_plus_class; auto|].
    constructor; [apply lang_opt_iff; rewrite lang_char_iff; exact Hp|].
    apply lang_between_class; [lia|]. split; [lia|exact Hc2].
Qed.

Lemma validate_currency_iff (value : string) :
  _validate_currency value = true <->
  up_to_final_newline currency_shape (remove_char " " value).
Proof.
  unfold _validate_currency, up_to_final_newline.
  rewrite re_match_anchored_spec, lang_currency.
  split; (intros [H|(t & Ht & H)]; [left; exact H|right]);
    exists t; (split; [exact Ht|]); apply lang_currency; exact H.
Qed.

Lemma lang_currency_valid (value : string) :
  up_to_final_newline currency_shape (remove_char " " value) ->
  _validate_currency value = true.
Proof. apply validate_currency_iff. Qed.

(** X19. On a value of ASCII characters, [_validate_currency] drops the
    spaces and then accepts exactly the strings made of an optional [$], a
    non-empty word of digits and commas (grouped or not), an optional point
    and at most two digits, alone or followed by one newline. *)
Theorem validate_currency_shape (value : string) :
  ascii_only value ->
  (_validate_currency value = true <->
   up_to_final_newline currency_shape (remove_char " " value)).
Proof. intros _. apply validate_currency_iff. Qed.

Lemma validate_currency_shape_witness :
  up_to_final_newline currency_shape (remove_char " " "$ 1,234.56").
Proof.
  apply (proj1 (@validate_currency_shape "$ 1,234.56" eq_refl)).
  vm_compute. reflexivity.
Defined.

Lemma digits_of_app (s1 s2 : string) :
  digits_of (s1 ++ s2)%string = (digits_of s1 ++ digits_of s2)%string.
Proof.
  induction s1 as [|c s1 IH]; [reflexivity|].
  cbn [digits_of String.append].
  destruct (existsb (Ascii.eqb c) digit_chars); cbn [String.append];
    rewrite IH; reflexivity.
Qed.

(** X20. On a value of ASCII characters, [_validate_phone] counts the
    decimal digits and nothing else: the value is valid exactly when it
    holds 10, 11 or 12 of them, and putting in or taking out any other
    ASCII character, anywhere, changes nothing. *)
Theorem validate_phone_counts_digits (s1 s2 : string) (c : ascii) :
  ascii_only (s1 ++ String c s2)%string ->
  existsb (Ascii.eqb c) digit_chars = false ->
  _validate_phone (s1 ++ String c s2)%string = _validate_phone (s1 ++ s2)%string /\
  (_validate_phone (s1 ++ s2)%string = true <->
   (10 <= String.length (digits_of (s1 ++ s2)%string) <= 12)%nat).
Proof.
  intros _ Hc. split.
  - unfold _validate_phone. rewrite !digits_of_app. cbn [digits_of].
    rewrite Hc. reflexivity.
  - unfold _validate_phone. generalize (String.length (digits_of (s1 ++ s2)%string)).
    intros n. simpl. rewrite !orb_true_iff, !Nat.eqb_eq. lia.
Qed.

Lemma validate_phone_counts_digits_witness :
  _validate_phone "555-1234567" = _validate_phone "5551234567" /\
  _validate_phone "5551234567" = true.
Proof.
  destruct (@validate_phone_counts_digits "555" "1234567" "-"
              eq_refl eq_refl) as [H1 H2].
  split; [exact H1|]. apply H2. simpl. lia.
Defined.

(** X21. [_validate_date] checks the shape only: one or two digits, a
    separator among [/], [-] and [.], one or two digits, a separator
    (possibly a different one) and two to four digits are accepted,
    whatever numbers the digits spell. *)
Theorem validate_date_checks_shape_only
    (day month year : string) (sep1 sep2 : ascii) :
  (1 <= String.length day <= 2)%nat -> all_chars digit_chars day ->
  (1 <= String.length month <= 2)%nat -> all_chars digit_chars month ->
  (2 <= String.length year <= 4)%nat -> all_chars digit_chars year ->
  In sep1 ["/"; "-"; "."]%char -> In sep2 ["/"; "-"; "."]%char ->
  _validate_date (day ++ String sep1 (month ++ String sep2 year))%string = true.
Proof.
  intros Hd1 Hd2 Hm1 Hm2 Hy1 Hy2 Hs1 Hs2.
  unfold _validate_date, date_patterns. cbv zeta. cbn [existsb].
  apply orb_true_iff. left. apply re_match_anchored_spec. left.
  change (String sep1 (month ++ String sep2 year)%string)
    with (String sep1 EmptyString ++ (month ++ String sep2 year))%string.
  change (String sep2 year) with (String sep2 EmptyString ++ year)%string.
  constructor; [apply lang_between_class; [lia|auto]|].
  constructor; [apply lang_class_iff; eauto|].
  constructor; [apply lang_between_class; [lia|auto]|].
  constructor; [apply lang_class_iff; eauto|].
  apply lang_between_class; [lia|auto].
Qed.

Lemma validate_date_checks_shape_only_witness :
  _validate_date "99.99-9999" = true.
Proof.
  apply (@validate_date_checks_shape_only "99" "99" "9999" "." "-");
    try (simpl; lia); try (simpl; tauto);
    repeat (apply all_chars_cons; split; [vm_compute; tauto|]);
    apply all_chars_nil.
Defined.

Lemma remove_char_absent (c : ascii) (l : list ascii) (s : string) :
  ~ In c l -> all_chars l s -> remove_char c s = s.
Proof.
  intros Hc. induction s as [|a s IH]; intros H; [reflexivity|].
  apply all_chars_cons in H. destruct H as [Ha Hs]. simpl.
  destruct (Ascii.eqb a c) eqn:Hac.
  - apply Ascii.eqb_eq in Hac. subst. tauto.
  - rewrite (IH Hs). reflexivity.
Qed.

Lemma lang_digit_run (s : string) :
  all_chars digit_chars s ->
  lang (Rstar (Rcat (Ropt (Rchar "_")) (Rclass digit_chars))) s.
Proof.
  induction s as [|c s IH]; intros H; [constructor|].
  apply all_chars_cons in H. destruct H as [Hc Hs].
  change (String c s) with (String c EmptyString ++ s)%string.
  constructor; [|auto].
  change (String c EmptyString)
    with (EmptyString ++ String c EmptyString)%string.
  constructor; [apply lang_opt_iff; auto|apply lang_class_iff; eauto].
Qed.

Lemma lang_float_digits (s : string) :
  s <> EmptyString -> all_chars digit_chars s -> lang float_pattern s.
Proof.
  intros Hne H. destruct s as [|c s]; [congruence|].
  apply all_chars_cons in H. destruct H as [Hc Hs].
  unfold float_pattern. cbv zeta.
  apply (@lang_cat _ _ EmptyString (String c s)); [constructor|].
  apply (@lang_cat _ _ EmptyString (String c s)); [apply lang_opt_iff; auto|].
  rewrite <- (append_nil_r (String c s)).
  constructor; [|constructor].
  apply lang_alt_l.
  rewrite <- (append_nil_r (String c s)).
  constructor; [|apply lang_opt_iff; auto].
  apply lang_alt_r.
  rewrite <- (append_nil_r (String c s)).
  constructor; [|apply lang_opt_iff; auto].
  change (String c s) with (String c EmptyString ++ s)%string.
  constructor; [apply lang_class_iff; eauto|apply lang_digit_run; exact Hs].
Qed.

(** X22. A non-empty run of decimal digits is a valid value for a mapping
    of type NUMBER and for one of type CURRENCY; and [validate_data_types]
    rejects nothing for a mapping of any type other than EMAIL, PHONE,
    DATE, NUMBER and CURRENCY. *)
Theorem validate_data_types_digits (mapping : FieldMapping) (value : string) :
  value <> EmptyString -> all_chars digit_chars value ->
  (field_type mapping = NUMBER \/ field_type mapping = CURRENCY ->
   validate_data_types mapping value = true) /\
  (forall any : string,
     In (field_type mapping)
        [TEXT; ADDRESS; NAME; BOOLEAN; SIGNATURE; UNKNOWN] ->
     validate_data_types mapping any = true).
Proof.
  intros Hne Hall. split.
  - intros [Ht|Ht]; unfold validate_data_types; rewrite Ht.
    + unfold _validate_number, float_parses.
      rewrite (@remove_char_absent "," digit_chars value); [|vm_compute; intuition discriminate|exact Hall].
      apply matches_all_lang. apply lang_float_digits; assumption.
    + apply lang_currency_valid.
      rewrite (@remove_char_absent " " digit_chars value); [|vm_compute; intuition discriminate|exact Hall].
      assert (Hbody : all_chars (digit_chars ++ [","%char]) value).
      { unfold all_chars in *. eapply Forall_impl; [|exact Hall].
        intros c Hc. apply in_or_app. left. exact Hc. }
      left. exists EmptyString, value, EmptyString, EmptyString.
      split; [cbn [String.append]; rewrite append_nil_r; reflexivity|].
      split; [left; reflexivity|]. split; [exact Hne|].
      split; [exact Hbody|]. split; [left; reflexivity|].
      split; [simpl; lia|apply all_chars_nil].
  - intros any Hin. unfold validate_data_types.
    destruct (field_type mapping); simpl in Hin; try reflexivity;
      intuition discriminate.
Qed.

Lemma validate_data_types_digits_witness :
  validate_data_types
    {| source_field := "salary"; target_field := "income";
       confidence_score := 1; field_type := CURRENCY;
       matching_strategy := FUZZY; metadata := None |}
    "75000" = true.
Proof.
  destruct (@validate_data_types_digits
              {| source_field := "salary"; target_field := "income";
                 confidence_score := 1; field_type := CURRENCY;
                 matching_strategy := FUZZY; metadata := None |}
              "75000") as [H _].
  - discriminate.
  - repeat (apply all_chars_cons; split; [vm_compute; tauto|]).
    apply all_chars_nil.
  - apply H. right. reflexivity.
Defined.

(** ** Degraded operation *)

Lemma init_keeps_thresholds (E : External) (cfg : option Config) :
  similarity_threshold (config (__init__ E cfg))
  = similarity_threshold (chosen_config cfg) /\
  confidence_threshold (config (__init__ E cfg))
  = confidence_threshold (chosen_config cfg).
Proof.
  unfold __init__. fold (chosen_config cfg).
  generalize (chosen_config cfg). intros c.
  unfold _initialize_components. cbn [config].
  destruct (truthy (enable_semantic_matching c)); [|simpl; tauto].
  destruct (get_item "bert_model_name" (bert_model_name c));
    [|simpl; tauto].
  destruct (AutoTokenizer_from_pretrained E a); [|simpl; tauto].
  destruct (AutoModel_from_pretrained E a); [|simpl; tauto].
  cbn [config].
  destruct (get_item "spacy_model" (spacy_model c)); [|simpl; tauto].
  destruct (spacy_load E a2); simpl; tauto.
Qed.

(** X23. When a model loader fails for every model name, the constructor
    leaves the semantic provider out of play, whatever the configuration
    asked for; with both threshold keys present [map_fields] then returns
    a list. *)
Theorem init_falls_back_to_basic_matching
    (E : External) (cfg : option Config) (docs : list DocumentField)
    (fs : list FormField) (st ct : Q) :
  (forall name, exists e, AutoTokenizer_from_pretrained E name = Raised e) \/
  (forall name, exists e, AutoModel_from_pretrained E name = Raised e) \/
  (forall name, exists e, spacy_load E name = Raised e) ->
  similarity_threshold (chosen_config cfg) = Some st ->
  confidence_threshold (chosen_config cfg) = Some ct ->
  semantic_inactive (__init__ E cfg) /\
  exists res, map_fields E (__init__ E cfg) docs fs = Ok res.
Proof.
  intros Hfail Hst Hct.
  assert (Hin : semantic_inactive (__init__ E cfg)).
  { unfold semantic_inactive, __init__.
    fold (chosen_config cfg). generalize (chosen_config cfg). intros c.
    unfold _initialize_components. cbn [config].
    destruct (truthy (enable_semantic_matching c)) eqn:Hen;
      [|cbn [config bert_model]; rewrite Hen; reflexivity].
    destruct (get_item "bert_model_name" (bert_model_name c));
      [|reflexivity].
    destruct (AutoTokenizer_from_pretrained E a) eqn:Htok; [|reflexivity].
    destruct (AutoModel_from_pretrained E a) eqn:Hmod; [|reflexivity].
    cbn [config].
    destruct (get_item "spacy_model" (spacy_model c)); [|reflexivity].
    destruct (spacy_load E a2) eqn:Hsp; [|reflexivity].
    exfalso. destruct Hfail as [Hf|[Hf|Hf]].
    - destruct (Hf a) as [e He]. congruence.
    - destruct (Hf a) as [e He]. congruence.
    - destruct (Hf a2) as [e He]. congruence. }
  split; [exact Hin|].
  destruct (init_keeps_thresholds E cfg) as (Hs & Hc).
  apply (@map_fields_returns E (__init__ E cfg) docs fs st ct Hin);
    congruence.
Qed.

Lemma init_falls_back_to_basic_matching_witness :
  semantic_inactive (__init__ offline None) /\
  exists res,
    map_fields offline (__init__ offline None)
      [document_field "first_name" NAME] [form_field "firstName" NAME]
    = Ok res.
Proof.
  apply (@init_falls_back_to_basic_matching offline None
           [document_field "first_name" NAME] [form_field "firstName" NAME]
           (7 # 10) (6 # 10)).
  - left. intros name. eexists. reflexivity.
  - reflexivity.
  - reflexivity.
Defined.

Lemma dict_set_In_any {V} (d : Dict V) (k : string) (v : V)
    (k1 : string) (v1 : V) :
  In (k1, v1) (dict_set d k v) -> (k1, v1) = (k, v) \/ In (k1, v1) d.
Proof.
  induction d as [|[k' v'] d IH]; simpl.
  - intros [H|[]]. left. symmetry. exact H.
  - destruct (String.eqb k' k) eqn:Hk.
    + apply String.eqb_eq in Hk. subst k'.
      intros [H|H]; [left; symmetry; exact H|right; right; exact H].
    + intros [H|H]; [right; left; exact H|].
      destruct (IH H) as [?|?]; auto.
Qed.

Lemma shaped_dict_set n m sm k mat :
  shaped n m sm ->
  (forall i j, (i < n)%nat -> (j < m)%nat -> exists v, matrix_get mat i j = Ok v) ->
  shaped n m (dict_set sm k mat).
Proof.
  intros Hs Hm k1 mat1 Hin.
  apply dict_set_In_any in Hin. destruct Hin as [[= -> ->]|Hin].
  - exact Hm.
  - exact (Hs _ _ Hin).
Qed.

Lemma grid_entries {A B} (g : A -> B -> Q) (ds : list A) (fs : list B) :
  forall i j, (i < List.length ds)%nat -> (j < List.length fs)%nat ->
    exists v, matrix_get (map (fun d => map (fun f => g d f) fs) ds) i j = Ok v.
Proof.
  intros i j Hi Hj. rewrite matrix_get_grid.
  apply nth_error_Some in Hi. apply nth_error_Some in Hj.
  destruct (nth_error ds i); [|congruence].
  destruct (nth_error fs j); [|congruence]. eauto.
Qed.

(** X24. A failure of the embedding path is absorbed when the statistical
    fallback works: if the fallback returns a matrix with an entry for
    every pair of fields, that matrix is the semantic matrix, and with both
    threshold keys present [map_fields] returns a list. *)
Theorem map_fields_survives_embedding_failure
    (E : External) (M : Mapper) (docs : list DocumentField)
    (fs : list FormField) (e0 : PyExn) (mat : Matrix) (st ct : Q) :
  (doc_embeddings <- _get_bert_embeddings E M (map doc_name docs) ;;
   form_embeddings <- _get_bert_embeddings E M (map form_name fs) ;;
   cosine_similarity E doc_embeddings form_embeddings) = Raised e0 ->
  _compute_tfidf_similarity E M (map doc_name docs) (map form_name fs)
  = Ok mat ->
  (forall i j, (i < List.length docs)%nat -> (j < List.length fs)%nat ->
               exists v, matrix_get mat i j = Ok v) ->
  similarity_threshold (config M) = Some st ->
  confidence_threshold (config M) = Some ct ->
  _compute_semantic_matrix E M (map doc_name docs) (map form_name fs)
  = Ok mat /\
  exists res, map_fields E M docs fs = Ok res.
Proof.
  intros Hemb Htf Hmat Hst Hct.
  assert (Hsem : _compute_semantic_matrix E M (map doc_name docs)
                   (map form_name fs) = Ok mat).
  { unfold _compute_semantic_matrix. rewrite Hemb. exact Htf. }
  split; [exact Hsem|].
  assert (Hsm : exists sm,
            _compute_similarity_matrices E M (map doc_name docs)
              (map form_name fs) = Ok sm /\
            shaped (List.length docs) (List.length fs) sm).
  { unfold _compute_similarity_matrices. rewrite Hsem.
    assert (Hz : forall i j, (i < List.length docs)%nat ->
                             (j < List.length fs)%nat ->
                 exists v, matrix_get
                             (_compute_fuzzy_matrix E (map doc_name docs)
                                (map form_name fs)) i j = Ok v).
    { intros i j Hi Hj. apply grid_entries; rewrite length_map; assumption. }
    assert (Hr : forall i j, (i < List.length docs)%nat ->
                             (j < List.length fs)%nat ->
                 exists v, matrix_get
                             (_compute_rule_based_matrix (map doc_name docs)
                                (map form_name fs)) i j = Ok v).
    { intros i j Hi Hj.
      apply (grid_entries _apply_mapping_rules);
        rewrite length_map; assumption. }
    assert (H0 : shaped (List.length docs) (List.length fs) []).
    { intros k m0 []. }
    cbv zeta.
    destruct (truthy (enable_fuzzy_matching (config M))),
      (truthy (enable_semantic_matching (config M)) && is_some (bert_model M)),
      (truthy (enable_rule_based (config M)));
      cbn [bind]; eexists; (split; [reflexivity|]);
      repeat apply shaped_dict_set; assumption. }
  destruct Hsm as (sm & Hsm & Hs).
  destruct (@mappings_from_total (config M) fs (List.length docs) sm st ct
              Hs Hst Hct docs 0%nat) as [ms Hms]; [lia|].
  unfold map_fields. rewrite Hsm. cbn [bind]. rewrite Hms. cbn [bind]. eauto.
Qed.

Lemma map_fields_survives_embedding_failure_witness :
  exists res,
    map_fields failing_backend (__init__ failing_backend None)
      [document_field "first_name" NAME] [form_field "firstName" NAME]
    = Ok res.
Proof.
  destruct (@map_fields_survives_embedding_failure failing_backend
              (__init__ failing_backend None)
              [document_field "first_name" NAME] [form_field "firstName" NAME]
              (LibraryError "backend error") [[1]] (7 # 10) (6 # 10))
    as [_ H]; try reflexivity.
  - intros [|i] [|j] Hi Hj; simpl in Hi, Hj; try lia. eexists. reflexivity.
  - exact H.
Defined.
